(** * LinkProp / LinkProp-Multi: a shallow embedding of [run_link_prop.py]

    The development follows the Python module top to bottom: the sparse
    tensor helpers ([sparse_assign], [sparse_re_assign_on_mask],
    [sparse_nonzero]), the hold-out sampler [sample_user_items], the
    evaluator [mean_average_precision] and the class [LinkPropMulti].

    Numbers.  Tensor values are [float] in the source.  They are modelled
    as exact rationals [Q]; [==] is numeric equality, which is what the
    source's [value == 1], [value != 0] and [values > 0] tests compute.
    Rounding is outside the model, except in [sparse_assign] and
    [sparse_re_assign_on_mask], whose results depend on it: there the
    difference and the sum are rounded to float32 ([round32]).
    [sample_user_items] re-assigns 2 over the weights of an interaction
    matrix, where nothing is rounded; its call is modelled without
    rounding ([sparse_re_assign_on_mask_exact]).

    Indices are Python integers, hence [Z]. *)

From Stdlib Require Import ZArith QArith Qround List Bool Lia Lqa.
From Stdlib Require Import Sorting.Permutation.
Import ListNotations.

Local Open Scope Z_scope.

(** ** Errors raised by the source and by the tensor library *)

Inductive error : Type :=
| AssertionError   (* a failed [assert] statement of the source *)
| IndexError       (* an index outside a tensor *)
| RuntimeError     (* torch: [topk] with [k] out of range, mismatched shapes *)
| TypeError        (* an operation on [None] *)
| AttributeError   (* a method call on [None] *)
| ValueError.      (* [range] with step 0 *)

Inductive result (A : Type) : Type :=
| Ok (a : A)
| Err (e : error).
Arguments Ok {A} a.
Arguments Err {A} e.

Definition bind {A B : Type} (x : result A) (f : A -> result B) : result B :=
  match x with
  | Ok a => f a
  | Err e => Err e
  end.

Notation "x <- c1 ;; c2" := (bind c1 (fun x => c2))
  (at level 61, c1 at next level, right associativity).

(** [IndexError] and its subclasses; [AssertionError] is not one of them. *)
Definition index_error_class (e : error) : bool :=
  match e with
  | IndexError => true
  | _ => false
  end.

(** ** float32

    [round32 x] is the float32 value nearest to [x], ties to the even
    significand: 24 significant bits, exponents from -149 (subnormals)
    upwards.  Magnitudes from 2^128 on, where float32 gives [inf], are
    outside the model. *)

Definition pow2 (e : Z) : Q := Qpower 2 e.

(** The integer nearest to [q >= 0], ties to even. *)
Definition round_half_even (q : Q) : Z :=
  let n := Qnum q in
  let d := Zpos (Qden q) in
  let f := n / d in
  let r := n mod d in
  if 2 * r <? d then f
  else if d <? 2 * r then f + 1
  else if Z.even f then f else f + 1.

(** [floor (log2 x)] for [x > 0]. *)
Definition ilog2 (x : Q) : Z :=
  let l := Z.log2 (Qnum x) - Z.log2 (Zpos (Qden x)) in
  if Qle_bool (pow2 l) x then l else l - 1.

Definition round32 (x : Q) : Q :=
  let x := Qred x in
  if Qeq_bool x 0 then 0%Q
  else
    let a := if Qle_bool 0 x then x else (- x)%Q in
    let e := Z.max (ilog2 a - 23) (-149) in
    let m := round_half_even (Qred (a / pow2 e)) in
    Qred ((if Qle_bool 0 x then 1 else -1) * inject_Z m * pow2 e).

(** [a - b] and [a + b] on float32 tensors. *)
Definition fsub (a b : Q) : Q := round32 (a - b).
Definition fadd (a b : Q) : Q := round32 (a + b).

Arguments round32 x : simpl never.
Arguments fsub a b : simpl never.
Arguments fadd a b : simpl never.

(** ** The sparse tensor of [torch_sparse] *)

Module Sparse.

(** One stored entry: (row, col, value), the three parallel tensors that
    [m.coo()] returns, zipped. *)
Definition triplet : Type := Z * Z * Q.

Definition t_row (t : triplet) : Z := fst (fst t).
Definition t_col (t : triplet) : Z := snd (fst t).
Definition t_val (t : triplet) : Q := snd t.

Record SparseTensor : Type := mkRaw {
  size0 : Z;                 (* m.size(0) *)
  size1 : Z;                 (* m.size(1) *)
  coo : list triplet         (* row, col, value = m.coo() *)
}.

(** The storage orders its entries by [sparse_sizes[1] * row + col]. *)
Definition flat (n : Z) (t : triplet) : Z := n * t_row t + t_col t.

Fixpoint insert_by (n : Z) (t : triplet) (l : list triplet) : list triplet :=
  match l with
  | [] => [t]
  | u :: l' => if flat n t <=? flat n u then t :: l else u :: insert_by n t l'
  end.

Fixpoint sort_by (n : Z) (l : list triplet) : list triplet :=
  match l with
  | [] => []
  | t :: l' => insert_by n t (sort_by n l')
  end.

(** [SparseTensor(row=..., col=..., value=..., sparse_sizes=(n0, n1))]:
    the storage asserts [row.max() < n0] and [col.max() < n1] (there is
    no check from below), then puts the entries in index order;
    duplicates stay until [coalesce]. *)
Definition below_sizes (n0 n1 : Z) (t : triplet) : bool :=
  (t_row t <? n0) && (t_col t <? n1).

Definition SparseTensor_new (entries : list triplet) (n0 n1 : Z)
  : result SparseTensor :=
  if forallb (below_sizes n0 n1) entries
  then Ok (mkRaw n0 n1 (sort_by n1 entries))
  else Err AssertionError.

(** [coalesce(reduce)].  The library computes
    [mask = idx[1:] > idx[:-1]] with [idx[0] = -1]; an entry whose mask
    bit is set opens a segment, the following entries with a cleared bit
    are reduced into it, and entries before the first set bit belong to
    no segment. *)
Fixpoint group_from (reduce : Q -> Q -> Q) (n : Z) (cur : triplet)
         (l : list triplet) : list triplet :=
  match l with
  | [] => [cur]
  | t :: l' =>
      if flat n cur <? flat n t
      then cur :: group_from reduce n t l'
      else group_from reduce n (t_row cur, t_col cur, reduce (t_val cur) (t_val t)) l'
  end.

Fixpoint segments (reduce : Q -> Q -> Q) (n : Z) (prev : Z)
         (l : list triplet) : list triplet :=
  match l with
  | [] => []
  | t :: l' =>
      if prev <? flat n t
      then group_from reduce n t l'
      else segments reduce n (flat n t) l'
  end.

Definition coalesce (reduce : Q -> Q -> Q) (m : SparseTensor) : SparseTensor :=
  mkRaw (size0 m) (size1 m) (segments reduce (size1 m) (-1) (coo m)).

Definition add : Q -> Q -> Q := Qplus.
Definition max : Q -> Q -> Q := fun a b => if Qle_bool a b then b else a.

(** [is_coalesced]: every mask bit is set. *)
Fixpoint increasing_from (n : Z) (prev : Z) (l : list triplet) : Prop :=
  match l with
  | [] => True
  | t :: l' => prev < flat n t /\ increasing_from n (flat n t) l'
  end.

Definition is_coalesced (m : SparseTensor) : Prop :=
  increasing_from (size1 m) (-1) (coo m).

(** Every stored index lies inside the declared shape. *)
Definition in_shape (n0 n1 : Z) (t : triplet) : Prop :=
  0 <= t_row t < n0 /\ 0 <= t_col t < n1.

Definition well_formed (m : SparseTensor) : Prop :=
  Forall (in_shape (size0 m) (size1 m)) (coo m) /\ is_coalesced m.

(** [to_dense()] executes [mat[row, col] = value] over zeros: a cell
    holds the value of the last entry stored at it. *)
Definition at_cell (r c : Z) (t : triplet) : bool :=
  (t_row t =? r) && (t_col t =? c).

Definition cell_of (l : list triplet) (r c : Z) : Q :=
  fold_left (fun acc t => if at_cell r c t then t_val t else acc) l 0%Q.

Definition cell (m : SparseTensor) (r c : Z) : Q := cell_of (coo m) r c.

(** [m[i, j]] with two Python integers: [select] is [narrow] of length 1,
    and [narrow] adds the size to a negative start.  The result is the
    1 x 1 tensor holding cell [(i, j)]. *)
Definition wrap (size i : Z) : Z := if i <? 0 then size + i else i.

Definition getitem2 (m : SparseTensor) (i j : Z) : result SparseTensor :=
  let i' := wrap (size0 m) i in
  let j' := wrap (size1 m) j in
  if (0 <=? i') && (i' <? size0 m)
  then Ok (mkRaw 1 1
             (map (fun t => (0, 0, t_val t))
                  (filter (at_cell i' j') (coo m))))
  else Err IndexError.

(** [.to_dense().squeeze()] of a 1 x 1 tensor: a scalar. *)
Definition squeeze11 (m : SparseTensor) : Q := cell m 0 0.

(** [range(a, b)] as a list of integers. *)
Definition zrange (a b : Z) : list Z :=
  map (fun i => a + Z.of_nat i) (seq 0 (Z.to_nat (b - a))).

Definition Qsum (l : list Q) : Q := fold_right Qplus 0%Q l.

Definition Qltb (a b : Q) : bool := negb (Qle_bool b a).

(** [m.to_dense()]: a list of rows. *)
Definition dense : Type := list (list Q).

Definition to_dense (m : SparseTensor) : dense :=
  map (fun r => map (fun c => cell m r c) (zrange 0 (size1 m)))
      (zrange 0 (size0 m)).

(** [m.sum(dim=1)] and [m.sum(dim=0)]: dense vectors of row and column
    sums of the stored values. *)
Definition sum_dim1 (m : SparseTensor) : list Q :=
  map (fun r => Qsum (map t_val (filter (fun t => t_row t =? r) (coo m))))
      (zrange 0 (size0 m)).

Definition sum_dim0 (m : SparseTensor) : list Q :=
  map (fun c => Qsum (map t_val (filter (fun t => t_col t =? c) (coo m))))
      (zrange 0 (size1 m)).

(** [m[start:stop]]: a negative bound is shifted by the size, then the
    rows are cut out with [narrow(0, start, max(stop - start, 0))], which
    raises when the range leaves the tensor. *)
Definition slice_rows (m : SparseTensor) (start stop : Z) : result SparseTensor :=
  let start' := wrap (size0 m) start in
  let stop' := wrap (size0 m) stop in
  let len := Z.max (stop' - start') 0 in
  if (0 <=? start') && (start' + len <=? size0 m)
  then Ok (mkRaw len (size1 m)
             (map (fun t => (t_row t - start', t_col t, t_val t))
                  (filter (fun t => (start' <=? t_row t) && (t_row t <? start' + len))
                          (coo m))))
  else Err RuntimeError.

(** Boolean masks: [torch.arange(len(mask))[mask]] and the renumbering
    done by [masked_select]. *)
Definition mask_at (mask : list bool) (i : Z) : bool :=
  (0 <=? i) && nth (Z.to_nat i) mask false.

Definition selected (mask : list bool) : list Z :=
  filter (mask_at mask) (zrange 0 (Z.of_nat (length mask))).

Definition rank (mask : list bool) (i : Z) : Z :=
  Z.of_nat (length (filter (fun b : bool => b) (firstn (Z.to_nat i) mask))).

(** [m[mask, :]] and [m[:, mask]]: [masked_select] indexes the row (or
    column) counts with the mask, which raises [IndexError] unless the
    mask has one entry per row (or column). *)
Definition masked_select0 (m : SparseTensor) (mask : list bool)
  : result SparseTensor :=
  if Nat.eqb (length mask) (Z.to_nat (size0 m)) then
    Ok (mkRaw (Z.of_nat (length (selected mask))) (size1 m)
          (map (fun t => (rank mask (t_row t), t_col t, t_val t))
               (filter (fun t => mask_at mask (t_row t)) (coo m))))
  else Err IndexError.

Definition masked_select1 (m : SparseTensor) (mask : list bool)
  : result SparseTensor :=
  if Nat.eqb (length mask) (Z.to_nat (size1 m)) then
    Ok (mkRaw (size0 m) (Z.of_nat (length (selected mask)))
          (map (fun t => (t_row t, rank mask (t_col t), t_val t))
               (filter (fun t => mask_at mask (t_col t)) (coo m))))
  else Err IndexError.

(** [m.t()] *)
Definition transpose (m : SparseTensor) : SparseTensor :=
  mkRaw (size1 m) (size0 m)
        (sort_by (size0 m) (map (fun t => (t_col t, t_row t, t_val t)) (coo m))).

(** [matmul(a, b)] of two sparse tensors: the product is stored at the
    cells reached through a stored entry of each factor. *)
Definition dot (a b : SparseTensor) (r c : Z) : Q :=
  Qsum (map (fun k => (cell a r k * cell b k c)%Q) (zrange 0 (size1 a))).

Definition reaches (a b : SparseTensor) (r c : Z) : bool :=
  existsb (fun ta => (t_row ta =? r) &&
             existsb (fun tb => (t_row tb =? t_col ta) && (t_col tb =? c)) (coo b))
          (coo a).

Definition matmul (a b : SparseTensor) : result SparseTensor :=
  if size1 a =? size0 b
  then Ok (mkRaw (size0 a) (size1 b)
             (flat_map (fun r =>
                flat_map (fun c => if reaches a b r c then [(r, c, dot a b r c)] else [])
                         (zrange 0 (size1 b)))
                (zrange 0 (size0 a))))
  else Err RuntimeError.

(** [x.topk(k)] on one dense row: the [k] largest values in descending
    order with their positions; ties keep the lower position first.
    torch raises when [k] is not within the row. *)
Fixpoint insert_desc (x : Q * Z) (l : list (Q * Z)) : list (Q * Z) :=
  match l with
  | [] => [x]
  | y :: l' => if Qle_bool (fst y) (fst x) then x :: l else y :: insert_desc x l'
  end.

Definition sort_desc (l : list (Q * Z)) : list (Q * Z) :=
  fold_right insert_desc [] l.

Definition enumerate (row : list Q) : list (Q * Z) :=
  combine row (zrange 0 (Z.of_nat (length row))).

Definition topk (k : Z) (row : list Q) : result (list (Q * Z)) :=
  if (0 <=? k) && (k <=? Z.of_nat (length row))
  then Ok (firstn (Z.to_nat k) (sort_desc (enumerate row)))
  else Err RuntimeError.

(** Applying a fallible function along a list, left to right. *)
Fixpoint mapM {A B : Type} (f : A -> result B) (l : list A) : result (list B) :=
  match l with
  | [] => Ok []
  | a :: l' => b <- f a ;; bs <- mapM f l' ;; Ok (b :: bs)
  end.

(** [v[i]] on a dense vector. *)
Definition index_vec (v : list Q) (i : Z) : result Q :=
  let i' := wrap (Z.of_nat (length v)) i in
  if (0 <=? i') && (i' <? Z.of_nat (length v))
  then Ok (nth (Z.to_nat i') v 0%Q)
  else Err IndexError.

(** [range(0, stop, step)] *)
Definition py_range (stop step : Z) : result (list Z) :=
  if step =? 0 then Err ValueError
  else if ((0 <? step) && (0 <? stop)) || ((step <? 0) && (stop <? 0))
  then Ok (map (fun i => Z.of_nat i * step)
               (seq 0 (Z.to_nat ((Z.abs stop + Z.abs step - 1) / Z.abs step))))
  else Ok [].

(** The slice [:] of the columns in [m[a:b, :]]: [narrow(1, 0, size1)]
    keeps the entries whose column lies in [0, size1). *)
Definition all_cols (m : SparseTensor) : SparseTensor :=
  mkRaw (size0 m) (size1 m)
        (filter (fun t => (0 <=? t_col t) && (t_col t <? size1 m)) (coo m)).

(** [mat[r, c]] of a dense block. *)
Definition dense_at (mat : dense) (r c : Z) : Q :=
  nth (Z.to_nat c) (nth (Z.to_nat r) mat []) 0%Q.

(** [SparseTensor.from_dense(mat)]: the cells of [mat.nonzero()], in
    row-major order, with the shape of [mat] (a block has at least one
    row wherever this is used, so its width is that of its first row). *)
Definition from_dense (mat : dense) : SparseTensor :=
  let n0 := Z.of_nat (length mat) in
  let n1 := Z.of_nat (length (hd [] mat)) in
  mkRaw n0 n1
        (filter (fun t => negb (Qeq_bool (t_val t) 0))
                (flat_map (fun r => map (fun c => (r, c, dense_at mat r c))
                                        (zrange 0 n1))
                          (zrange 0 n0))).

End Sparse.
Import Sparse.

(** ** [split_data] *)

Definition split_data (start count : Z) (M : SparseTensor) : result SparseTensor :=
  blk <- slice_rows M start (start + count) ;;
  Ok (coalesce max (all_cols blk)).

(** ** [sparse_assign]

    [torch.tensor([val], dtype=torch.float) - prev] and the sum taken by
    [coalesce("add")] are float32 operations. *)

Definition sparse_assign (m : SparseTensor) (i j : Z) (val : Q)
  : result SparseTensor :=
  if (i <? size0 m) && (j <? size1 m) then
    let entries := coo m in
    p <- getitem2 m i j ;;
    let prev := squeeze11 p in
    m' <- SparseTensor_new (entries ++ [(i, j, fsub (round32 val) prev)])
                           (size0 m) (size1 m) ;;
    Ok (coalesce fadd m')
  else Err AssertionError.

(** ** [sparse_re_assign_on_mask]

    [sparse_re_assign_on_mask_with] takes the subtraction of
    [val - prev_value] and the addition of [coalesce("add")] as
    arguments.  The source computes both in float32, [val] being
    converted to the tensor's type first: this is
    [sparse_re_assign_on_mask].  [sparse_re_assign_on_mask_exact] is the
    same function without rounding. *)

Inductive axis : Type := Dim0 | Dim1.

Definition sparse_re_assign_on_mask_with (sub add : Q -> Q -> Q)
           (m : SparseTensor) (mask : list bool)
           (val : Q) (dim : axis) : result SparseTensor :=
  let entries := coo m in
  selection <- match dim with
               | Dim0 => masked_select0 m mask
               | Dim1 => masked_select1 m mask
               end ;;
  let prev := coo selection in
  (* restore previous values' indices *)
  let prev :=
    match dim with
    | Dim0 => map (fun t => (nth (Z.to_nat (t_row t)) (selected mask) 0, t_col t, t_val t)) prev
    | Dim1 => map (fun t => (t_row t, nth (Z.to_nat (t_col t)) (selected mask) 0, t_val t)) prev
    end in
  m' <- SparseTensor_new
          (entries ++ map (fun t => (t_row t, t_col t, sub val (t_val t))) prev)
          (size0 m) (size1 m) ;;
  Ok (coalesce add m').

Definition sparse_re_assign_on_mask
  : SparseTensor -> list bool -> Q -> axis -> result SparseTensor :=
  sparse_re_assign_on_mask_with (fun val prev => fsub (round32 val) prev) fadd.

Definition sparse_re_assign_on_mask_exact
  : SparseTensor -> list bool -> Q -> axis -> result SparseTensor :=
  sparse_re_assign_on_mask_with Qminus add.

(** ** [sparse_cat] *)

Definition sparse_cat (m n : SparseTensor) : result SparseTensor :=
  if size1 m =? size1 n then
    let shifted := map (fun t => (t_row t + size0 m, t_col t, t_val t)) (coo n) in
    m' <- SparseTensor_new (coo m ++ shifted) (size0 m + size0 n) (size1 m) ;;
    Ok (coalesce add m')
  else Err AssertionError.

(** ** [sparse_batch_op]

    [op] is any function of two dense blocks. *)

Fixpoint sparse_batch_loop (batch_size : Z) (op : dense -> dense -> dense)
         (m n : SparseTensor) (starts : list Z) (result_ : SparseTensor)
  : result SparseTensor :=
  match starts with
  | [] => Ok result_
  | i :: rest =>
      let end_ := Z.min (i + batch_size) (size0 m) in
      a <- slice_rows m i end_ ;;
      b <- slice_rows n i end_ ;;
      let res := from_dense (op (to_dense (all_cols a)) (to_dense (all_cols b))) in
      result_ <- sparse_cat result_ res ;;
      sparse_batch_loop batch_size op m n rest result_
  end.

Definition sparse_batch_op (batch_size : Z) (op : dense -> dense -> dense)
           (m n : SparseTensor) : result SparseTensor :=
  result_ <- SparseTensor_new [] 0 (size1 m) ;;
  starts <- py_range (size0 m) batch_size ;;
  sparse_batch_loop batch_size op m n starts result_.

(** ** [sparse_nonzero] *)

Definition sparse_nonzero (m : SparseTensor) : list triplet :=
  filter (fun t => negb (Qeq_bool (t_val t) 0)) (coo m).

(** ** [sample_user_items]

    [torch.rand(len(value))] is an input of the model: [rnd i] is the
    sample drawn for position [i].  The re-assignment of 2 is taken
    without rounding (see Numbers). *)

Definition recode (v : Q) : Q :=
  let v := if Qeq_bool v 1 then 2%Q else v in      (* value[value == 1] = 2 *)
  let v := if Qeq_bool v 0 then 1%Q else v in      (* value[value == 0] = 1 *)
  if Qeq_bool v 2 then 0%Q else v.                 (* value[value == 2] = 0 *)

Definition holdout (rnd : nat -> Q) (threshold : Q) (i : nat) (v : Q) : Q :=
  let rand_mask := Qeq_bool v 2 && Qltb (rnd i) threshold in
  let v := if rand_mask then 0%Q else v in         (* value[rand_mask] = 0 *)
  if Qeq_bool v 2 then 1%Q else v.                 (* value[value == 2] = 1 *)

Definition sample_user_items (rnd : nat -> Q) (target : SparseTensor) (ratio : Q)
  : result (SparseTensor * SparseTensor) :=
  let user_deg := sum_dim1 target in
  candidate <-
    sparse_re_assign_on_mask_exact target (map (fun d => Qltb 1 d) user_deg) 2 Dim0 ;;
  let nz := sparse_nonzero candidate in
  let twos := filter (fun t => Qeq_bool (t_val t) 2) nz in
  let threshold :=
    (inject_Z (Z.of_nat (length twos)) / inject_Z (Z.of_nat (length nz)) * ratio)%Q in
  let sampled :=
    map (fun it => (t_row (snd it), t_col (snd it),
                    holdout rnd threshold (fst it) (t_val (snd it))))
        (combine (seq 0 (length nz)) nz) in
  data <- SparseTensor_new sampled (size0 target) (size1 target) ;;
  let data := coalesce add data in
  (* take observed out of ground truth *)
  let flipped := map (fun t => (t_row t, t_col t, recode (t_val t))) (coo data) in
  target_new_links <- SparseTensor_new flipped (size0 target) (size1 target) ;;
  let target_new_links := coalesce add target_new_links in
  Ok (data, target_new_links).

(** ** [mean_average_precision]

    [np.intersect1d(truth, pred[:k], assume_unique=True,
    return_indices=True)] is used for its third result only: on inputs
    without repeated elements, the positions of [pred[:k]] whose element
    occurs in [truth].  A [nan] result (the mean of no numbers) is [None]. *)

Definition intersect1d_indices2 (ar1 ar2 : list Z) : list nat :=
  filter (fun j => existsb (Z.eqb (nth j ar2 0)) ar1) (seq 0 (length ar2)).

Fixpoint cumsum_from (acc : Z) (l : list Z) : list Z :=
  match l with
  | [] => []
  | x :: l' => (acc + x) :: cumsum_from (acc + x) l'
  end.

Definition cumsum (l : list Z) : list Z := cumsum_from 0 l.

Definition mean (l : list Q) : option Q :=
  match l with
  | [] => None
  | _ => Some (Qsum l / inject_Z (Z.of_nat (length l)))%Q
  end.

Fixpoint sequence {A : Type} (l : list (option A)) : option (list A) :=
  match l with
  | [] => Some []
  | None :: _ => None
  | Some a :: l' =>
      match sequence l' with
      | Some r => Some (a :: r)
      | None => None
      end
  end.

Definition rel_row (k : nat) (inter_idxs : list nat) : list Z :=
  map (fun j => if existsb (Nat.eqb j) inter_idxs then 1 else 0) (seq 0 k).

Definition mean_average_precision (y_true y_pred : list (list Z)) (k : nat)
  : option Q :=
  (* compute the Rel@K for all items *)
  let hits :=
    map (fun tp => rel_row k (intersect1d_indices2 (fst tp) (firstn k (snd tp))))
        (combine y_true y_pred) in
  let rel_at_k :=
    hits ++ repeat (repeat 0 k) (length y_true - length hits) in
  let intersection_count_at_k := map cumsum rel_at_k in
  let ranks := map (fun i => Z.of_nat i + 1) (seq 0 k) in
  let precisions_at_k :=
    map (fun counts =>
           map (fun cr => (inject_Z (fst cr) / inject_Z (snd cr))%Q)
               (combine counts ranks))
        intersection_count_at_k in
  let precisions_at_k :=
    map (fun pr => map (fun x => (fst x * inject_Z (snd x))%Q)
                       (combine (fst pr) (snd pr)))
        (combine precisions_at_k rel_at_k) in
  match sequence (map mean precisions_at_k) with
  | Some average_precisions_at_k => mean average_precisions_at_k
  | None => None
  end.

(** ** [class LinkPropMulti] *)

Module LinkPropMulti.

Record self : Type := mk {
  rounds : Z;
  k : Z;
  t : Q;
  alpha : Q;
  beta : Q;
  gamma : Q;
  delta : Q;
  user_degrees : option (list Q);
  item_degrees : option (list Q);
  M : option SparseTensor;
  M_alpha_beta : option SparseTensor;
  M_gamma_delta : option SparseTensor
}.

(** [__init__] *)
Definition init (alpha beta gamma delta : Q) (rounds : Z) (t : Q) (k : Z) : self :=
  mk rounds k t alpha beta gamma delta None None None None None.

(** [set_params]: the degree cache and the fitted matrices stay. *)
Definition set_params (s : self) (alpha beta gamma delta : Q) (rounds : Z)
           (t : Q) (k : Z) : self :=
  mk rounds k t alpha beta gamma delta
     (user_degrees s) (item_degrees s) (M s) (M_alpha_beta s) (M_gamma_delta s).

Definition set_degrees (s : self) (u i : option (list Q)) : self :=
  mk (rounds s) (k s) (t s) (alpha s) (beta s) (gamma s) (delta s)
     u i (M s) (M_alpha_beta s) (M_gamma_delta s).

Definition set_model (s : self) (ab gd : option SparseTensor) : self :=
  mk (rounds s) (k s) (t s) (alpha s) (beta s) (gamma s) (delta s)
     (user_degrees s) (item_degrees s) (M s) ab gd.

Definition some_or {A : Type} (e : error) (o : option A) : result A :=
  match o with
  | Some a => Ok a
  | None => Err e
  end.

Section Methods.

(** [pow x y] stands for the float power [x ** y]. *)
Variable pow : Q -> Q -> Q.

(** The module-level matrix [M] bound by [load_data()] when the module
    is loaded. *)
Variable M_global : SparseTensor.

(** [d ** (-e)] followed by [x[torch.isinf(x)] = 0.0]: the power is
    infinite exactly at a zero degree with a positive exponent. *)
Definition neg_pow (e d : Q) : Q :=
  if Qeq_bool d 0 && Qltb 0 e then 0%Q else pow d (- e)%Q.

Definition reweight (rows cols : list Q) (entries : list triplet)
  : result (list triplet) :=
  mapM (fun e =>
          u <- index_vec rows (t_row e) ;;
          i <- index_vec cols (t_col e) ;;
          Ok (t_row e, t_col e, (u * i * t_val e)%Q))
       entries.

Definition fit (s : self) (M : SparseTensor) : result self :=
  (* reset model *)
  let s := set_model s None None in
  (* get node degrees *)
  let s := match user_degrees s with
           | None => set_degrees s (Some (sum_dim1 M)) (Some (sum_dim0 M))
           | Some _ => s
           end in
  (* exponentiate degrees by model params *)
  ud <- some_or TypeError (user_degrees s) ;;
  id <- some_or TypeError (item_degrees s) ;;
  let user_alpha := map (neg_pow (alpha s)) ud in
  let item_beta := map (neg_pow (beta s)) id in
  let user_gamma := map (neg_pow (gamma s)) ud in
  let item_delta := map (neg_pow (delta s)) id in
  let nz := sparse_nonzero M in
  ab <- reweight user_alpha item_beta nz ;;
  M_alpha_beta <- SparseTensor_new ab (size0 M) (size1 M) ;;
  gd <- reweight user_gamma item_delta nz ;;
  M_gamma_delta <- SparseTensor_new gd (size0 M) (size1 M) ;;
  Ok (set_model s (Some M_alpha_beta) (Some M_gamma_delta)).

Definition get_preds_for_users (s : self) (start end_ : Z) : result SparseTensor :=
  ab <- some_or TypeError (M_alpha_beta s) ;;
  rows <- slice_rows ab start end_ ;;
  hop <- matmul rows (transpose M_global) ;;
  gd <- some_or AttributeError (M_gamma_delta s) ;;
  matmul hop gd.

(** Broadcasting of the element-wise subtraction: equal extents, or one
    of them 1. *)
Definition broadcast (a b : Z) : result Z :=
  if a =? b then Ok a
  else if a =? 1 then Ok b
  else if b =? 1 then Ok a
  else Err RuntimeError.

Definition bidx (size i : Z) : Z := if size =? 1 then 0 else i.

Definition sentinel : Q := 100000%Q.

Definition clamp_min0 (x : Q) : Q := if Qle_bool 0 x then x else 0%Q.

Definition masked_scores (p obs : SparseTensor) (nrows ncols : Z) : dense :=
  map (fun r =>
         map (fun c =>
                let score := cell p (bidx (size0 p) r) (bidx (size1 p) c) in
                let seen := cell obs (bidx (size0 obs) r) (bidx (size1 obs) c) in
                clamp_min0 (score - (if Qeq_bool seen 1 then 1 else 0) * sentinel)%Q)
             (zrange 0 ncols))
      (zrange 0 nrows).

Definition topk_dim1 (k : Z) (ncols : Z) (d : dense) : result (list (list (Q * Z))) :=
  if (0 <=? k) && (k <=? ncols) then mapM (topk k) d else Err RuntimeError.

Definition predict_topk (s : self) (M : SparseTensor) (start end_ k : Z)
  : result (list (list Z)) :=
  p <- get_preds_for_users s start end_ ;;
  (* take observed links out of possible predictions *)
  obs <- slice_rows M start end_ ;;
  nrows <- broadcast (size0 p) (size0 obs) ;;
  ncols <- broadcast (size1 p) (size1 obs) ;;
  let user_pred := masked_scores p obs nrows ncols in
  user_pred <- topk_dim1 k ncols user_pred ;;
  (* filter out zeros and return indices *)
  Ok (map (fun row => map snd (filter (fun vi => Qltb 0 (fst vi)) row)) user_pred).

(** The array [indices] of one batch: the pairs [(start + i, col)] for
    [col] in the [i]-th row of the prediction. *)
Definition link_indices (start : Z) (predicted_new_link_indices : list (list Z))
  : list (Z * Z) :=
  flat_map (fun ir => map (fun c => (start + Z.of_nat (fst ir), c)) (snd ir))
           (combine (seq 0 (length predicted_new_link_indices))
                    predicted_new_link_indices).

Definition merge_links (M_new M : SparseTensor) (start : Z)
           (predicted_new_link_indices : list (list Z)) : result SparseTensor :=
  let indices := link_indices start predicted_new_link_indices in
  m' <- SparseTensor_new
          (coo M_new ++ map (fun rc => (fst rc, snd rc, 1%Q)) indices)
          (size0 M) (size1 M) ;;
  Ok (coalesce max m').

(** The body of [for start in range(0, total, batch_size)]. *)
Fixpoint sweep (s : self) (M : SparseTensor) (batch_size total : Z)
         (starts : list Z) (M_new : SparseTensor) : result SparseTensor :=
  match starts with
  | [] => Ok M_new
  | start :: rest =>
      let end_ := Z.min (start + batch_size) total in
      blk <- slice_rows M start end_ ;;
      let number_of_links := Qsum (map Qsum (to_dense blk)) in
      let k := Qceiling (number_of_links * t s / inject_Z (end_ - start)) in
      predicted <- predict_topk s M start end_ k ;;
      M_new <- merge_links M_new M start predicted ;;
      sweep s M batch_size total rest M_new
  end.


(** The predicted links of one round merged into a copy of [M]. *)
Definition augment (s : self) (M : SparseTensor) (batch_size total : Z)
  : result SparseTensor :=
  starts <- py_range total batch_size ;;
  sweep s M batch_size total starts M.

(** One pass of [for i in range(self.rounds - 1)]. *)
Definition round (s : self) (M : SparseTensor) (batch_size total : Z)
  : result self :=
  M_new <- augment s M batch_size total ;;
  (* recalculate and store node degrees for next round *)
  let s := set_degrees s (Some (sum_dim1 M_new)) (Some (sum_dim0 M_new)) in
  fit s M.

Fixpoint rounds_loop (n : nat) (s : self) (M : SparseTensor)
         (batch_size total : Z) : result self :=
  match n with
  | O => Ok s
  | S n' =>
      s' <- round s M batch_size total ;;
      rounds_loop n' s' M batch_size total
  end.

Definition fit_multi (s : self) (M : SparseTensor) (batch_size total : Z)
  : result self :=
  s <- fit s M ;;
  rounds_loop (Z.to_nat (rounds s - 1)) s M batch_size total.

Fixpoint predict_from (s : self) (X : SparseTensor) (batch_size : Z)
         (starts : list Z) (user_topk : list (list Z)) : result (list (list Z)) :=
  match starts with
  | [] => Ok user_topk
  | start :: rest =>
      let end_ := Z.min (start + batch_size) (size0 X) in
      user_pred <- predict_topk s X start end_ (k s) ;;
      predict_from s X batch_size rest (user_topk ++ user_pred)
  end.

Definition predict (s : self) (X : SparseTensor) (batch_size : Z)
  : result (list (list Z)) :=
  starts <- py_range (size0 X) batch_size ;;
  predict_from s X batch_size starts [].

(** [x.squeeze().topk(k, dim=1)] on a dense block: [squeeze] drops every
    extent 1, and [topk] along dimension 1 needs two dimensions. *)
Definition topk_squeezed (k : Z) (blk : SparseTensor)
  : result (list (list (Q * Z))) :=
  if (size0 blk =? 1) || (size1 blk =? 1) then Err IndexError
  else topk_dim1 k (size1 blk) (to_dense blk).

(** [np.array(scores).mean()]: [nan] when a score is [nan] or there is
    no score. *)
Definition mean_scores (scores : list (option Q)) : option Q :=
  match sequence scores with
  | Some qs => mean qs
  | None => None
  end.

(** [score]; the running mean printed after each batch is not part of
    the result. *)
Fixpoint score_from (s : self) (X y : SparseTensor) (batch_size total : Z)
         (starts : list Z) (user_topk target_topk : list (list Z))
         (scores : list (option Q)) : result (option Q * list (list Z)) :=
  match starts with
  | [] => Ok (mean_scores scores, user_topk)
  | start :: rest =>
      let end_ := Z.min (start + batch_size) total in
      user_pred <- predict_topk s X start end_ (k s) ;;
      blk <- slice_rows y start end_ ;;
      target_pred <- topk_squeezed (k s) blk ;;
      (* filter out zeros *)
      let target_pred :=
        map (fun row => map snd (filter (fun vi => Qltb 0 (fst vi)) row))
            target_pred in
      let ap := mean_average_precision target_pred user_pred (Z.to_nat (k s)) in
      score_from s X y batch_size total rest
                 (user_topk ++ user_pred) (target_topk ++ target_pred)
                 (scores ++ [ap])
  end.

Definition score (s : self) (X y : SparseTensor) (batch_size total : Z)
  : result (option Q * list (list Z)) :=
  starts <- py_range total batch_size ;;
  score_from s X y batch_size total starts [] [] [].

End Methods.

End LinkPropMulti.

(** [x ** y] at an integral exponent [y], the power used by the closed
    examples below. *)
Definition pow_int (x y : Q) : Q := Qpower x (Qfloor y).

(** ** Auxiliary notions used by the statements *)

(** The values stored under one storage index, in storage order. *)
Definition keyvals (n k : Z) (l : list triplet) : list Q :=
  map t_val (filter (fun t => flat n t =? k) l).

(** What a segment reduction leaves of them. *)
Definition collapse (reduce : Q -> Q -> Q) (vs : list Q) : list Q :=
  match vs with
  | [] => []
  | x :: xs => [fold_left reduce xs x]
  end.

(** Entries in (weakly) increasing storage order. *)
Fixpoint weakly_from (n : Z) (prev : Z) (l : list triplet) : Prop :=
  match l with
  | [] => True
  | t :: l' => prev <= flat n t /\ weakly_from n (flat n t) l'
  end.

(** [(r, c)] is a stored coordinate of [m]. *)
Definition stored (m : SparseTensor) (r c : Z) : Prop :=
  In (r, c) (map fst (coo m)).

(** Same shape, same stored coordinates, numerically equal values. *)
Definition tensor_equiv (a b : SparseTensor) : Prop :=
  size0 a = size0 b /\ size1 a = size1 b /\
  Forall2 (fun x y : triplet => fst x = fst y /\ (snd x == snd y)%Q) (coo a) (coo b).

(** The tensor constructor has checked its entries from above. *)
Definition constructed (m : SparseTensor) : Prop :=
  forallb (below_sizes (size0 m) (size1 m)) (coo m) = true.

(** ** Closed examples *)

Definition m22 : SparseTensor := mkRaw 2 2 [(0, 0, 1%Q); (1, 1, 3%Q)].


(** The 4 x 3 matrix of the end-to-end scenario, with edges
    (0,0) (0,1) (1,2) (2,0) (2,1) (2,2). *)
Definition M43 : SparseTensor :=
  mkRaw 4 3 [(0, 0, 1%Q); (0, 1, 1%Q); (1, 2, 1%Q);
             (2, 0, 1%Q); (2, 1, 1%Q); (2, 2, 1%Q)].

(** The same matrix with the edge (2,2) held out. *)
Definition M43_observed : SparseTensor :=
  mkRaw 4 3 [(0, 0, 1%Q); (0, 1, 1%Q); (1, 2, 1%Q);
             (2, 0, 1%Q); (2, 1, 1%Q)].

(** A 2 x 1 matrix with one unit edge and one heavy edge. *)
Definition M21_weighted : SparseTensor :=
  mkRaw 2 1 [(0, 0, 1%Q); (1, 0, 1000%Q)].

(** A full 2 x 1 matrix. *)
Definition M21_full : SparseTensor :=
  mkRaw 2 1 [(0, 0, 1%Q); (1, 0, 1%Q)].

(** A predictor with all exponents 0, two rounds and rate [t = 1],
    fitted on [M43], and the same predictor after one augmentation
    round over two batches of two rows. *)
Definition fitted43 : LinkPropMulti.self :=
  Eval vm_compute in
    match LinkPropMulti.fit pow_int (LinkPropMulti.init 0 0 0 0 2 1 2) M43 with
    | Ok s => s
    | Err _ => LinkPropMulti.init 0 0 0 0 2 1 2
    end.

Definition augmented43 : LinkPropMulti.self :=
  Eval vm_compute in
    match LinkPropMulti.round pow_int M43 fitted43 M43 2 4 with
    | Ok s => s
    | Err _ => fitted43
    end.

(** The degree of row [r]: entry [r] of [m.sum(dim=1)]. *)
Definition row_degree (m : SparseTensor) (r : Z) : Q :=
  Qsum (map t_val (filter (fun t => t_row t =? r) (coo m))).

(** The entry written by [sparse_re_assign_on_mask_with] over a stored
    entry of a selected row or column: the old value plus [val - old],
    in the arithmetic given. *)
Definition reassigned_with (sub add : Q -> Q -> Q)
           (mask : list bool) (val : Q) (dim : axis) (t : triplet) : triplet :=
  if mask_at mask (match dim with Dim0 => t_row t | Dim1 => t_col t end)
  then (t_row t, t_col t, add (t_val t) (sub val (t_val t)))
  else t.

(** The same entry without rounding. *)
Definition reassigned (mask : list bool) (val : Q) (dim : axis) (t : triplet)
  : triplet :=
  if mask_at mask (match dim with Dim0 => t_row t | Dim1 => t_col t end)
  then (t_row t, t_col t, (t_val t + (val - t_val t))%Q)
  else t.

(** [user_deg > 1] *)
Definition deg_mask (target : SparseTensor) : list bool :=
  map (fun d => Qltb 1 d) (sum_dim1 target).

(** The nonzero candidates of [sample_user_items]: the entries of
    [sparse_nonzero(candidate)]. *)
Definition candidates (target : SparseTensor) : list triplet :=
  filter (fun t => negb (Qeq_bool (t_val t) 0))
         (map (reassigned (deg_mask target) 2 Dim0) (coo target)).

(** An entry after the three recoding assignments. *)
Definition recode_entry (t : triplet) : triplet :=
  (t_row t, t_col t, recode (t_val t)).


(** A 1 x 1 target holding one edge of weight 1/2. *)
Definition M11_half : SparseTensor := mkRaw 1 1 [(0, 0, (1 # 2)%Q)].

(** Samples for the closed examples: positions 0, 2, 4, ... draw 0 and
    the others draw 1. *)
Definition rnd_alternating (i : nat) : Q := if Nat.even i then 0%Q else 1%Q.

(** The average precision of one row of [rel_at_k]. *)
Definition average_precision_row (k : nat) (rel : list Z) : option Q :=
  mean (map (fun x => (fst x * inject_Z (snd x))%Q)
            (combine (map (fun cr => (inject_Z (fst cr) / inject_Z (snd cr))%Q)
                          (combine (cumsum rel)
                                   (map (fun i => Z.of_nat i + 1) (seq 0 k))))
                     rel)).



(** The selected positions of a mask, as naturals. *)
Fixpoint selected_nat (mask : list bool) : list nat :=
  match mask with
  | [] => []
  | b :: mask' => (if b then [O] else []) ++ map S (selected_nat mask')
  end.

(** An entry moved [d] rows down, as [sparse_cat] moves the entries of
    its second argument. *)
Definition shift_rows (d : Z) (t : triplet) : triplet :=
  (t_row t + d, t_col t, t_val t).


(** The degree of column [c]: entry [c] of [m.sum(dim=0)]. *)
Definition col_degree (m : SparseTensor) (c : Z) : Q :=
  Qsum (map t_val (filter (fun t => t_col t =? c) (coo m))).

(** The entry that [fit] stores for a nonzero entry [e] of [M]:
    [user[row] * item[col] * value]. *)
Definition reweighted (rows cols : list Q) (e : triplet) : triplet :=
  (t_row e, t_col e,
   (nth (Z.to_nat (t_row e)) rows 0 * nth (Z.to_nat (t_col e)) cols 0 * t_val e)%Q).

(** The hyperparameters of two predictor states agree. *)
Definition same_params (s s' : LinkPropMulti.self) : Prop :=
  LinkPropMulti.rounds s' = LinkPropMulti.rounds s /\
  LinkPropMulti.k s' = LinkPropMulti.k s /\
  LinkPropMulti.t s' = LinkPropMulti.t s /\
  LinkPropMulti.alpha s' = LinkPropMulti.alpha s /\
  LinkPropMulti.beta s' = LinkPropMulti.beta s /\
  LinkPropMulti.gamma s' = LinkPropMulti.gamma s /\
  LinkPropMulti.delta s' = LinkPropMulti.delta s.

(** A predictor state as [fit] on [M] leaves it: degrees cached, and
    two propagation matrices of the shape of [M], without duplicate
    coordinates, stored exactly at the nonzero entries of [M]. *)
Definition fitted_on (M : SparseTensor) (s : LinkPropMulti.self) : Prop :=
  exists ud id ab gd,
    LinkPropMulti.user_degrees s = Some ud /\
    LinkPropMulti.item_degrees s = Some id /\
    LinkPropMulti.M_alpha_beta s = Some ab /\
    LinkPropMulti.M_gamma_delta s = Some gd /\
    (size0 ab = size0 M /\ size1 ab = size1 M) /\
    (size0 gd = size0 M /\ size1 gd = size1 M) /\
    well_formed ab /\ well_formed gd /\
    map fst (coo ab) = map fst (sparse_nonzero M) /\
    map fst (coo gd) = map fst (sparse_nonzero M).

(** An element-wise operation on two dense blocks of one shape, such as
    [torch.add] or [torch.mul]: the [op] of [sparse_batch_op]. *)
Definition cellwise (f : Q -> Q -> Q) (a b : dense) : dense :=
  map (fun rows => map (fun xy => f (fst xy) (snd xy))
                       (combine (fst rows) (snd rows)))
      (combine a b).

(** [R] holds the first [rows] rows of the element-wise [f] of [m] and
    [n], without a stored zero. *)
Definition batch_result (f : Q -> Q -> Q) (m n R : SparseTensor) (rows : Z) : Prop :=
  size0 R = rows /\ size1 R = size1 m /\ well_formed R /\
  Forall (fun t => ~ (t_val t == 0)%Q) (coo R) /\
  forall r c, 0 <= r < rows -> 0 <= c < size1 m ->
              (cell R r c == f (cell m r c) (cell n r c))%Q.

(** The two-hop score of LinkProp for user [u] and item [j]: the sum,
    over users [i] and items [c], of
    [ab[u, c] * G[i, c] * gd[i, j]]. *)
Definition two_hop (ab G gd : SparseTensor) (u j : Z) : Q :=
  Qsum (map (fun i =>
               (Qsum (map (fun c => (cell ab u c * cell G i c)%Q)
                          (zrange 0 (size1 ab)))
                * cell gd i j)%Q)
            (zrange 0 (size0 G))).

(** A list of (value, position) pairs in descending order of value. *)
Fixpoint descending (l : list (Q * Z)) : Prop :=
  match l with
  | [] => True
  | x :: l' => Forall (fun y => (fst y <= fst x)%Q) l' /\ descending l'
  end.

(** The score of column [j] in row [r] of a batch starting at [start],
    after the observed links are masked and the result is clamped. *)
Definition masked_score (p M : SparseTensor) (start r j : Z) : Q :=
  LinkPropMulti.clamp_min0
    (cell p r j
     - (if Qeq_bool (cell M (start + r) j) 1 then 1 else 0)
       * LinkPropMulti.sentinel)%Q.

(** [x] is a finite float32 value. *)
Definition finite32 (x : Q) : Prop :=
  (round32 x == x)%Q /\ (- pow2 128 < x)%Q /\ (x < pow2 128)%Q.

(** Every stored value of [m] is a finite float32 value. *)
Definition float32_values (m : SparseTensor) : Prop :=
  Forall (fun t => finite32 (t_val t)) (coo m).

(** A 1 x 1 matrix holding 10^8, and one holding 1. *)
Definition M11_big : SparseTensor := mkRaw 1 1 [(0, 0, 100000000%Q)].
Definition M11_one : SparseTensor := mkRaw 1 1 [(0, 0, 1%Q)].

(** * Properties *)

(** ** The result monad *)

Lemma bind_Ok {A B : Type} (x : result A) (f : A -> result B) (b : B) :
  bind x f = Ok b -> exists a, x = Ok a /\ f a = Ok b.
Proof.
  destruct x as [a|e]; simpl; intros H; [eauto | discriminate].
Qed.

Ltac inv_bind H :=
  let a := fresh "a" in
  let Ha := fresh "E" in
  apply bind_Ok in H; destruct H as (a & Ha & H).

(** ** Storage order *)

Section Storage.

Variable n : Z.

Lemma flat_set_val (t : triplet) (v : Q) :
  flat n (t_row t, t_col t, v) = flat n t.
Proof. reflexivity. Qed.

Lemma keyvals_cons k t l :
  keyvals n k (t :: l)
  = if flat n t =? k then t_val t :: keyvals n k l else keyvals n k l.
Proof. unfold keyvals. simpl. now destruct (flat n t =? k). Qed.

Lemma keyvals_app k l1 l2 :
  keyvals n k (l1 ++ l2) = keyvals n k l1 ++ keyvals n k l2.
Proof.
  unfold keyvals. now rewrite filter_app, map_app.
Qed.

Lemma keyvals_insert_by k t l :
  keyvals n k (insert_by n t l) = keyvals n k (t :: l).
Proof.
  induction l as [|u l IH]; [reflexivity|].
  simpl insert_by. destruct (flat n t <=? flat n u) eqn:E; [reflexivity|].
  apply Z.leb_gt in E.
  unfold keyvals in *. simpl in *.
  destruct (flat n u =? k) eqn:Eu; destruct (flat n t =? k) eqn:Et;
    simpl; rewrite IH; rewrite ?Et; try reflexivity.
  apply Z.eqb_eq in Eu, Et. lia.
Qed.

Lemma keyvals_sort_by k l : keyvals n k (sort_by n l) = keyvals n k l.
Proof.
  induction l as [|t l IH]; [reflexivity|].
  simpl sort_by. rewrite keyvals_insert_by.
  unfold keyvals in *. simpl. destruct (flat n t =? k); simpl; now rewrite IH.
Qed.

Lemma weakly_from_le p q l : q <= p -> weakly_from n p l -> weakly_from n q l.
Proof.
  destruct l; simpl; [trivial|]. intros ? [? ?]. split; [lia|assumption].
Qed.

Lemma insert_by_weakly p t l :
  p <= flat n t -> weakly_from n p l -> weakly_from n p (insert_by n t l).
Proof.
  revert p. induction l as [|u l IH]; intros p Hp Hl; simpl.
  - auto.
  - destruct Hl as [Hu Hl].
    destruct (flat n t <=? flat n u) eqn:E.
    + apply Z.leb_le in E. simpl. auto.
    + apply Z.leb_gt in E. simpl. split; [assumption|].
      apply IH; [lia|assumption].
Qed.

Lemma In_insert_by t u l : In u (insert_by n t l) <-> u = t \/ In u l.
Proof.
  induction l as [|x l IH]; simpl.
  - intuition.
  - destruct (flat n t <=? flat n x); simpl; rewrite ?IH; intuition.
Qed.

Lemma In_sort_by u l : In u (sort_by n l) <-> In u l.
Proof.
  induction l as [|x l IH]; simpl; [tauto|].
  rewrite In_insert_by, IH. intuition.
Qed.

Lemma sort_by_weakly p l :
  Forall (fun t => p <= flat n t) l -> weakly_from n p (sort_by n l).
Proof.
  induction 1 as [|t l Ht Hl IH]; simpl; [trivial|].
  now apply insert_by_weakly.
Qed.

Lemma increasing_weakly p l : increasing_from n p l -> weakly_from n p l.
Proof.
  revert p. induction l as [|t l IH]; simpl; [trivial|].
  intros p [? ?]. split; [lia|auto].
Qed.

Lemma insert_by_head t l : weakly_from n (flat n t) l -> insert_by n t l = t :: l.
Proof.
  destruct l as [|u l]; simpl; [reflexivity|].
  intros [H _]. apply Z.leb_le in H. now rewrite H.
Qed.

(** Entries already in index order are left in place. *)
Lemma sort_by_sorted p l : weakly_from n p l -> sort_by n l = l.
Proof.
  revert p. induction l as [|t l IH]; simpl; [reflexivity|].
  intros p [_ Hl]. rewrite (IH _ Hl). now apply insert_by_head.
Qed.

Lemma keyvals_below k p l : weakly_from n p l -> k < p -> keyvals n k l = [].
Proof.
  revert p. induction l as [|t l IH]; simpl; [reflexivity|].
  intros p [Hp Hl] Hk. unfold keyvals in *. simpl.
  destruct (flat n t =? k) eqn:E; [apply Z.eqb_eq in E; lia|].
  apply (IH (flat n t)); [assumption|lia].
Qed.

Lemma keyvals_increasing_below k p l :
  increasing_from n p l -> k <= p -> keyvals n k l = [].
Proof.
  destruct l as [|t l]; [reflexivity|]. simpl. intros [Hp Hl] Hk.
  unfold keyvals. simpl.
  destruct (flat n t =? k) eqn:E; [apply Z.eqb_eq in E; lia|].
  apply (keyvals_below k (flat n t)); [now apply increasing_weakly|lia].
Qed.

(** ** Segment reduction *)

Variable reduce : Q -> Q -> Q.

Lemma group_from_keyvals k cur l :
  weakly_from n (flat n cur) l ->
  keyvals n k (group_from reduce n cur l)
  = collapse reduce (keyvals n k (cur :: l)).
Proof.
  revert cur. induction l as [|t l IH]; intros cur Hl.
  - unfold keyvals. simpl. destruct (flat n cur =? k); reflexivity.
  - destruct Hl as [Hc Hl]. simpl group_from.
    destruct (flat n cur <? flat n t) eqn:E.
    + apply Z.ltb_lt in E.
      change (keyvals n k (cur :: group_from reduce n t l))
        with (keyvals n k ([cur] ++ group_from reduce n t l)).
      rewrite keyvals_app, IH by assumption.
      unfold keyvals at 1. simpl filter.
      destruct (flat n cur =? k) eqn:Ek.
      * apply Z.eqb_eq in Ek.
        rewrite (keyvals_below k (flat n t) (t :: l)) by (simpl; auto with zarith; lia).
        unfold keyvals. simpl. rewrite (proj2 (Z.eqb_eq _ _) Ek).
        assert (Et : (flat n t =? k) = false) by (apply Z.eqb_neq; lia).
        rewrite Et. simpl.
        fold (keyvals n k l).
        rewrite (keyvals_below k (flat n t) l) by (assumption || lia).
        reflexivity.
      * simpl. unfold keyvals at 2. simpl filter. rewrite Ek. reflexivity.
    + apply Z.ltb_ge in E. assert (Eq : flat n t = flat n cur) by lia.
      rewrite IH by (rewrite flat_set_val, <- Eq; assumption).
      unfold keyvals. simpl filter. rewrite flat_set_val, Eq.
      destruct (flat n cur =? k); reflexivity.
Qed.

Lemma group_from_increasing p cur l :
  p < flat n cur -> weakly_from n (flat n cur) l ->
  increasing_from n p (group_from reduce n cur l).
Proof.
  revert p cur. induction l as [|t l IH]; intros p cur Hp Hl; simpl.
  - auto.
  - destruct Hl as [Hc Hl].
    destruct (flat n cur <? flat n t) eqn:E.
    + apply Z.ltb_lt in E. simpl. split; [assumption|]. now apply IH.
    + apply Z.ltb_ge in E. apply IH; rewrite flat_set_val.
      * exact Hp.
      * replace (flat n cur) with (flat n t) by lia. assumption.
Qed.

Lemma group_from_coords (P : Z * Z -> Prop) cur l :
  P (fst cur) -> Forall (fun t => P (fst t)) l ->
  Forall (fun t => P (fst t)) (group_from reduce n cur l).
Proof.
  revert cur. induction l as [|t l IH]; intros cur Hc Hl; simpl.
  - auto.
  - inversion Hl; subst.
    destruct (flat n cur <? flat n t).
    + constructor; auto.
    + apply IH; [|assumption]. destruct cur as [[r c] v]. exact Hc.
Qed.

(** A list in strictly increasing index order is its own coalescence. *)
Lemma group_from_id cur l :
  increasing_from n (flat n cur) l -> group_from reduce n cur l = cur :: l.
Proof.
  revert cur. induction l as [|t l IH]; intros cur Hl; simpl; [reflexivity|].
  destruct Hl as [Hc Hl]. apply Z.ltb_lt in Hc. rewrite Hc.
  now rewrite IH.
Qed.

Lemma segments_id p l :
  increasing_from n p l -> segments reduce n p l = l.
Proof.
  destruct l as [|t l]; simpl; [reflexivity|].
  intros [Hp Hl]. apply Z.ltb_lt in Hp. rewrite Hp. now apply group_from_id.
Qed.

End Storage.

(** ** Entries inside the declared shape *)

Section Shape.

Variables n0 n1 : Z.

Lemma in_shape_flat_nonneg t : in_shape n0 n1 t -> 0 <= flat n1 t.
Proof. unfold in_shape, flat. intros [? ?]. nia. Qed.

Lemma in_shape_below t : in_shape n0 n1 t -> below_sizes n0 n1 t = true.
Proof.
  unfold in_shape, below_sizes. intros [? ?].
  apply andb_true_intro; split; apply Z.ltb_lt; lia.
Qed.

(** Inside the shape the storage index identifies the cell. *)
Lemma flat_at_cell t r c :
  in_shape n0 n1 t -> 0 <= c < n1 ->
  (flat n1 t =? n1 * r + c) = at_cell r c t.
Proof.
  unfold in_shape, flat, at_cell. intros [Hr Hc] Hc'.
  destruct ((t_row t =? r) && (t_col t =? c)) eqn:E.
  - apply andb_prop in E. destruct E as [E1 E2].
    apply Z.eqb_eq in E1, E2. subst. apply Z.eqb_refl.
  - apply Z.eqb_neq. intros H.
    assert (t_row t = r) by nia.
    assert (t_col t = c) by nia.
    subst. rewrite !Z.eqb_refl in E. discriminate.
Qed.

Lemma cellvals_keyvals l r c :
  Forall (in_shape n0 n1) l -> 0 <= c < n1 ->
  map t_val (filter (at_cell r c) l) = keyvals n1 (n1 * r + c) l.
Proof.
  intros Hl Hc. unfold keyvals. f_equal.
  induction Hl as [|t l Ht Hl IH]; simpl; [reflexivity|].
  rewrite (flat_at_cell t r c Ht Hc), IH. reflexivity.
Qed.

Lemma SparseTensor_new_Ok entries :
  Forall (in_shape n0 n1) entries ->
  SparseTensor_new entries n0 n1 = Ok (mkRaw n0 n1 (sort_by n1 entries)).
Proof.
  intros H. unfold SparseTensor_new.
  replace (forallb (below_sizes n0 n1) entries) with true; [reflexivity|].
  symmetry. apply forallb_forall. intros t Ht.
  apply in_shape_below. now apply (proj1 (Forall_forall _ _) H).
Qed.


Lemma sort_by_Forall (P : triplet -> Prop) l :
  Forall P l -> Forall P (sort_by n1 l).
Proof.
  rewrite !Forall_forall. intros H t Ht. apply H. now apply In_sort_by in Ht.
Qed.

Lemma group_from_in_shape reduce cur l :
  in_shape n0 n1 cur -> Forall (in_shape n0 n1) l ->
  Forall (in_shape n0 n1) (group_from reduce n1 cur l).
Proof.
  intros Hc Hl.
  apply (group_from_coords n1 reduce
           (fun rc => 0 <= fst rc < n0 /\ 0 <= snd rc < n1)); assumption.
Qed.

Lemma segments_in_shape reduce l :
  Forall (in_shape n0 n1) l ->
  segments reduce n1 (-1) l = match l with
                              | [] => []
                              | t :: l' => group_from reduce n1 t l'
                              end.
Proof.
  destruct l as [|t l]; [reflexivity|]. intros H. inversion H; subst.
  simpl. assert (E : 0 <= flat n1 t) by now apply in_shape_flat_nonneg.
  replace (-1 <? flat n1 t) with true; [reflexivity|].
  symmetry. apply Z.ltb_lt. lia.
Qed.

(** [SparseTensor(...).coalesce(reduce)] on entries inside the shape:
    the result is well formed and holds, under every index, the
    reduction of the values given for it. *)
Lemma coalesce_new_spec reduce entries :
  Forall (in_shape n0 n1) entries ->
  exists m0,
    SparseTensor_new entries n0 n1 = Ok m0 /\
    size0 (coalesce reduce m0) = n0 /\
    size1 (coalesce reduce m0) = n1 /\
    well_formed (coalesce reduce m0) /\
    forall k, keyvals n1 k (coo (coalesce reduce m0))
              = collapse reduce (keyvals n1 k entries).
Proof.
  intros H. eexists. split; [now apply SparseTensor_new_Ok|].
  simpl. split; [reflexivity|]. split; [reflexivity|].
  pose proof (sort_by_Forall _ _ H) as Hs.
  assert (Hw : weakly_from n1 0 (sort_by n1 entries)).
  { apply sort_by_weakly. revert H. apply Forall_impl.
    apply in_shape_flat_nonneg. }
  unfold well_formed, is_coalesced, coalesce. simpl.
  rewrite (segments_in_shape reduce _ Hs).
  destruct (sort_by n1 entries) as [|t l] eqn:E.
  - repeat split; simpl; auto.
    intros k. rewrite <- (keyvals_sort_by n1 k entries), E. reflexivity.
  - inversion Hs; subst. destruct Hw as [Ht Hw]. repeat split.
    + now apply group_from_in_shape.
    + apply group_from_increasing; [lia|assumption].
    + intros k. rewrite group_from_keyvals by assumption.
      now rewrite <- (keyvals_sort_by n1 k entries), E.
Qed.

Lemma keyvals_single p k l :
  increasing_from n1 p l ->
  keyvals n1 k l = [] \/ exists x, keyvals n1 k l = [x].
Proof.
  revert p. induction l as [|t l IH]; intros p; simpl; [auto|].
  intros [Hp Hl]. unfold keyvals. simpl.
  destruct (flat n1 t =? k) eqn:E.
  - apply Z.eqb_eq in E. right. exists (t_val t). simpl. f_equal.
    apply (keyvals_increasing_below n1 k (flat n1 t)); [assumption|lia].
  - apply (IH _ Hl).
Qed.

(** Two well-formed entry lists whose values are related under every
    index store the same coordinates, with related values. *)
Lemma increasing_rel (R : Q -> Q -> Prop) p q l1 l2 :
  increasing_from n1 p l1 -> increasing_from n1 q l2 ->
  Forall (in_shape n0 n1) l1 -> Forall (in_shape n0 n1) l2 ->
  (forall k, Forall2 R (keyvals n1 k l1) (keyvals n1 k l2)) ->
  Forall2 (fun a b => fst a = fst b /\ R (snd a) (snd b)) l1 l2.
Proof.
  revert p q l2. induction l1 as [|t1 l1 IH]; intros p q l2 H1 H2 S1 S2 Hk.
  - destruct l2 as [|t2 l2]; [constructor|].
    specialize (Hk (flat n1 t2)). rewrite keyvals_cons, Z.eqb_refl in Hk.
    inversion Hk.
  - destruct l2 as [|t2 l2].
    + specialize (Hk (flat n1 t1)). rewrite keyvals_cons, Z.eqb_refl in Hk.
      inversion Hk.
    + destruct H1 as [Hp1 H1], H2 as [Hp2 H2].
      inversion S1 as [|? ? St1 S1']; inversion S2 as [|? ? St2 S2']; subst.
      assert (Ef : flat n1 t1 = flat n1 t2).
      { destruct (Z.lt_total (flat n1 t1) (flat n1 t2)) as [Hlt|[Heq|Hgt]];
          [exfalso|exact Heq|exfalso].
        - specialize (Hk (flat n1 t1)). rewrite !keyvals_cons, Z.eqb_refl in Hk.
          replace (flat n1 t2 =? flat n1 t1) with false in Hk
            by (symmetry; apply Z.eqb_neq; lia).
          rewrite (keyvals_increasing_below n1 _ (flat n1 t2) l2) in Hk
            by (assumption || lia).
          inversion Hk.
        - specialize (Hk (flat n1 t2)). rewrite !keyvals_cons, Z.eqb_refl in Hk.
          replace (flat n1 t1 =? flat n1 t2) with false in Hk
            by (symmetry; apply Z.eqb_neq; lia).
          rewrite (keyvals_increasing_below n1 _ (flat n1 t1) l1) in Hk
            by (assumption || lia).
          inversion Hk. }
      constructor.
      * pose proof (Hk (flat n1 t1)) as E. rewrite !keyvals_cons in E.
        rewrite <- Ef, Z.eqb_refl in E.
        inversion E; subst. split; [|assumption].
        destruct t1 as [[r1 c1] v1], t2 as [[r2 c2] v2].
        unfold in_shape, flat, t_row, t_col, t_val in *. simpl in *.
        clear - St1 St2 Ef.
        assert (r1 = r2) by nia. assert (c1 = c2) by nia. congruence.
      * apply (IH (flat n1 t1) (flat n1 t2)); try assumption.
        intros k. specialize (Hk k). rewrite !keyvals_cons in Hk.
        rewrite <- Ef in Hk.
        destruct (flat n1 t1 =? k) eqn:Ek.
        -- apply Z.eqb_eq in Ek.
           rewrite (keyvals_increasing_below n1 k (flat n1 t1) l1) by (assumption || lia).
           rewrite (keyvals_increasing_below n1 k (flat n1 t2) l2) by (assumption || lia).
           constructor.
        -- exact Hk.
Qed.

Lemma Forall2_eq_list (A : Type) (l1 l2 : list A) : Forall2 eq l1 l2 -> l1 = l2.
Proof. induction 1; congruence. Qed.

Lemma Forall2_refl_eq (A : Type) (R : A -> A -> Prop) (l : list A) :
  (forall x, R x x) -> Forall2 R l l.
Proof. intros H. induction l; constructor; auto. Qed.

(** Two well-formed entry lists that agree under every index are equal. *)
Lemma increasing_ext p q l1 l2 :
  increasing_from n1 p l1 -> increasing_from n1 q l2 ->
  Forall (in_shape n0 n1) l1 -> Forall (in_shape n0 n1) l2 ->
  (forall k, keyvals n1 k l1 = keyvals n1 k l2) ->
  l1 = l2.
Proof.
  intros H1 H2 S1 S2 Hk. apply Forall2_eq_list.
  assert (H : Forall2 (fun a b : triplet => fst a = fst b /\ snd a = snd b) l1 l2).
  { apply (increasing_rel eq p q); try assumption.
    intros k. rewrite Hk. apply Forall2_refl_eq. reflexivity. }
  revert H. apply Forall2_impl. intros [a1 a2] [b1 b2] [? ?]. simpl in *. congruence.
Qed.

End Shape.

(** ** Reading a cell *)

Lemma last_cons_default (A : Type) (x a b : A) (l : list A) :
  last (x :: l) a = last (x :: l) b.
Proof.
  revert x. induction l as [|y l IH]; intros x; [reflexivity|].
  change (last (y :: l) a = last (y :: l) b). apply IH.
Qed.

Lemma fold_left_last_write (f : triplet -> bool) l a :
  fold_left (fun acc t => if f t then t_val t else acc) l a
  = last (map t_val (filter f l)) a.
Proof.
  revert a. induction l as [|t l IH]; intros a; simpl; [reflexivity|].
  rewrite IH. destruct (f t); [|reflexivity].
  change (map t_val (t :: filter f l)) with (t_val t :: map t_val (filter f l)).
  destruct (map t_val (filter f l)) as [|y l0]; [reflexivity|].
  change (last (t_val t :: y :: l0) a) with (last (y :: l0) a).
  apply last_cons_default.
Qed.

Lemma cell_of_last l r c :
  cell_of l r c = last (map t_val (filter (at_cell r c) l)) 0%Q.
Proof. apply fold_left_last_write. Qed.

Lemma cell_keyvals m r c :
  well_formed m -> 0 <= c < size1 m ->
  cell m r c = hd 0%Q (keyvals (size1 m) (size1 m * r + c) (coo m)).
Proof.
  intros [Hs Hc] Hcol. unfold cell. rewrite cell_of_last.
  rewrite (cellvals_keyvals (size0 m) (size1 m)) by assumption.
  destruct (keyvals_single (size1 m) (-1) (size1 m * r + c) (coo m) Hc) as [E|[x E]];
    rewrite E; reflexivity.
Qed.

(** ** [sparse_assign] *)

Lemma wrap_nonneg size i : 0 <= i -> wrap size i = i.
Proof.
  intros H. unfold wrap. destruct (i <? 0) eqn:E; [|reflexivity].
  apply Z.ltb_lt in E. lia.
Qed.

Lemma filter_all_true (A : Type) (f : A -> bool) l :
  (forall x, In x l -> f x = true) -> filter f l = l.
Proof.
  induction l as [|a l IH]; intros H; simpl; [reflexivity|].
  rewrite (H a) by (left; reflexivity). f_equal. apply IH.
  intros x Hx. apply H. now right.
Qed.

(** The scalar read by [m[i, j].to_dense().squeeze()] is cell [(i, j)]. *)
Lemma getitem2_cell m i j :
  0 <= i < size0 m -> 0 <= j ->
  exists p, getitem2 m i j = Ok p /\ squeeze11 p = cell m i j.
Proof.
  intros Hi Hj. unfold getitem2.
  rewrite !wrap_nonneg by lia.
  replace ((0 <=? i) && (i <? size0 m)) with true
    by (symmetry; apply andb_true_intro; split;
        [apply Z.leb_le | apply Z.ltb_lt]; lia).
  eexists. split; [reflexivity|].
  unfold squeeze11, cell. simpl. rewrite !cell_of_last. f_equal.
  rewrite filter_all_true.
  - rewrite map_map. reflexivity.
  - intros x Hx. apply in_map_iff in Hx. destruct Hx as (t & <- & _). reflexivity.
Qed.

Lemma collapse_single reduce p n k l :
  increasing_from n p l -> collapse reduce (keyvals n k l) = keyvals n k l.
Proof.
  intros H. destruct (keyvals_single n p k l H) as [E|[x E]]; rewrite E; reflexivity.
Qed.

Lemma increasing_NoDup n p l : increasing_from n p l -> NoDup (map fst l).
Proof.
  revert p. induction l as [|t l IH]; intros p Hc; simpl; [constructor|].
  destruct Hc as [Hp Hc]. constructor; [|now apply (IH (flat n t))].
  assert (Hk : keyvals n (flat n t) l = []).
  { apply (keyvals_increasing_below _ _ (flat n t)); [assumption|lia]. }
  intros Hin. apply in_map_iff in Hin. destruct Hin as (u & Eu & Hu).
  unfold keyvals in Hk.
  assert (In u (filter (fun x => flat n x =? flat n t) l)).
  { apply filter_In. split; [assumption|]. apply Z.eqb_eq.
    unfold flat, t_row, t_col. now rewrite Eu. }
  destruct (filter _ l); [contradiction|discriminate].
Qed.

Lemma well_formed_NoDup m : well_formed m -> NoDup (map fst (coo m)).
Proof. intros [_ Hc]. exact (increasing_NoDup _ _ _ Hc). Qed.

(** [round32] reads its argument as a number. *)
Lemma round32_Qeq x y : (x == y)%Q -> round32 x = round32 y.
Proof. intros H. unfold round32. now rewrite (Qred_complete x y H). Qed.

(** What [sparse_assign] stores: the value list under every index. *)
Lemma sparse_assign_keyvals m i j v :
  well_formed m -> 0 <= i < size0 m -> 0 <= j < size1 m ->
  exists m',
    sparse_assign m i j v = Ok m' /\
    size0 m' = size0 m /\ size1 m' = size1 m /\
    well_formed m' /\
    forall k,
      keyvals (size1 m) k (coo m')
      = if k =? size1 m * i + j
        then [match keyvals (size1 m) k (coo m) with
              | [] => fsub (round32 v) 0
              | x :: _ => fadd x (fsub (round32 v) x)
              end]
        else keyvals (size1 m) k (coo m).
Proof.
  intros Hwf Hi Hj. pose proof Hwf as [Hs Hc].
  unfold sparse_assign.
  replace ((i <? size0 m) && (j <? size1 m)) with true
    by (symmetry; apply andb_true_intro; split; apply Z.ltb_lt; lia).
  destruct (getitem2_cell m i j) as (p & -> & Hp); [lia|lia|].
  cbn [bind]. cbv zeta. rewrite Hp.
  set (d := fsub (round32 v) (cell m i j)).
  assert (Hin : Forall (in_shape (size0 m) (size1 m)) (coo m ++ [(i, j, d)])).
  { apply Forall_app. split; [assumption|]. constructor; [|constructor].
    unfold in_shape, t_row, t_col. cbn [fst snd]. clear - Hi Hj. lia. }
  destruct (coalesce_new_spec (size0 m) (size1 m) fadd _ Hin)
    as (m0 & -> & H0 & H1 & Hwf' & Hk).
  cbn [bind]. eexists. split; [reflexivity|].
  split; [assumption|]. split; [assumption|]. split; [assumption|].
  intros k. rewrite Hk, keyvals_app. rewrite (keyvals_cons _ k (i, j, d) []).
  change (flat (size1 m) (i, j, d)) with (size1 m * i + j).
  rewrite (Z.eqb_sym (size1 m * i + j) k).
  destruct (k =? size1 m * i + j) eqn:Ek.
  - apply Z.eqb_eq in Ek. subst k. unfold d.
    rewrite (cell_keyvals m i j Hwf Hj).
    destruct (keyvals_single (size1 m) (-1) (size1 m * i + j) (coo m) Hc)
      as [E|[x E]]; rewrite E; reflexivity.
  - change (keyvals (size1 m) k []) with (@nil Q). rewrite app_nil_r.
    apply (collapse_single fadd (-1)). exact Hc.
Qed.

Lemma stored_keyvals n0 n1 l r c :
  Forall (in_shape n0 n1) l -> 0 <= c < n1 ->
  (In (r, c) (map fst l) <-> keyvals n1 (n1 * r + c) l <> []).
Proof.
  intros Hl Hc. rewrite <- (cellvals_keyvals n0 n1 l r c Hl Hc). split.
  - intros Hin. apply in_map_iff in Hin. destruct Hin as (t0 & E & Ht).
    assert (In t0 (filter (at_cell r c) l)).
    { apply filter_In. split; [assumption|]. unfold at_cell, t_row, t_col.
      rewrite E. simpl. now rewrite !Z.eqb_refl. }
    destruct (filter (at_cell r c) l); [contradiction|discriminate].
  - intros Hne. destruct (filter (at_cell r c) l) as [|t0 f] eqn:E; [now elim Hne|].
    assert (Ht : In t0 (filter (at_cell r c) l)) by (rewrite E; now left).
    apply filter_In in Ht. destruct Ht as [Ht Hat].
    apply in_map_iff. exists t0. split; [|assumption].
    unfold at_cell in Hat. apply andb_prop in Hat. destruct Hat as [H1 H2].
    apply Z.eqb_eq in H1, H2. destruct t0 as [[r0 c0] v0].
    unfold t_row, t_col in *. simpl in *. congruence.
Qed.

(** ** Ranges and comparisons *)

Lemma zrange_of_nat n : zrange 0 (Z.of_nat n) = map Z.of_nat (seq 0 n).
Proof.
  unfold zrange. rewrite Z.sub_0_r, Nat2Z.id. apply map_ext. intros i. lia.
Qed.

Lemma filter_map_pre (A B : Type) (f : B -> bool) (g : A -> B) l :
  filter f (map g l) = map g (filter (fun x => f (g x)) l).
Proof.
  induction l as [|a l IH]; simpl; [reflexivity|].
  destruct (f (g a)); simpl; now rewrite IH.
Qed.

Lemma nth_map_zrange (A : Type) (g : Z -> A) n r d :
  0 <= r < n -> nth (Z.to_nat r) (map g (zrange 0 n)) d = g r.
Proof.
  intros H. unfold zrange. rewrite map_map, Z.sub_0_r.
  rewrite (nth_indep _ d (g (0 + Z.of_nat 0)))
    by (rewrite length_map, length_seq; lia).
  rewrite (map_nth (fun i => g (0 + Z.of_nat i))).
  rewrite seq_nth by lia. f_equal. lia.
Qed.

Lemma Qltb_lt a b : Qltb a b = true <-> (a < b)%Q.
Proof.
  unfold Qltb. rewrite negb_true_iff. split.
  - intros H. apply Qnot_le_lt. intros Hle.
    apply Qle_bool_iff in Hle. congruence.
  - intros H. apply not_true_is_false. intros Hle.
    apply Qle_bool_iff in Hle. apply (Qlt_not_le _ _ H Hle).
Qed.

Lemma length_zrange a b : length (zrange a b) = Z.to_nat (b - a).
Proof. unfold zrange. now rewrite length_map, length_seq. Qed.

Lemma In_zrange a b i : In i (zrange a b) <-> a <= i < b.
Proof.
  unfold zrange. rewrite in_map_iff. split.
  - intros (j & <- & Hj). apply in_seq in Hj. lia.
  - intros H. exists (Z.to_nat (i - a)). split; [lia|]. apply in_seq. lia.
Qed.

(** ** Claims on [sparse_assign] *)

Ltac closed_well_formed :=
  split;
  [ cbn; repeat (apply Forall_cons; [unfold in_shape; cbn; lia|]); apply Forall_nil
  | unfold is_coalesced, flat; cbn; lia ].

Lemma m22_well_formed : well_formed m22.
Proof. closed_well_formed. Qed.

Lemma round32_zero : round32 0 = 0%Q.
Proof. reflexivity. Qed.

(** A cell without an entry receives the float32 value itself. *)
Lemma assign_fresh v : (round32 v == v)%Q -> (fsub (round32 v) 0 == v)%Q.
Proof.
  intros Hv. unfold fsub.
  rewrite (round32_Qeq (round32 v - 0) v) by (rewrite Hv; ring).
  exact Hv.
Qed.

(** When the difference is a float32 value, adding it back gives [v]. *)
Lemma assign_exact v x :
  (round32 v == v)%Q -> (round32 (v - x) == v - x)%Q ->
  (fadd x (fsub (round32 v) x) == v)%Q.
Proof.
  intros Hv Hd. unfold fadd, fsub.
  rewrite (round32_Qeq (round32 v - x) (v - x)) by (rewrite Hv; reflexivity).
  rewrite (round32_Qeq (x + round32 (v - x)) v) by (rewrite Hd; ring).
  exact Hv.
Qed.

(** Assigning the value that the cell already holds needs no rounding. *)
Lemma assign_same v x : (x == v)%Q -> (round32 (v - x) == v - x)%Q.
Proof.
  intros Hx. rewrite (round32_Qeq (v - x) 0) by (rewrite Hx; ring).
  rewrite round32_zero, Hx. ring.
Qed.

(** C7 (as amended).  On a matrix of float32 values without duplicate
    coordinates, [sparse_assign m i j v] at a cell inside the shape,
    with [v] and the difference [v - m[i, j]] float32 values (so that
    the difference and the sum are computed without rounding; at a cell
    without an entry the difference is [v] itself), returns a matrix
    that reads [v] at [(i, j)], keeps every other cell and has no
    duplicate coordinates; assigning [v] again there changes neither
    the stored coordinates nor (numerically) any value, leaves exactly
    one entry at [(i, j)] and still reads [v]. *)
Theorem sparse_assign_read_back (m : SparseTensor) (i j : Z) (v : Q) :
  well_formed m -> float32_values m ->
  0 <= i < size0 m -> 0 <= j < size1 m ->
  finite32 v -> finite32 (v - cell m i j) ->
  exists m1,
    sparse_assign m i j v = Ok m1 /\
    well_formed m1 /\
    (cell m1 i j == v)%Q /\
    (forall r c, 0 <= c < size1 m -> (r, c) <> (i, j) -> cell m1 r c = cell m r c) /\
    exists m2,
      sparse_assign m1 i j v = Ok m2 /\
      well_formed m2 /\
      tensor_equiv m2 m1 /\
      (cell m2 i j == v)%Q /\
      length (filter (at_cell i j) (coo m2)) = 1%nat.
Proof.
  intros Hwf _ Hi Hj [Hv _] [Hd _].
  destruct (sparse_assign_keyvals m i j v Hwf Hi Hj)
    as (m1 & E1 & S0 & S1 & Hwf1 & K1).
  assert (Hj1 : 0 <= j < size1 m1) by (rewrite S1; exact Hj).
  assert (Hi1 : 0 <= i < size0 m1) by (rewrite S0; exact Hi).
  rewrite (cell_keyvals m i j Hwf Hj) in Hd.
  assert (Hx : exists x, keyvals (size1 m1) (size1 m1 * i + j) (coo m1) = [x]
                         /\ (x == v)%Q).
  { rewrite S1, K1, Z.eqb_refl. eexists. split; [reflexivity|].
    destruct (keyvals (size1 m) (size1 m * i + j) (coo m)) as [|x l].
    - now apply assign_fresh.
    - apply assign_exact; [exact Hv|exact Hd]. }
  destruct Hx as (x & Ex & Hxv).
  assert (R1 : (cell m1 i j == v)%Q).
  { rewrite (cell_keyvals m1 i j Hwf1 Hj1), Ex. exact Hxv. }
  exists m1. split; [exact E1|]. split; [exact Hwf1|]. split; [exact R1|].
  split.
  { intros r c Hc Hne.
    rewrite (cell_keyvals m1 r c Hwf1) by (rewrite S1; exact Hc).
    rewrite (cell_keyvals m r c Hwf Hc), S1, K1.
    replace (size1 m * r + c =? size1 m * i + j) with false; [reflexivity|].
    symmetry. apply Z.eqb_neq. intros H. apply Hne.
    assert (r = i) by nia. assert (c = j) by nia. congruence. }
  destruct (sparse_assign_keyvals m1 i j v Hwf1 Hi1 Hj1)
    as (m2 & E2 & T0 & T1 & Hwf2 & K2).
  assert (Hj2 : 0 <= j < size1 m2) by (rewrite T1; exact Hj1).
  exists m2. split; [exact E2|]. split; [exact Hwf2|].
  assert (Hy : (fadd x (fsub (round32 v) x) == v)%Q).
  { apply assign_exact; [exact Hv|now apply assign_same]. }
  split; [|split].
  - split; [congruence|]. split; [congruence|].
    destruct Hwf1 as [Hs1 Hc1], Hwf2 as [Hs2 Hc2].
    rewrite T0, T1 in Hs2. unfold is_coalesced in Hc2. rewrite T1 in Hc2.
    apply (increasing_rel (size0 m1) (size1 m1) Qeq (-1) (-1)); try assumption.
    intros k. rewrite K2.
    destruct (k =? size1 m1 * i + j) eqn:Ek.
    + apply Z.eqb_eq in Ek. subst k. rewrite Ex.
      constructor; [|constructor]. rewrite Hy, Hxv. reflexivity.
    + apply Forall2_refl_eq. intros. reflexivity.
  - rewrite (cell_keyvals m2 i j Hwf2 Hj2), T1, K2, Z.eqb_refl, Ex.
    cbn [hd]. exact Hy.
  - destruct Hwf2 as [Hs2 _].
    assert (L : length (map t_val (filter (at_cell i j) (coo m2))) = 1%nat).
    { rewrite (cellvals_keyvals (size0 m2) (size1 m2)) by assumption.
      rewrite T1, K2, Z.eqb_refl. reflexivity. }
    now rewrite length_map in L.
Qed.

Lemma finite32_small (x : Q) :
  (round32 x == x)%Q -> (- pow2 128 < x)%Q -> (x < pow2 128)%Q -> finite32 x.
Proof. intros H1 H2 H3. split; [exact H1|]. split; assumption. Qed.

Lemma m22_float32_values : float32_values m22.
Proof.
  repeat (apply Forall_cons; [apply finite32_small; vm_compute; reflexivity|]).
  apply Forall_nil.
Qed.

Lemma sparse_assign_read_back_witness :
  exists m1,
    sparse_assign m22 1 1 (5 # 1) = Ok m1 /\
    well_formed m1 /\
    (cell m1 1 1 == 5 # 1)%Q /\
    (forall r c, 0 <= c < size1 m22 -> (r, c) <> (1, 1) -> cell m1 r c = cell m22 r c) /\
    exists m2,
      sparse_assign m1 1 1 (5 # 1) = Ok m2 /\
      well_formed m2 /\
      tensor_equiv m2 m1 /\
      (cell m2 1 1 == 5 # 1)%Q /\
      length (filter (at_cell 1 1) (coo m2)) = 1%nat.
Proof.
  apply (sparse_assign_read_back m22 1 1 (5 # 1) m22_well_formed
           m22_float32_values).
  - simpl. lia.
  - simpl. lia.
  - apply finite32_small; vm_compute; reflexivity.
  - apply finite32_small; vm_compute; reflexivity.
Defined.

(** C7 as stated fails where the difference is rounded.  On the 1 x 1
    matrix holding 10^8, assigning 1 computes the difference
    [1 - 10^8], which float32 rounds to [-10^8]: the cell then reads 0,
    not 1, and a second assign of 1 changes it to 1.  On the 1 x 1
    matrix holding 1, assigning the float32 value nearest to 0.1 stores
    another value, and a second assign changes it again. *)
Lemma sparse_assign_rounds_difference :
  (well_formed M11_big /\ float32_values M11_big /\ finite32 1 /\
   exists m1 m2,
     sparse_assign M11_big 0 0 1 = Ok m1 /\
     (cell m1 0 0 == 0)%Q /\ ~ (cell m1 0 0 == 1)%Q /\
     sparse_assign m1 0 0 1 = Ok m2 /\
     (cell m2 0 0 == 1)%Q /\ ~ tensor_equiv m2 m1) /\
  (well_formed M11_one /\ float32_values M11_one /\ finite32 (round32 (1 # 10)) /\
   exists m1 m2,
     sparse_assign M11_one 0 0 (round32 (1 # 10)) = Ok m1 /\
     ~ (cell m1 0 0 == round32 (1 # 10))%Q /\
     sparse_assign m1 0 0 (round32 (1 # 10)) = Ok m2 /\
     (cell m2 0 0 == round32 (1 # 10))%Q /\ ~ tensor_equiv m2 m1).
Proof.
  split.
  - split; [closed_well_formed|].
    split; [repeat constructor; vm_compute; reflexivity|].
    split; [apply finite32_small; vm_compute; reflexivity|].
    eexists. eexists.
    split; [vm_compute; reflexivity|].
    split; [vm_compute; reflexivity|].
    split; [intros H; vm_compute in H; discriminate H|].
    split; [vm_compute; reflexivity|].
    split; [vm_compute; reflexivity|].
    intros (_ & _ & H). inversion H as [|a b la lb [_ Hv] _]; subst.
    vm_compute in Hv. discriminate Hv.
  - split; [closed_well_formed|].
    split; [repeat constructor; vm_compute; reflexivity|].
    split; [apply finite32_small; vm_compute; reflexivity|].
    eexists. eexists.
    split; [vm_compute; reflexivity|].
    split; [intros H; vm_compute in H; discriminate H|].
    split; [vm_compute; reflexivity|].
    split; [vm_compute; reflexivity|].
    intros (_ & _ & H). inversion H as [|a b la lb [_ Hv] _]; subst.
    vm_compute in Hv. discriminate Hv.
Qed.

(** C8 (as amended).  [sparse_assign] stops with an [AssertionError]
    whenever [i] is at or above the row count or [j] at or above the
    column count, and it returns a matrix whenever [(i, j)] lies inside
    the shape. *)
Theorem sparse_assign_bounds (m : SparseTensor) (i j : Z) (v : Q) :
  constructed m ->
  (size0 m <= i \/ size1 m <= j -> sparse_assign m i j v = Err AssertionError) /\
  (0 <= i < size0 m -> 0 <= j < size1 m ->
   exists m', sparse_assign m i j v = Ok m').
Proof.
  intros Hm. split.
  - intros H. unfold sparse_assign.
    replace ((i <? size0 m) && (j <? size1 m)) with false; [reflexivity|].
    symmetry. apply andb_false_iff.
    destruct H; [left|right]; apply Z.ltb_ge; assumption.
  - intros Hi Hj. unfold sparse_assign.
    replace ((i <? size0 m) && (j <? size1 m)) with true
      by (symmetry; apply andb_true_intro; split; apply Z.ltb_lt; lia).
    destruct (getitem2_cell m i j) as (p & -> & Hp); [lia|lia|].
    simpl bind. unfold SparseTensor_new.
    rewrite forallb_app. unfold constructed in Hm. rewrite Hm. simpl.
    unfold below_sizes at 1.
    change (t_row (i, j, fsub (round32 v) (squeeze11 p))) with i.
    change (t_col (i, j, fsub (round32 v) (squeeze11 p))) with j.
    replace ((i <? size0 m) && (j <? size1 m)) with true
      by (symmetry; apply andb_true_intro; split; apply Z.ltb_lt; lia).
    simpl. eexists. reflexivity.
Qed.

Lemma sparse_assign_bounds_witness :
  sparse_assign m22 2 0 (5 # 1) = Err AssertionError /\
  exists m', sparse_assign m22 0 1 (5 # 1) = Ok m'.
Proof.
  split.
  - apply (proj1 (sparse_assign_bounds m22 2 0 (5 # 1) eq_refl)). left. simpl. lia.
  - apply (proj2 (sparse_assign_bounds m22 0 1 (5 # 1) eq_refl)); simpl; lia.
Defined.

(** C8 as stated fails at row 2 of the 2 x 2 matrix [m22], which is
    outside the shape: the call stops, but with an [AssertionError],
    which is not an [IndexError]. *)
Lemma sparse_assign_outside_not_IndexError :
  ~ (0 <= 2 < size0 m22) /\
  sparse_assign m22 2 0 (5 # 1) = Err AssertionError /\
  ~ (exists e, sparse_assign m22 2 0 (5 # 1) = Err e /\ index_error_class e = true).
Proof.
  split; [simpl; lia|]. split; [reflexivity|].
  intros (e & H & He). vm_compute in H. inversion H; subst. discriminate.
Qed.

(** An index below 0 passes the guard: [m[-1, 0]] reads the last row,
    the entry appended at row -1 sorts before every other entry and is
    in no segment of [coalesce], so the matrix comes back unchanged. *)
Lemma sparse_assign_negative_row :
  ~ (0 <= -1 < size0 m22) /\ sparse_assign m22 (-1) 0 (5 # 1) = Ok m22.
Proof. split; [simpl; lia|reflexivity]. Qed.

(** ** [mean_average_precision] *)

Lemma combine_map_self (A B : Type) (h : A -> B) (l : list A) :
  combine (map h l) l = map (fun x => (h x, x)) l.
Proof. induction l; simpl; congruence. Qed.

Lemma combine_map_map (A B C : Type) (f : A -> B) (g : A -> C) (l : list A) :
  combine (map f l) (map g l) = map (fun x => (f x, g x)) l.
Proof. induction l; simpl; congruence. Qed.

Lemma mean_average_precision_rows y_true y_pred k :
  mean_average_precision y_true y_pred k
  = match sequence
            (map (average_precision_row k)
                 (map (fun tp => rel_row k (intersect1d_indices2 (fst tp) (firstn k (snd tp))))
                      (combine y_true y_pred)
                  ++ repeat (repeat 0 k)
                       (length y_true
                        - length (map (fun tp => rel_row k (intersect1d_indices2 (fst tp) (firstn k (snd tp))))
                                      (combine y_true y_pred))))) with
    | Some aps => mean aps
    | None => None
    end.
Proof.
  unfold mean_average_precision.
  set (rel_at_k := _ ++ _).
  rewrite (map_map cumsum _ rel_at_k). rewrite combine_map_self.
  rewrite !map_map. reflexivity.
Qed.

Lemma Qsum_const (c : Q) (l : list Q) :
  Forall (fun x => x == c)%Q l ->
  (Qsum l == c * inject_Z (Z.of_nat (length l)))%Q.
Proof.
  induction 1 as [|x l Hx Hl IH].
  - simpl. ring.
  - cbn [Qsum fold_right length]. fold (Qsum l). rewrite IH, Hx.
    rewrite Nat2Z.inj_succ. unfold Z.succ. rewrite inject_Z_plus. ring.
Qed.

Lemma mean_const (c : Q) (l : list Q) :
  l <> [] -> Forall (fun x => x == c)%Q l ->
  exists q, mean l = Some q /\ (q == c)%Q.
Proof.
  intros Hne Hl. destruct l as [|x l]; [congruence|].
  eexists. split; [reflexivity|].
  rewrite (Qsum_const c _ Hl).
  set (n := inject_Z (Z.of_nat (length (x :: l)))).
  assert (Hn : ~ (n == 0)%Q).
  { unfold n. simpl length. rewrite Nat2Z.inj_succ.
    unfold Qeq. simpl. lia. }
  field. exact Hn.
Qed.

Lemma sequence_map_Some (A : Type) (f : A -> option Q) (P : Q -> Prop) l :
  (forall x, In x l -> exists q, f x = Some q /\ P q) ->
  exists qs, sequence (map f l) = Some qs /\ Forall P qs /\ length qs = length l.
Proof.
  induction l as [|a l IH]; intros H.
  - exists []. repeat split; constructor.
  - destruct (H a (or_introl eq_refl)) as (q & Eq & Pq).
    destruct IH as (qs & Es & Ps & Ls); [intros x Hx; apply H; now right|].
    exists (q :: qs). simpl. rewrite Eq, Es. repeat split; [now constructor|].
    simpl. congruence.
Qed.

Lemma cumsum_from_ones a k :
  cumsum_from a (repeat 1 k) = map (fun i => a + Z.of_nat i + 1) (seq 0 k).
Proof.
  revert a. induction k as [|k IH]; intros a; [reflexivity|].
  cbn [repeat cumsum_from seq map]. f_equal; [simpl; lia|].
  rewrite IH, <- seq_shift, map_map. apply map_ext. intros i. lia.
Qed.

Lemma cumsum_from_zeros a k : cumsum_from a (repeat 0 k) = repeat a k.
Proof.
  revert a. induction k as [|k IH]; intros a; [reflexivity|].
  cbn [repeat cumsum_from]. rewrite Z.add_0_r. f_equal. apply IH.
Qed.

Lemma Forall_map_combine3 (P : Q -> Prop) (f : Z -> Z -> Z -> Q) l1 l2 l3 :
  (forall a b c, In (a, b) (combine l1 l2) -> In c l3 -> P (f a b c)) ->
  Forall P (map (fun x => f (fst (fst x)) (snd (fst x)) (snd x))
                (combine (combine l1 l2) l3)).
Proof.
  intros H. apply Forall_forall. intros y Hy.
  apply in_map_iff in Hy. destruct Hy as ([[a b] c] & <- & Hin).
  simpl. apply H.
  - now apply in_combine_l in Hin.
  - now apply in_combine_r in Hin.
Qed.

Lemma average_precision_row_shape k rel :
  average_precision_row k rel
  = mean (map (fun x => (inject_Z (fst (fst x)) / inject_Z (snd (fst x))
                         * inject_Z (snd x))%Q)
              (combine (combine (cumsum rel)
                                (map (fun i => Z.of_nat i + 1) (seq 0 k)))
                       rel)).
Proof.
  unfold average_precision_row. f_equal.
  generalize (combine (cumsum rel) (map (fun i => Z.of_nat i + 1) (seq 0 k))).
  intros l. revert rel. induction l as [|x l IH]; intros [|r rel]; simpl; try reflexivity.
  f_equal. apply IH.
Qed.

Lemma length_cumsum_from a l : length (cumsum_from a l) = length l.
Proof. revert a. induction l; intros; simpl; auto. Qed.

Lemma average_precision_ones k :
  (0 < k)%nat ->
  exists q, average_precision_row k (repeat 1 k) = Some q /\ (q == 1)%Q.
Proof.
  intros Hk. rewrite average_precision_row_shape.
  apply mean_const.
  - destruct k; [lia|]. discriminate.
  - apply (Forall_map_combine3 (fun x => x == 1)%Q
             (fun a b c => (inject_Z a / inject_Z b * inject_Z c)%Q)).
    intros a b c Hab Hc. apply repeat_spec in Hc. subst c.
    unfold cumsum in Hab. rewrite cumsum_from_ones in Hab.
    rewrite combine_map_map in Hab.
    apply in_map_iff in Hab. destruct Hab as (i & E & _).
    injection E as <- <-.
    replace (0 + Z.of_nat i + 1) with (Z.of_nat i + 1) by lia.
    assert (Hn : ~ (inject_Z (Z.of_nat i + 1) == 0)%Q)
      by (unfold Qeq; simpl; lia).
    field. exact Hn.
Qed.

Lemma average_precision_zeros k :
  (0 < k)%nat ->
  exists q, average_precision_row k (repeat 0 k) = Some q /\ (q == 0)%Q.
Proof.
  intros Hk. rewrite average_precision_row_shape.
  apply mean_const.
  - destruct k; [lia|]. discriminate.
  - apply (Forall_map_combine3 (fun x => x == 0)%Q
             (fun a b c => (inject_Z a / inject_Z b * inject_Z c)%Q)).
    intros a b c _ Hc. apply repeat_spec in Hc. subst c.
    change (inject_Z 0) with 0%Q. ring.
Qed.

Lemma rel_row_all k idxs :
  (forall j, (j < k)%nat -> In j idxs) -> rel_row k idxs = repeat 1 k.
Proof.
  intros H. unfold rel_row.
  rewrite (map_ext_in _ (fun _ => 1)).
  - clear. generalize 0%nat. induction k; intros; simpl; [reflexivity|].
    f_equal. apply IHk.
  - intros j Hj. apply in_seq in Hj.
    replace (existsb (Nat.eqb j) idxs) with true; [reflexivity|].
    symmetry. apply existsb_exists. exists j. split; [apply H; lia|].
    apply Nat.eqb_refl.
Qed.

Lemma rel_row_none k : rel_row k [] = repeat 0 k.
Proof.
  unfold rel_row. simpl. generalize 0%nat.
  induction k; intros; simpl; [reflexivity|]. f_equal. apply IHk.
Qed.

Lemma intersect1d_all truth pred j :
  (j < length pred)%nat -> incl pred truth ->
  In j (intersect1d_indices2 truth pred).
Proof.
  intros Hj Hincl. unfold intersect1d_indices2.
  apply filter_In. split; [apply in_seq; lia|].
  apply existsb_exists. exists (nth j pred 0). split.
  - apply Hincl. now apply nth_In.
  - apply Z.eqb_refl.
Qed.

Lemma intersect1d_disjoint truth pred :
  (forall x, In x pred -> ~ In x truth) ->
  intersect1d_indices2 truth pred = [].
Proof.
  intros H. unfold intersect1d_indices2.
  assert (G : forall l, Forall (fun j => (j < length pred)%nat) l ->
            filter (fun j => existsb (Z.eqb (nth j pred 0)) truth) l = []).
  { induction 1 as [|j l Hj Hl IH]; simpl; [reflexivity|].
    replace (existsb (Z.eqb (nth j pred 0)) truth) with false; [exact IH|].
    symmetry. apply not_true_is_false. intros E.
    apply existsb_exists in E. destruct E as (x & Hx & E).
    apply Z.eqb_eq in E. subst x.
    apply (H (nth j pred 0)); [now apply nth_In|assumption]. }
  apply G. apply Forall_forall. intros j Hj. apply in_seq in Hj. lia.
Qed.

Lemma In_firstn (A : Type) (x : A) k l : In x (firstn k l) -> In x l.
Proof.
  revert l. induction k as [|k IH]; intros [|a l]; simpl; try tauto.
  intros [H|H]; [now left|right; now apply IH].
Qed.

(** C6 (as amended).  With at least one row and [k >= 1]:
    [mean_average_precision] is 1 when there is a prediction for every
    row and every row's first [k] predictions equal the first [k] true
    items and are [k] in number; it is 0 when no row has one of its
    first [k] predictions among its true items.  (Rows are lists without
    repeated ids, as [assume_unique=True] requires.) *)
Theorem mean_average_precision_extremes
        (y_true y_pred : list (list Z)) (k : nat) :
  (0 < k)%nat -> y_true <> [] ->
  (forall truth pred, In (truth, pred) (combine y_true y_pred) ->
                      NoDup truth /\ NoDup pred) ->
  ((length y_true <= length y_pred)%nat ->
   (forall truth pred, In (truth, pred) (combine y_true y_pred) ->
                       (k <= length pred)%nat /\ firstn k pred = firstn k truth) ->
   exists q, mean_average_precision y_true y_pred k = Some q /\ (q == 1)%Q) /\
  ((forall truth pred, In (truth, pred) (combine y_true y_pred) ->
                       forall x, In x (firstn k pred) -> ~ In x truth) ->
   exists q, mean_average_precision y_true y_pred k = Some q /\ (q == 0)%Q).
Proof.
  intros Hk Hne _. split.
  - intros Hlen Hrows. rewrite mean_average_precision_rows.
    rewrite length_map, length_combine, (Nat.min_l _ _ Hlen), Nat.sub_diag.
    simpl repeat. rewrite app_nil_r, map_map.
    destruct (sequence_map_Some _
                (fun tp => average_precision_row k
                   (rel_row k (intersect1d_indices2 (fst tp) (firstn k (snd tp)))))
                (fun q => q == 1)%Q (combine y_true y_pred))
      as (qs & -> & Hqs & Lqs).
    + intros [truth pred] Hin. destruct (Hrows truth pred Hin) as [Hl Hf].
      simpl. rewrite rel_row_all; [now apply average_precision_ones|].
      intros j Hj. apply intersect1d_all.
      * rewrite length_firstn. lia.
      * rewrite Hf. intros x Hx. eapply In_firstn. exact Hx.
    + apply mean_const; [|exact Hqs].
      intros ->. simpl in Lqs. rewrite length_combine, (Nat.min_l _ _ Hlen) in Lqs.
      destruct y_true; [congruence|discriminate].
  - intros Hrows. rewrite mean_average_precision_rows.
    set (rows := _ ++ _).
    assert (Hz : forall rel, In rel rows -> rel = repeat 0 k).
    { intros rel Hin. unfold rows in Hin. apply in_app_or in Hin.
      destruct Hin as [Hin|Hin].
      - apply in_map_iff in Hin. destruct Hin as ([truth pred] & <- & Hin).
        simpl. rewrite intersect1d_disjoint; [apply rel_row_none|].
        now apply Hrows.
      - now apply repeat_spec in Hin. }
    destruct (sequence_map_Some _ (average_precision_row k)
                (fun q => q == 0)%Q rows) as (qs & -> & Hqs & Lqs).
    + intros rel Hin. rewrite (Hz rel Hin). now apply average_precision_zeros.
    + apply mean_const; [|exact Hqs].
      intros ->. simpl in Lqs. unfold rows in Lqs.
      rewrite length_app, length_map, repeat_length, length_combine in Lqs.
      destruct y_true as [|a y]; [congruence|].
      change (length (a :: y)) with (S (length y)) in Lqs. simpl length in Lqs. lia.
Qed.

Lemma mean_average_precision_extremes_witness :
  (exists q, mean_average_precision [[5; 6]] [[5; 6; 7]] 2 = Some q /\ (q == 1)%Q) /\
  (exists q, mean_average_precision [[5; 6]; [3]] [[7; 8]] 2 = Some q /\ (q == 0)%Q).
Proof.
  split.
  - apply (mean_average_precision_extremes [[5; 6]] [[5; 6; 7]] 2).
    + lia.
    + discriminate.
    + intros truth pred [E|[]]. injection E as <- <-.
      split; repeat constructor; simpl; intuition lia.
    + simpl. lia.
    + intros truth pred [E|[]]. injection E as <- <-.
      split; [simpl; lia|reflexivity].
  - apply (mean_average_precision_extremes [[5; 6]; [3]] [[7; 8]] 2).
    + lia.
    + discriminate.
    + intros truth pred [E|[]]. injection E as <- <-.
      split; repeat constructor; simpl; intuition lia.
    + intros truth pred [E|[]]. injection E as <- <-.
      simpl. intuition lia.
Defined.

(** C6 as stated fails when a row has fewer than [k] items: the
    prediction [5] for the true item [5] scores 1/2 at [k = 2]. *)
Lemma mean_average_precision_short_row :
  firstn 2 [5] = firstn 2 [5] /\
  exists q, mean_average_precision [[5]] [[5]] 2 = Some q /\ ~ (q == 1)%Q.
Proof.
  split; [reflexivity|].
  exists (2 # 4)%Q. split; [reflexivity|]. unfold Qeq. simpl. lia.
Qed.

(** ** [LinkPropMulti] *)

Module LinkPropMultiFacts.

Import LinkPropMulti.

(** [fit] changes the degree cache and the two propagation matrices
    only. *)
Lemma fit_keeps_params pow s M s' :
  fit pow s M = Ok s' ->
  rounds s' = rounds s /\ k s' = k s /\ t s' = t s /\
  alpha s' = alpha s /\ beta s' = beta s /\
  gamma s' = gamma s /\ delta s' = delta s.
Proof.
  unfold fit. intros H.
  repeat (let a := fresh "a" in let E := fresh "E" in
          apply bind_Ok in H; destruct H as (a & E & H)).
  injection H as <-. clear.
  destruct s as [? ? ? ? ? ? ? [ud|] ? ? ? ?]; simpl; repeat split.
Qed.

(** C4.  With [rounds = 1], [fit_multi] is [fit]: the loop over
    [range(self.rounds - 1)] has no iteration, so the degree vectors and
    the two propagation matrices are those of the single [fit]. *)
Theorem fit_multi_single_round pow M_global s M batch_size total :
  rounds s = 1 ->
  Z.to_nat (rounds s - 1) = 0%nat /\
  fit_multi pow M_global s M batch_size total = fit pow s M.
Proof.
  intros Hr. split; [rewrite Hr; reflexivity|].
  unfold fit_multi. destruct (fit pow s M) as [s'|e] eqn:E; [|reflexivity].
  simpl. destruct (fit_keeps_params pow s M s' E) as [-> _].
  rewrite Hr. reflexivity.
Qed.


Lemma fit_multi_single_round_witness :
  Z.to_nat (rounds (init 0 0 0 0 1 (5 # 100) 2) - 1) = 0%nat /\
  fit_multi pow_int M43 (init 0 0 0 0 1 (5 # 100) 2) M43 2 4
  = fit pow_int (init 0 0 0 0 1 (5 # 100) 2) M43.
Proof.
  apply (fit_multi_single_round pow_int M43 (init 0 0 0 0 1 (5 # 100) 2) M43 2 4).
  reflexivity.
Defined.

(** *** Shapes along [predict_topk] *)

Lemma slice_rows_Ok m start stop x :
  slice_rows m start stop = Ok x ->
  size1 x = size1 m /\
  size0 x = Z.max (wrap (size0 m) stop - wrap (size0 m) start) 0.
Proof.
  unfold slice_rows. destruct (_ && _); [|discriminate].
  intros H. injection H as <-. split; reflexivity.
Qed.

Lemma slice_rows_in_range m start stop :
  0 <= start <= stop -> stop <= size0 m ->
  exists x, slice_rows m start stop = Ok x /\
            size0 x = stop - start /\ size1 x = size1 m.
Proof.
  intros H1 H2. unfold slice_rows. rewrite !wrap_nonneg by lia.
  replace ((0 <=? start) && (start + Z.max (stop - start) 0 <=? size0 m)) with true.
  - eexists. split; [reflexivity|]. simpl. split; [lia|reflexivity].
  - symmetry. apply andb_true_intro. split; apply Z.leb_le; lia.
Qed.

Lemma matmul_Ok a b x :
  matmul a b = Ok x -> size0 x = size0 a /\ size1 x = size1 b.
Proof.
  unfold matmul. destruct (size1 a =? size0 b); [|discriminate].
  intros H. injection H as <-. split; reflexivity.
Qed.

Lemma matmul_shapes a b :
  size1 a = size0 b ->
  exists x, matmul a b = Ok x /\ size0 x = size0 a /\ size1 x = size1 b.
Proof.
  intros H. unfold matmul. rewrite H, Z.eqb_refl.
  eexists. split; [reflexivity|]. split; reflexivity.
Qed.

Lemma get_preds_for_users_Ok G s start end_ p :
  get_preds_for_users G s start end_ = Ok p ->
  exists ab gd rows,
    M_alpha_beta s = Some ab /\ M_gamma_delta s = Some gd /\
    slice_rows ab start end_ = Ok rows /\
    size0 p = size0 rows /\ size1 p = size1 gd.
Proof.
  unfold get_preds_for_users. intros H.
  inv_bind H. inv_bind H. inv_bind H. inv_bind H.
  destruct (M_alpha_beta s) as [ab|]; [|discriminate].
  destruct (M_gamma_delta s) as [gd|]; [|discriminate].
  injection E as <-. injection E2 as <-.
  apply matmul_Ok in H. apply matmul_Ok in E1.
  exists ab, gd, a0. repeat split; try assumption; try reflexivity.
  - destruct H, E1. congruence.
  - tauto.
Qed.

Lemma broadcast_same a : broadcast a a = Ok a.
Proof. unfold broadcast. now rewrite Z.eqb_refl. Qed.

Lemma mapM_Ok (A B : Type) (f : A -> result B) (l : list A) :
  (forall x, In x l -> exists y, f x = Ok y) -> exists ys, mapM f l = Ok ys.
Proof.
  induction l as [|a l IH]; intros H; simpl.
  - eexists. reflexivity.
  - destruct (H a (or_introl eq_refl)) as (y & ->).
    destruct IH as (ys & ->); [intros x Hx; apply H; now right|].
    simpl. eexists. reflexivity.
Qed.

Lemma masked_scores_rows p obs nrows ncols row :
  In row (masked_scores p obs nrows ncols) ->
  length row = Z.to_nat ncols.
Proof.
  unfold masked_scores. intros H. apply in_map_iff in H.
  destruct H as (r & <- & _). rewrite length_map, length_zrange.
  f_equal. lia.
Qed.

(** [predict_topk] stops whenever [k] exceeds the column count. *)
Lemma predict_topk_k_too_large G s M start end_ k gd :
  M_gamma_delta s = Some gd -> size1 gd = size1 M ->
  size1 M < k ->
  exists e, predict_topk G s M start end_ k = Err e.
Proof.
  intros Hgd Hsz Hk. unfold predict_topk.
  destruct (get_preds_for_users G s start end_) as [p|e] eqn:Ep;
    [|eexists; reflexivity].
  apply get_preds_for_users_Ok in Ep.
  destruct Ep as (ab & gd' & rows & _ & Hgd' & _ & _ & Hp1).
  assert (gd' = gd) by congruence. subst gd'.
  simpl. destruct (slice_rows M start end_) as [obs|e] eqn:Eo;
    [|eexists; reflexivity].
  apply slice_rows_Ok in Eo. destruct Eo as [Ho1 _].
  simpl. destruct (broadcast (size0 p) (size0 obs)) as [nrows|e];
    [|eexists; reflexivity].
  simpl. replace (size1 obs) with (size1 p) by congruence.
  rewrite broadcast_same. simpl. unfold topk_dim1.
  replace ((0 <=? k) && (k <=? size1 p)) with false.
  - simpl. eexists. reflexivity.
  - symmetry. apply andb_false_iff. right. apply Z.leb_gt. lia.
Qed.

(** [predict_topk] returns whenever the model and the matrices have one
    shape, the row range lies inside it and [0 <= k <= size1 M]. *)
Lemma predict_topk_total G s M start end_ k ab gd :
  M_alpha_beta s = Some ab -> M_gamma_delta s = Some gd ->
  size0 ab = size0 M -> size1 ab = size1 M ->
  size0 gd = size0 M -> size1 gd = size1 M ->
  size0 G = size0 M -> size1 G = size1 M ->
  0 <= start <= end_ -> end_ <= size0 M ->
  0 <= k <= size1 M ->
  exists res, predict_topk G s M start end_ k = Ok res.
Proof.
  intros Hab Hgd A0 A1 G0 G1 M0 M1 Hse He Hk.
  unfold predict_topk, get_preds_for_users. rewrite Hab, Hgd. simpl.
  destruct (slice_rows_in_range ab start end_) as (rows & -> & R0 & R1); [lia|lia|].
  simpl.
  destruct (matmul_shapes rows (transpose G)) as (hop & -> & H0 & H1);
    [simpl; congruence|].
  simpl.
  destruct (matmul_shapes hop gd) as (p & -> & P0 & P1);
    [rewrite H1; simpl; congruence|].
  simpl.
  destruct (slice_rows_in_range M start end_) as (obs & -> & O0 & O1); [lia|lia|].
  simpl.
  replace (size0 obs) with (size0 p) by congruence. rewrite broadcast_same.
  simpl. replace (size1 obs) with (size1 p) by congruence. rewrite broadcast_same.
  simpl. unfold topk_dim1.
  replace ((0 <=? k) && (k <=? size1 p)) with true
    by (symmetry; apply andb_true_intro; split; apply Z.leb_le; lia).
  destruct (mapM_Ok _ _ (topk k) (masked_scores p obs (size0 p) (size1 p)))
    as (tk & ->).
  - intros row Hrow. apply masked_scores_rows in Hrow. unfold topk.
    replace ((0 <=? k) && (k <=? Z.of_nat (length row))) with true.
    + eexists. reflexivity.
    + symmetry. apply andb_true_intro. split; apply Z.leb_le; lia.
  - simpl. eexists. reflexivity.
Qed.

(** The end-to-end scenario: on the 4 x 3 matrix with all exponents 0
    and [k = 2], row 0 may only get column 2, and gets it. *)
Example predict_topk_scenario_4x3 :
  exists s,
    fit pow_int (init 0 0 0 0 1 (5 # 100) 2) M43 = Ok s /\
    predict_topk M43 s M43 0 4 2 = Ok [[2]; [0; 1]; []; []].
Proof.
  eexists. split; vm_compute; reflexivity.
Qed.

(** C1 at a failing input.  The model is fitted on [M21_weighted] with
    all exponents 0, so the score of cell (0,0) is
    1 * (1 * 1 + 1000 * 1000) = 1000001; the sentinel 100000 leaves
    900001 > 0, and column 0 is returned for row 0 although
    [M[0, 0] == 1]. *)
Theorem predict_topk_returns_observed_edge :
  exists s,
    fit pow_int (init 0 0 0 0 1 (5 # 100) 1) M21_weighted = Ok s /\
    (cell M21_weighted 0 0 == 1)%Q /\
    predict_topk M21_weighted s M21_weighted 0 1 1 = Ok [[0]].
Proof.
  eexists. split; [vm_compute; reflexivity|].
  split; [reflexivity|]. vm_compute. reflexivity.
Qed.

(** C2 at a failing input.  The model is fitted on [M43_observed] while
    the module-level matrix is [M43]: the scores of rows 0..3 are
    computed through the transpose of [M43], and differ from the scores
    through the transpose of the fitted matrix (row 1 gets 1, 1, 1
    instead of 0, 0, 1). *)
Theorem get_preds_for_users_reads_module_matrix :
  exists s p q,
    fit pow_int (init 0 0 0 0 1 (5 # 100) 2) M43_observed = Ok s /\
    get_preds_for_users M43 s 0 4 = Ok p /\
    get_preds_for_users M43_observed s 0 4 = Ok q /\
    nth 1 (to_dense p) [] = [1; 1; 1]%Q /\
    nth 1 (to_dense q) [] = [0; 0; 1]%Q /\
    predict_topk M43 s M43_observed 0 4 2 = Ok [[]; [0; 1]; []; []] /\
    predict_topk M43_observed s M43_observed 0 4 2 = Ok [[]; []; []; []].
Proof.
  do 3 eexists.
  split; [vm_compute; reflexivity|].
  split; [vm_compute; reflexivity|].
  split; [vm_compute; reflexivity|].
  repeat split; vm_compute; reflexivity.
Qed.

(** The scores never depend on the matrix handed to [predict_topk]: the
    bridge is always the module-level matrix. *)
Lemma get_preds_for_users_bridge G s start end_ :
  get_preds_for_users G s start end_ =
  (ab <- some_or TypeError (M_alpha_beta s) ;;
   rows <- slice_rows ab start end_ ;;
   hop <- matmul rows (transpose G) ;;
   gd <- some_or AttributeError (M_gamma_delta s) ;;
   matmul hop gd).
Proof. reflexivity. Qed.

(** C9.  [predict_topk] stops with an error whenever [k] exceeds the
    column count, and returns whenever model and matrices have one
    shape, the row range is inside it and [0 <= k <= size1 M]; the [k]
    that [fit_multi] derives is not capped: on the full 2 x 1 matrix
    with [t = 2] it is 2 > 1 and [fit_multi] stops with torch's
    [RuntimeError]. *)
Theorem predict_topk_needs_k_within_columns :
  (forall G s M start end_ k gd,
      M_gamma_delta s = Some gd -> size1 gd = size1 M ->
      size1 M < k ->
      exists e, predict_topk G s M start end_ k = Err e) /\
  (forall G s M start end_ k ab gd,
      M_alpha_beta s = Some ab -> M_gamma_delta s = Some gd ->
      size0 ab = size0 M -> size1 ab = size1 M ->
      size0 gd = size0 M -> size1 gd = size1 M ->
      size0 G = size0 M -> size1 G = size1 M ->
      0 <= start <= end_ -> end_ <= size0 M ->
      0 <= k <= size1 M ->
      exists res, predict_topk G s M start end_ k = Ok res) /\
  (exists blk,
      slice_rows M21_full 0 2 = Ok blk /\
      Qceiling (Qsum (map Qsum (to_dense blk)) * 2 / inject_Z (2 - 0)) = 2 /\
      size1 M21_full = 1 /\
      fit_multi pow_int M21_full (init 0 0 0 0 2 2 12) M21_full 2 2
      = Err RuntimeError).
Proof.
  split; [exact predict_topk_k_too_large|].
  split; [exact predict_topk_total|].
  eexists. split; [reflexivity|]. repeat split; vm_compute; reflexivity.
Qed.

Lemma predict_topk_needs_k_within_columns_witness :
  (exists e, predict_topk M43
               (mk 1 2 (5 # 100) 0 0 0 0 None None None (Some M43) (Some M43))
               M43 0 4 4 = Err e) /\
  (exists res, predict_topk M43
                 (mk 1 2 (5 # 100) 0 0 0 0 None None None (Some M43) (Some M43))
                 M43 0 4 2 = Ok res).
Proof.
  split.
  - apply (proj1 predict_topk_needs_k_within_columns M43 _ M43 0 4 4 M43);
      [reflexivity|reflexivity|simpl; lia].
  - apply (proj1 (proj2 predict_topk_needs_k_within_columns)
             M43 _ M43 0 4 2 M43 M43);
      try reflexivity; simpl; lia.
Defined.

(** *** What [topk] returns *)

Lemma In_insert_desc x y l : In y (insert_desc x l) <-> y = x \/ In y l.
Proof.
  induction l as [|z l IH]; simpl.
  - intuition.
  - destruct (Qle_bool (fst z) (fst x)); simpl; rewrite ?IH; intuition.
Qed.

Lemma In_sort_desc y l : In y (sort_desc l) <-> In y l.
Proof.
  induction l as [|x l IH]; simpl; [tauto|].
  rewrite In_insert_desc, IH. intuition.
Qed.

Lemma topk_In k row r v j :
  topk k row = Ok r -> In (v, j) r ->
  In (v, j) (enumerate row) /\ 0 <= j < Z.of_nat (length row).
Proof.
  unfold topk. destruct (_ && _); [|discriminate].
  intros H. injection H as <-. intros Hin.
  apply In_firstn in Hin. apply (proj1 (In_sort_desc _ _)) in Hin.
  split; [assumption|].
  unfold enumerate in Hin. apply in_combine_r in Hin.
  now apply In_zrange in Hin.
Qed.



(** *** Merging predicted links under [max] *)









(** *** The sweep over the batches *)








(** [fit_multi] is [fit] followed by [rounds - 1] such rounds, each on
    the matrix [M] it was called with. *)
Lemma fit_multi_rounds pow G s M batch_size total :
  fit_multi pow G s M batch_size total
  = (s1 <- fit pow s M ;;
     rounds_loop pow G (Z.to_nat (rounds s1 - 1)) s1 M batch_size total).
Proof. reflexivity. Qed.

Lemma rounds_loop_step pow G n s M batch_size total :
  rounds_loop pow G (S n) s M batch_size total
  = (s' <- round pow G s M batch_size total ;;
     rounds_loop pow G n s' M batch_size total).
Proof. reflexivity. Qed.

Lemma M43_well_formed : well_formed M43.
Proof. closed_well_formed. Qed.


(** *** What [predict_topk] returns, row by row *)

Lemma mapM_Forall2 (A B : Type) (f : A -> result B) l ys :
  mapM f l = Ok ys -> Forall2 (fun x y => f x = Ok y) l ys.
Proof.
  revert ys. induction l as [|a l IH]; intros ys H; simpl in H.
  - injection H as <-. constructor.
  - inv_bind H. inv_bind H. injection H as <-. constructor; auto.
Qed.

Lemma Forall2_map_left (A B C : Type) (R : A -> B -> Prop) (f : C -> A) l1 l2 :
  Forall2 R (map f l1) l2 -> Forall2 (fun x y => R (f x) y) l1 l2.
Proof.
  revert l2. induction l1 as [|x l1 IH]; intros l2 H; inversion H; subst;
    constructor; auto.
Qed.

Lemma Forall2_map_right (A B C : Type) (R : A -> B -> Prop) (g : C -> B) l1 l2 :
  Forall2 (fun x y => R x (g y)) l1 l2 -> Forall2 R l1 (map g l2).
Proof. induction 1; simpl; constructor; auto. Qed.

Lemma NoDup_firstn (A : Type) n (l : list A) : NoDup l -> NoDup (firstn n l).
Proof.
  revert l. induction n as [|n IH]; intros [|a l] H; simpl; try constructor.
  - inversion H; subst. intros Hin. apply In_firstn in Hin. contradiction.
  - inversion H; subst. now apply IH.
Qed.

Lemma NoDup_map_filter (A B : Type) (g : A -> B) (f : A -> bool) l :
  NoDup (map g l) -> NoDup (map g (filter f l)).
Proof.
  induction l as [|a l IH]; simpl; intros H; [constructor|].
  inversion H; subst. destruct (f a); simpl; [|now apply IH].
  constructor; [|now apply IH].
  intros Hin. apply in_map_iff in Hin. destruct Hin as (x & E & Hx).
  apply filter_In in Hx. destruct Hx as [Hx _].
  apply H2. rewrite <- E. now apply in_map.
Qed.

Lemma insert_desc_perm x l : Permutation (insert_desc x l) (x :: l).
Proof.
  induction l as [|y l IH]; simpl; [reflexivity|].
  destruct (Qle_bool (fst y) (fst x)); [reflexivity|].
  rewrite IH. apply perm_swap.
Qed.

Lemma sort_desc_perm l : Permutation (sort_desc l) l.
Proof.
  induction l as [|x l IH]; simpl; [reflexivity|].
  rewrite insert_desc_perm. now constructor.
Qed.

Lemma NoDup_zrange a b : NoDup (zrange a b).
Proof.
  unfold zrange. apply Finite.Injective_map_NoDup; [|apply seq_NoDup].
  intros i j H. lia.
Qed.

Lemma map_snd_combine_same (A B : Type) (l1 : list A) (l2 : list B) :
  length l1 = length l2 -> map snd (combine l1 l2) = l2.
Proof.
  revert l2. induction l1 as [|a l1 IH]; intros [|b l2] H; simpl in *;
    try discriminate; [reflexivity|].
  f_equal. apply IH. lia.
Qed.

Lemma map_snd_enumerate row :
  map snd (enumerate row) = zrange 0 (Z.of_nat (length row)).
Proof.
  unfold enumerate. apply map_snd_combine_same.
  rewrite length_zrange. lia.
Qed.

Lemma enumerate_nth row v j :
  In (v, j) (enumerate row) -> v = nth (Z.to_nat j) row 0%Q.
Proof.
  unfold enumerate. rewrite zrange_of_nat.
  assert (G : forall a, In (v, j) (combine row (map Z.of_nat (seq a (length row)))) ->
                        v = nth (Z.to_nat j - a) row 0%Q).
  { induction row as [|x row IH]; intros a H; simpl in H; [contradiction|].
    destruct H as [H|H].
    - injection H as <- <-. rewrite Nat2Z.id, Nat.sub_diag. reflexivity.
    - specialize (IH (S a) H). rewrite IH.
      apply in_combine_r in H. apply in_map_iff in H.
      destruct H as (i & <- & Hi). apply in_seq in Hi. rewrite Nat2Z.id.
      replace (i - a)%nat with (S (i - S a)) by lia. reflexivity. }
  intros H. rewrite (G 0%nat H). now rewrite Nat.sub_0_r.
Qed.

Lemma topk_spec k row r :
  topk k row = Ok r ->
  (length r <= Z.to_nat k)%nat /\ NoDup (map snd r) /\
  forall v j, In (v, j) r ->
              0 <= j < Z.of_nat (length row) /\ v = nth (Z.to_nat j) row 0%Q.
Proof.
  intros H. split; [|split].
  - unfold topk in H. destruct (_ && _); [|discriminate].
    injection H as <-. rewrite length_firstn. lia.
  - unfold topk in H. destruct (_ && _); [|discriminate].
    injection H as <-. rewrite <- firstn_map. apply NoDup_firstn.
    apply (Permutation_NoDup (l := map snd (enumerate row))).
    + apply Permutation_map. symmetry. apply sort_desc_perm.
    + rewrite map_snd_enumerate. apply NoDup_zrange.
  - intros v j Hin. destruct (topk_In _ _ _ _ _ H Hin) as [He Hj].
    split; [assumption|]. now apply enumerate_nth.
Qed.

(** The score of cell [(r, c)] of the batch after masking: the clamped
    difference computed by [predict_topk]. *)
Lemma masked_scores_nth p obs nrows ncols r c :
  0 <= r < nrows -> 0 <= c < ncols ->
  nth (Z.to_nat c) (nth (Z.to_nat r) (masked_scores p obs nrows ncols) []) 0%Q
  = clamp_min0
      (cell p (bidx (size0 p) r) (bidx (size1 p) c)
       - (if Qeq_bool (cell obs (bidx (size0 obs) r) (bidx (size1 obs) c)) 1
          then 1 else 0) * sentinel)%Q.
Proof.
  intros Hr Hc. unfold masked_scores.
  rewrite (nth_map_zrange _ _ nrows r [] Hr).
  now rewrite (nth_map_zrange _ _ ncols c 0%Q Hc).
Qed.

(** Every row returned by [predict_topk] has at most [k] ids, all
    different, each one a column whose masked score is positive. *)
Lemma predict_topk_rows G s M start end_ k res :
  predict_topk G s M start end_ k = Ok res ->
  exists p obs nrows ncols,
    get_preds_for_users G s start end_ = Ok p /\
    slice_rows M start end_ = Ok obs /\
    broadcast (size0 p) (size0 obs) = Ok nrows /\
    broadcast (size1 p) (size1 obs) = Ok ncols /\
    Forall2
      (fun r row =>
         (length row <= Z.to_nat k)%nat /\ NoDup row /\
         forall j, In j row ->
           0 <= j < ncols /\
           (0 < clamp_min0
                  (cell p (bidx (size0 p) r) (bidx (size1 p) j)
                   - (if Qeq_bool (cell obs (bidx (size0 obs) r) (bidx (size1 obs) j)) 1
                      then 1 else 0) * sentinel))%Q)
      (zrange 0 nrows) res.
Proof.
  unfold predict_topk. intros H.
  inv_bind H. inv_bind H. inv_bind H. inv_bind H. inv_bind H.
  injection H as <-.
  rename a into p, a0 into obs, a1 into nrows, a2 into ncols, a3 into tk.
  exists p, obs, nrows, ncols. repeat (split; [assumption|]).
  unfold topk_dim1 in E3. destruct (_ && _) in E3; [|discriminate].
  apply mapM_Forall2 in E3.
  assert (Hrows : forall r, In r (zrange 0 nrows) -> 0 <= r < nrows)
    by (intros r Hr; now apply In_zrange in Hr).
  unfold masked_scores in E3. revert Hrows E3.
  generalize (zrange 0 nrows). intros rs Hrows E3.
  apply Forall2_map_left in E3. apply Forall2_map_right.
  revert Hrows. induction E3 as [|r row rs tk' Hr Hrest IH]; intros Hrows;
    constructor.
  - destruct (topk_spec _ _ _ Hr) as (Hlen & Hnd & Hin).
    split; [|split].
    + rewrite length_map.
      etransitivity; [apply filter_length_le|exact Hlen].
    + now apply NoDup_map_filter.
    + intros j Hj. apply in_map_iff in Hj. destruct Hj as ([v j'] & Ej & Hj).
      simpl in Ej. subst j'. apply filter_In in Hj. destruct Hj as [Hj Hpos].
      destruct (Hin v j Hj) as [Hjr Hv].
      rewrite length_map, length_zrange in Hjr.
      assert (Hjc : 0 <= j < ncols) by lia.
      split; [exact Hjc|].
      simpl in Hpos. apply Qltb_lt in Hpos. rewrite Hv in Hpos.
      rewrite (nth_map_zrange _ _ ncols j 0%Q Hjc) in Hpos. exact Hpos.
  - apply IH. intros r' Hr'. apply Hrows. now right.
Qed.

Lemma bidx_in_range size i : 0 <= i < size -> bidx size i = i.
Proof.
  intros H. unfold bidx. destruct (size =? 1) eqn:E; [|reflexivity].
  apply Z.eqb_eq in E. lia.
Qed.

Lemma clamp_min0_pos x : (0 < clamp_min0 x)%Q -> (0 < x)%Q.
Proof.
  unfold clamp_min0. destruct (Qle_bool 0 x); [trivial|].
  intros H. discriminate H.
Qed.

(** With model and matrix of one shape: a returned column that is an
    observed edge of its row has a score above the sentinel, and every
    other returned column has a positive score. *)
Lemma predict_topk_observed_above_sentinel G s M start end_ k res p obs :
  predict_topk G s M start end_ k = Ok res ->
  get_preds_for_users G s start end_ = Ok p ->
  slice_rows M start end_ = Ok obs ->
  size0 p = size0 obs -> size1 p = size1 obs ->
  Forall2
    (fun r row =>
       (length row <= Z.to_nat k)%nat /\ NoDup row /\
       forall j, In j row ->
         0 <= j < size1 obs /\
         ((cell obs r j == 1)%Q -> (sentinel < cell p r j)%Q) /\
         (~ (cell obs r j == 1)%Q -> (0 < cell p r j)%Q))
    (zrange 0 (size0 obs)) res.
Proof.
  intros H Ep Eo S0 S1.
  destruct (predict_topk_rows _ _ _ _ _ _ _ H)
    as (p' & obs' & nrows & ncols & Ep' & Eo' & B0 & B1 & HF).
  assert (p' = p) by congruence. assert (obs' = obs) by congruence. subst p' obs'.
  rewrite S0, broadcast_same in B0. rewrite S1, broadcast_same in B1.
  injection B0 as <-. injection B1 as <-.
  assert (Hrows : forall r, In r (zrange 0 (size0 obs)) -> 0 <= r < size0 obs)
    by (intros r Hr; now apply In_zrange in Hr).
  clear H. revert Hrows HF. generalize (zrange 0 (size0 obs)). intros rs Hrows HF.
  revert Hrows.
  induction HF as [|r row rs res' (Hlen & Hnd & Hin) Hrest IH]; intros Hrows;
    constructor.
  - split; [assumption|]. split; [assumption|].
    intros j Hj. destruct (Hin j Hj) as [Hjc Hpos].
    assert (Hr : 0 <= r < size0 obs) by (apply Hrows; now left).
    rewrite !bidx_in_range in Hpos by (rewrite ?S0, ?S1; assumption).
    apply clamp_min0_pos in Hpos.
    split; [assumption|]. split.
    + intros Hobs. apply Qeq_bool_iff in Hobs. rewrite Hobs in Hpos.
      unfold sentinel in *. lra.
    + intros Hobs.
      assert (E : Qeq_bool (cell obs r j) 1 = false).
      { apply not_true_is_false. intros E. now apply Qeq_bool_iff in E. }
      rewrite E in Hpos. lra.
  - apply IH. intros r' Hr'. apply Hrows. now right.
Qed.

End LinkPropMultiFacts.

(** ** [sparse_re_assign_on_mask] *)

(** *** Boolean masks *)

Lemma filter_seq_shift (f : nat -> bool) a n :
  filter f (seq (S a) n) = map S (filter (fun i => f (S i)) (seq a n)).
Proof.
  revert a. induction n as [|n IH]; intros a; simpl; [reflexivity|].
  rewrite IH. destruct (f (S a)); reflexivity.
Qed.

Lemma selected_nat_filter mask :
  selected_nat mask = filter (fun i => nth i mask false) (seq 0 (length mask)).
Proof.
  induction mask as [|b mask IH]; [reflexivity|].
  simpl. rewrite filter_seq_shift. simpl. rewrite <- IH.
  destruct b; reflexivity.
Qed.

Lemma selected_of_nat mask : selected mask = map Z.of_nat (selected_nat mask).
Proof.
  rewrite selected_nat_filter. unfold selected.
  rewrite zrange_of_nat, filter_map_pre. f_equal.
  apply filter_ext. intros i. unfold mask_at. rewrite Nat2Z.id.
  replace (0 <=? Z.of_nat i) with true by (symmetry; apply Z.leb_le; lia).
  reflexivity.
Qed.

Lemma nth_rank_selected_nat mask r d :
  nth r mask false = true ->
  nth (length (filter (fun b : bool => b) (firstn r mask))) (selected_nat mask) d = r.
Proof.
  revert r d. induction mask as [|b mask IH]; intros r d H.
  - destruct r; discriminate.
  - destruct r as [|r].
    + simpl in H. subst b. reflexivity.
    + simpl in H. simpl firstn. simpl filter. simpl selected_nat.
      assert (E : forall c, nth c (map S (selected_nat mask)) d
                            = match nth_error (selected_nat mask) c with
                              | Some x => S x
                              | None => d
                              end).
      { intros c. generalize (selected_nat mask). clear. intros l. revert c.
        induction l as [|x l IHl]; intros [|c]; simpl; auto. }
      assert (F : nth_error (selected_nat mask)
                            (length (filter (fun b : bool => b) (firstn r mask)))
                  = Some r).
      { specialize (IH r (S r) H).
        destruct (nth_error (selected_nat mask) _) as [x|] eqn:En.
        - apply (nth_error_nth _ _ (S r)) in En. congruence.
        - apply nth_error_None in En.
          rewrite nth_overflow in IH by assumption. lia. }
      destruct b; simpl; rewrite E, F; reflexivity.
Qed.

(** [torch.arange(len(mask))[mask][rank]] gives the row back. *)
Lemma nth_rank_selected mask r :
  mask_at mask r = true ->
  nth (Z.to_nat (rank mask r)) (selected mask) 0 = r.
Proof.
  unfold mask_at, rank. intros H. apply andb_prop in H. destruct H as [H0 H].
  apply Z.leb_le in H0. rewrite Nat2Z.id, selected_of_nat.
  change 0 with (Z.of_nat 0). rewrite map_nth.
  rewrite (nth_rank_selected_nat mask (Z.to_nat r) 0%nat H). lia.
Qed.

(** *** Lists with the same coordinates *)

Lemma increasing_same_coords n p l1 l2 :
  map fst l1 = map fst l2 -> increasing_from n p l1 -> increasing_from n p l2.
Proof.
  revert p l2. induction l1 as [|t1 l1 IH]; intros p [|t2 l2] E H;
    try discriminate; simpl; [trivial|].
  simpl in E. injection E as E1 E2. destruct H as [Hp H].
  assert (Ef : flat n t2 = flat n t1).
  { unfold flat, t_row, t_col. now rewrite E1. }
  rewrite Ef. split; [assumption|]. now apply IH.
Qed.

Lemma in_shape_same_coords n0 n1 l1 l2 :
  map fst l1 = map fst l2 ->
  Forall (in_shape n0 n1) l1 -> Forall (in_shape n0 n1) l2.
Proof.
  revert l2. induction l1 as [|t1 l1 IH]; intros [|t2 l2] E H;
    try discriminate; [constructor|].
  simpl in E. injection E as E1 E2. inversion H; subst.
  constructor; [|now apply IH].
  unfold in_shape, t_row, t_col in *. now rewrite <- E1.
Qed.

Lemma increasing_filter n p (f : triplet -> bool) l :
  increasing_from n p l -> increasing_from n p (filter f l).
Proof.
  revert p. induction l as [|t l IH]; intros p; simpl; [trivial|].
  intros [Hp Hl]. destruct (f t); simpl.
  - split; [assumption|]. now apply IH.
  - apply IH. destruct l as [|u l]; simpl in *; [trivial|].
    destruct Hl as [Hu Hl]. split; [lia|assumption].
Qed.

Lemma Forall_filter (A : Type) (P : A -> Prop) (f : A -> bool) l :
  Forall P l -> Forall P (filter f l).
Proof.
  rewrite !Forall_forall. intros H x Hx. apply filter_In in Hx. now apply H.
Qed.

(** A well-formed entry list goes through the constructor and
    [coalesce] unchanged. *)
Lemma new_coalesce_id reduce n0 n1 l :
  Forall (in_shape n0 n1) l -> increasing_from n1 (-1) l ->
  exists m0, SparseTensor_new l n0 n1 = Ok m0 /\
             coalesce reduce m0 = mkRaw n0 n1 l.
Proof.
  intros Hs Hc. eexists. split; [now apply SparseTensor_new_Ok|].
  unfold coalesce. simpl.
  rewrite (sort_by_sorted n1 (-1)) by now apply increasing_weakly.
  now rewrite segments_id.
Qed.

Lemma filter_key_single n p k l :
  increasing_from n p l ->
  filter (fun t => flat n t =? k) l = []
  \/ exists t0, filter (fun t => flat n t =? k) l = [t0].
Proof.
  intros H. pose proof (keyvals_single n p k l H) as [E|[x E]]; unfold keyvals in E.
  - left. now apply map_eq_nil in E.
  - right. destruct (filter _ l) as [|t0 [|t1 f]]; try discriminate.
    now exists t0.
Qed.

Lemma filter_comm (A : Type) (f g : A -> bool) l :
  filter f (filter g l) = filter g (filter f l).
Proof.
  induction l as [|a l IH]; simpl; [reflexivity|].
  destruct (f a) eqn:Ef; destruct (g a) eqn:Eg; simpl;
    rewrite ?Ef, ?Eg, IH; reflexivity.
Qed.

Lemma filter_map_flat n k (g : triplet -> triplet) l :
  (forall t, flat n (g t) = flat n t) ->
  filter (fun t => flat n t =? k) (map g l)
  = map g (filter (fun t => flat n t =? k) l).
Proof.
  intros Hg. induction l as [|t l IH]; simpl; [reflexivity|].
  rewrite Hg. destruct (flat n t =? k); simpl; now rewrite IH.
Qed.

Lemma reassigned_with_coords sub add mask val dim t :
  fst (reassigned_with sub add mask val dim t) = fst t.
Proof.
  unfold reassigned_with. destruct (mask_at _ _); [|reflexivity].
  destruct t as [[r c] v]. reflexivity.
Qed.

Lemma reassigned_with_flat sub add n mask val dim t :
  flat n (reassigned_with sub add mask val dim t) = flat n t.
Proof.
  unfold flat, t_row, t_col. now rewrite reassigned_with_coords.
Qed.

Lemma reassigned_exact mask val dim t :
  reassigned mask val dim t = reassigned_with Qminus add mask val dim t.
Proof. reflexivity. Qed.

Lemma reassigned_coords mask val dim t : fst (reassigned mask val dim t) = fst t.
Proof. rewrite reassigned_exact. apply reassigned_with_coords. Qed.

Lemma reassigned_flat n mask val dim t :
  flat n (reassigned mask val dim t) = flat n t.
Proof.
  unfold flat, t_row, t_col. now rewrite reassigned_coords.
Qed.

(** [torch.arange(len(mask))[mask]] undoes the renumbering of
    [masked_select]. *)
Lemma restore_rows mask l :
  map (fun t => (nth (Z.to_nat (t_row t)) (selected mask) 0, t_col t, t_val t))
      (map (fun t => (rank mask (t_row t), t_col t, t_val t))
           (filter (fun t => mask_at mask (t_row t)) l))
  = filter (fun t => mask_at mask (t_row t)) l.
Proof.
  rewrite map_map.
  rewrite <- (map_id (filter _ l)) at 2.
  apply map_ext_in. intros t Ht. apply filter_In in Ht. destruct Ht as [_ Ep].
  destruct t as [[r c] v]. unfold t_row, t_col, t_val in *. cbn [fst snd] in *.
  now rewrite (nth_rank_selected mask r Ep).
Qed.

Lemma restore_cols mask l :
  map (fun t => (t_row t, nth (Z.to_nat (t_col t)) (selected mask) 0, t_val t))
      (map (fun t => (t_row t, rank mask (t_col t), t_val t))
           (filter (fun t => mask_at mask (t_col t)) l))
  = filter (fun t => mask_at mask (t_col t)) l.
Proof.
  rewrite map_map.
  rewrite <- (map_id (filter _ l)) at 2.
  apply map_ext_in. intros t Ht. apply filter_In in Ht. destruct Ht as [_ Ep].
  destruct t as [[r c] v]. unfold t_row, t_col, t_val in *. cbn [fst snd] in *.
  now rewrite (nth_rank_selected mask c Ep).
Qed.

(** On a matrix without duplicate coordinates, with a mask of the right
    length, every stored entry of a selected row (or column) is
    overwritten in place; nothing else changes. *)
Lemma sparse_re_assign_on_mask_with_entries sub add m mask val dim :
  well_formed m ->
  length mask = Z.to_nat (match dim with Dim0 => size0 m | Dim1 => size1 m end) ->
  sparse_re_assign_on_mask_with sub add m mask val dim
  = Ok (mkRaw (size0 m) (size1 m)
              (map (reassigned_with sub add mask val dim) (coo m))).
Proof.
  intros [Hs Hc] Hlen.
  set (P := fun t : triplet =>
              mask_at mask (match dim with Dim0 => t_row t | Dim1 => t_col t end)).
  set (delta := fun t : triplet => (t_row t, t_col t, sub val (t_val t))).
  assert (E : sparse_re_assign_on_mask_with sub add m mask val dim
              = (m' <- SparseTensor_new (coo m ++ map delta (filter P (coo m)))
                                        (size0 m) (size1 m) ;;
                 Ok (coalesce add m'))).
  { unfold sparse_re_assign_on_mask_with, masked_select0, masked_select1.
    destruct dim; rewrite Hlen, Nat.eqb_refl; cbn [bind]; cbv zeta; cbn [coo].
    - now rewrite restore_rows.
    - now rewrite restore_cols. }
  rewrite E. clear E.
  assert (Hin : Forall (in_shape (size0 m) (size1 m))
                       (coo m ++ map delta (filter P (coo m)))).
  { apply Forall_app. split; [assumption|].
    apply Forall_forall. intros x Hx. apply in_map_iff in Hx.
    destruct Hx as (t & <- & Ht). apply filter_In in Ht. destruct Ht as [Ht _].
    rewrite Forall_forall in Hs. exact (Hs t Ht). }
  destruct (coalesce_new_spec (size0 m) (size1 m) add _ Hin)
    as (m0 & -> & H0 & H1 & [Hs' Hc'] & Hk).
  cbn [bind]. f_equal.
  destruct (coalesce add m0) as [a0 a1 l'] eqn:El. simpl in *. subst a0 a1.
  f_equal.
  unfold is_coalesced in Hc, Hc'. simpl in Hc'.
  apply (increasing_ext (size0 m) (size1 m) (-1) (-1)); try assumption.
  - apply (increasing_same_coords _ _ (coo m)); [|assumption].
    rewrite map_map. apply map_ext. intros t. now rewrite reassigned_with_coords.
  - apply (in_shape_same_coords _ _ (coo m)); [|assumption].
    rewrite map_map. apply map_ext. intros t. now rewrite reassigned_with_coords.
  - intros k. rewrite Hk, keyvals_app. unfold keyvals.
    rewrite !filter_map_flat by (intros; apply reassigned_with_flat || reflexivity).
    rewrite (filter_comm _ _ P).
    destruct (filter_key_single (size1 m) (-1) k (coo m) Hc) as [->|[t0 ->]];
      [reflexivity|].
    simpl. unfold reassigned_with. fold (P t0).
    destruct (P t0); reflexivity.
Qed.

(** A mask of another length is refused by [masked_select]. *)
Lemma sparse_re_assign_on_mask_with_wrong_length sub add m mask val dim :
  length mask <> Z.to_nat (match dim with Dim0 => size0 m | Dim1 => size1 m end) ->
  sparse_re_assign_on_mask_with sub add m mask val dim = Err IndexError.
Proof.
  intros H. apply Nat.eqb_neq in H.
  unfold sparse_re_assign_on_mask_with, masked_select0, masked_select1.
  destruct dim; rewrite H; reflexivity.
Qed.

Lemma sparse_re_assign_on_mask_rows m mask val :
  well_formed m -> length mask = Z.to_nat (size0 m) ->
  sparse_re_assign_on_mask_exact m mask val Dim0
  = Ok (mkRaw (size0 m) (size1 m) (map (reassigned mask val Dim0) (coo m))).
Proof.
  intros Hwf Hlen. unfold sparse_re_assign_on_mask_exact.
  now rewrite (sparse_re_assign_on_mask_with_entries Qminus add m mask val Dim0).
Qed.

(** The mask [user_deg > 1] has one entry per row. *)
Lemma length_deg_mask target : length (deg_mask target) = Z.to_nat (size0 target).
Proof.
  unfold deg_mask, sum_dim1. rewrite !length_map, length_zrange. f_equal. lia.
Qed.

(** ** [sample_user_items] *)

Lemma deg_mask_at target r :
  0 <= r < size0 target ->
  mask_at (deg_mask target) r = Qltb 1 (row_degree target r).
Proof.
  intros H. unfold mask_at, deg_mask, sum_dim1.
  replace (0 <=? r) with true by (symmetry; apply Z.leb_le; lia).
  rewrite map_map. simpl. now rewrite nth_map_zrange.
Qed.

Lemma map_snd_combine_seq (A : Type) a (l : list A) :
  map snd (combine (seq a (length l)) l) = l.
Proof.
  revert a. induction l as [|x l IH]; intros a; simpl; [reflexivity|].
  now rewrite IH.
Qed.

Lemma map_fst_indexed (f : nat * triplet -> Q) l :
  map fst (map (fun it : nat * triplet => (t_row (snd it), t_col (snd it), f it))
               (combine (seq 0 (length l)) l))
  = map fst l.
Proof.
  rewrite map_map.
  rewrite <- (map_snd_combine_seq _ 0%nat l) at 3. rewrite map_map.
  apply map_ext. intros [i [[r c] v]]. reflexivity.
Qed.

Lemma map_fst_recode l : map fst (map recode_entry l) = map fst l.
Proof. rewrite map_map. apply map_ext. intros [[r c] v]. reflexivity. Qed.

Lemma candidates_well_formed target :
  well_formed target ->
  Forall (in_shape (size0 target) (size1 target)) (candidates target) /\
  increasing_from (size1 target) (-1) (candidates target).
Proof.
  intros [Hs Hc]. unfold candidates. split.
  - apply Forall_filter.
    apply (in_shape_same_coords _ _ (coo target)); [|assumption].
    rewrite map_map. apply map_ext. intros t. now rewrite reassigned_coords.
  - apply increasing_filter.
    apply (increasing_same_coords _ _ (coo target)); [|assumption].
    rewrite map_map. apply map_ext. intros t. now rewrite reassigned_coords.
Qed.

(** The two matrices returned for a target without duplicate
    coordinates, entry by entry. *)
Lemma sample_user_items_entries rnd target ratio :
  well_formed target ->
  exists threshold D,
    sample_user_items rnd target ratio
    = Ok (mkRaw (size0 target) (size1 target) D,
          mkRaw (size0 target) (size1 target) (map recode_entry D)) /\
    D = map (fun it : nat * triplet =>
               (t_row (snd it), t_col (snd it),
                holdout rnd threshold (fst it) (t_val (snd it))))
            (combine (seq 0 (length (candidates target))) (candidates target)) /\
    map fst D = map fst (candidates target) /\
    Forall (in_shape (size0 target) (size1 target)) D /\
    increasing_from (size1 target) (-1) D.
Proof.
  intros Hwf. destruct (candidates_well_formed target Hwf) as [Hs Hc].
  unfold sample_user_items.
  rewrite (sparse_re_assign_on_mask_rows target _ 2 Hwf)
    by apply length_deg_mask.
  cbn [bind].
  unfold sparse_nonzero. cbn [coo].
  fold (deg_mask target). fold (candidates target).
  set (threshold := (_ / _ * ratio)%Q).
  set (D := map _ (combine (seq 0 (length (candidates target))) (candidates target))).
  assert (Ef : map fst D = map fst (candidates target)) by apply map_fst_indexed.
  assert (HsD : Forall (in_shape (size0 target) (size1 target)) D)
    by (apply (in_shape_same_coords _ _ (candidates target)); [now symmetry|assumption]).
  assert (HcD : increasing_from (size1 target) (-1) D)
    by (apply (increasing_same_coords _ _ (candidates target)); [now symmetry|assumption]).
  exists threshold, D.
  destruct (new_coalesce_id add _ _ D HsD HcD) as (m0 & E1 & E2).
  rewrite E1. cbn [bind]. rewrite E2. cbn [coo].
  change (map (fun t : triplet => (t_row t, t_col t, recode (t_val t))) D)
    with (map recode_entry D).
  assert (HsT : Forall (in_shape (size0 target) (size1 target)) (map recode_entry D))
    by (apply (in_shape_same_coords _ _ D); [now rewrite map_fst_recode|assumption]).
  assert (HcT : increasing_from (size1 target) (-1) (map recode_entry D))
    by (apply (increasing_same_coords _ _ D); [now rewrite map_fst_recode|assumption]).
  destruct (new_coalesce_id add _ _ _ HsT HcT) as (m1 & E3 & E4).
  rewrite E3. cbn [bind]. rewrite E4.
  repeat split; assumption || reflexivity.
Qed.

Lemma holdout_two rnd threshold i x :
  (x == 2)%Q ->
  holdout rnd threshold i x = 0%Q \/ holdout rnd threshold i x = 1%Q.
Proof.
  intros H. unfold holdout.
  assert (E : Qeq_bool x 2 = true) by now apply Qeq_bool_iff.
  rewrite E. simpl. destruct (Qltb (rnd i) threshold).
  - left. reflexivity.
  - right. now rewrite E.
Qed.

Lemma holdout_other rnd threshold i x :
  ~ (x == 2)%Q -> holdout rnd threshold i x = x.
Proof.
  intros H. unfold holdout.
  assert (E : Qeq_bool x 2 = false).
  { apply not_true_is_false. intros E. now apply Qeq_bool_iff in E. }
  rewrite E. simpl. now rewrite E.
Qed.

Lemma recode_one x : (x == 1)%Q -> recode x = 0%Q.
Proof.
  intros H. unfold recode.
  assert (E : Qeq_bool x 1 = true) by now apply Qeq_bool_iff.
  rewrite E. reflexivity.
Qed.

Lemma keyvals_filter_val n k (f : Q -> bool) l :
  keyvals n k (filter (fun t => f (t_val t)) l) = filter f (keyvals n k l).
Proof.
  induction l as [|t l IH]; [reflexivity|].
  simpl filter. rewrite keyvals_cons.
  destruct (f (t_val t)) eqn:Ef.
  - rewrite keyvals_cons. destruct (flat n t =? k); simpl; rewrite ?Ef, IH; reflexivity.
  - destruct (flat n t =? k); simpl; rewrite ?Ef, IH; reflexivity.
Qed.

Lemma keyvals_map_val n k (g : triplet -> triplet) (h : Q -> Q) l :
  (forall t, In t l -> flat n t = k -> t_val (g t) = h (t_val t)) ->
  (forall t, flat n (g t) = flat n t) ->
  keyvals n k (map g l) = map h (keyvals n k l).
Proof.
  intros Hv Hf. unfold keyvals. rewrite filter_map_flat by assumption.
  rewrite !map_map. apply map_ext_in. intros t Ht.
  apply filter_In in Ht. destruct Ht as [Ht Hk]. apply Z.eqb_eq in Hk.
  now apply Hv.
Qed.

Lemma keyvals_indexed n k (f : nat -> Q -> Q) a l :
  Forall2 (fun v d => exists i, d = f i v)
          (keyvals n k l)
          (keyvals n k
             (map (fun it : nat * triplet =>
                     (t_row (snd it), t_col (snd it), f (fst it) (t_val (snd it))))
                  (combine (seq a (length l)) l))).
Proof.
  revert a. induction l as [|t l IH]; intros a; [constructor|].
  simpl length. simpl seq. simpl combine. simpl map.
  rewrite !keyvals_cons. rewrite flat_set_val.
  destruct (flat n t =? k).
  - constructor; [now exists a|apply IH].
  - apply IH.
Qed.

Lemma in_shape_row n0 n1 t r c :
  in_shape n0 n1 t -> 0 <= c < n1 -> flat n1 t = n1 * r + c -> t_row t = r.
Proof.
  unfold in_shape, flat. intros [Hr Hc] Hc' E. nia.
Qed.

(** The values stored under one in-shape coordinate of the target, of
    the observed matrix and of the held-out matrix. *)
Lemma sample_user_items_cells rnd target ratio r c :
  well_formed target ->
  0 <= r < size0 target -> 0 <= c < size1 target ->
  exists data tnl,
    sample_user_items rnd target ratio = Ok (data, tnl) /\
    size0 data = size0 target /\ size1 data = size1 target /\
    size0 tnl = size0 target /\ size1 tnl = size1 target /\
    well_formed data /\ well_formed tnl /\
    map fst (coo data) = map fst (coo tnl) /\
    let K := size1 target * r + c in
    match keyvals (size1 target) K (coo target) with
    | [] => keyvals (size1 target) K (coo data) = []
            /\ keyvals (size1 target) K (coo tnl) = []
    | v :: _ =>
        if Qltb 1 (row_degree target r)
        then (keyvals (size1 target) K (coo data) = [0%Q]
              /\ keyvals (size1 target) K (coo tnl) = [1%Q])
             \/ (keyvals (size1 target) K (coo data) = [1%Q]
                 /\ keyvals (size1 target) K (coo tnl) = [0%Q])
        else if Qeq_bool v 0
             then keyvals (size1 target) K (coo data) = []
                  /\ keyvals (size1 target) K (coo tnl) = []
             else exists d,
                 keyvals (size1 target) K (coo data) = [d]
                 /\ keyvals (size1 target) K (coo tnl) = [recode d]
                 /\ (~ (v == 2)%Q -> d = v)
    end.
Proof.
  intros Hwf Hr Hc.
  destruct (sample_user_items_entries rnd target ratio Hwf)
    as (threshold & D & E & ED & Ef & HsD & HcD).
  pose proof Hwf as [Hs Hcl].
  exists (mkRaw (size0 target) (size1 target) D),
         (mkRaw (size0 target) (size1 target) (map recode_entry D)).
  split; [exact E|]. cbn [size0 size1 coo].
  repeat (split; [reflexivity|]).
  split; [split; assumption|].
  split.
  { split; cbn [size0 size1 coo].
    - apply (in_shape_same_coords _ _ D); [now rewrite map_fst_recode|assumption].
    - unfold is_coalesced. cbn [size1 coo].
      apply (increasing_same_coords _ _ D); [now rewrite map_fst_recode|assumption]. }
  split; [now rewrite map_fst_recode|].
  set (K := size1 target * r + c).
  (* the held-out matrix is the recoded observed matrix *)
  assert (KT : keyvals (size1 target) K (map recode_entry D)
               = map recode (keyvals (size1 target) K D)).
  { apply keyvals_map_val; intros; reflexivity. }
  (* the observed matrix is the sampled candidate list *)
  pose proof (keyvals_indexed (size1 target) K (holdout rnd threshold) 0%nat
                (candidates target)) as KD.
  rewrite <- ED in KD.
  (* the candidates are the nonzero re-assigned entries *)
  assert (KC : keyvals (size1 target) K (candidates target)
               = filter (fun v => negb (Qeq_bool v 0))
                        (map (fun v => if Qltb 1 (row_degree target r)
                                       then (v + (2 - v))%Q else v)
                             (keyvals (size1 target) K (coo target)))).
  { unfold candidates.
    rewrite (keyvals_filter_val _ _ (fun v => negb (Qeq_bool v 0))).
    f_equal. apply keyvals_map_val; [|intros; apply reassigned_flat].
    intros t0 Ht Hk. rewrite Forall_forall in Hs.
    rewrite <- (deg_mask_at target r Hr).
    unfold reassigned.
    rewrite (in_shape_row _ _ t0 r c (Hs t0 Ht) Hc Hk).
    destruct (mask_at (deg_mask target) r); reflexivity. }
  rewrite KT.
  destruct (keyvals_single (size1 target) (-1) K (coo target) Hcl) as [E0|[v E0]];
    rewrite E0 in *; simpl in KC.
  - rewrite KC in KD. inversion KD. split; reflexivity.
  - destruct (Qltb 1 (row_degree target r)).
    + assert (Hx : ((v + (2 - v)) == 2)%Q) by ring.
      assert (Enz : Qeq_bool (v + (2 - v)) 0 = false).
      { apply not_true_is_false. intros En. apply Qeq_bool_iff in En.
        rewrite Hx in En. discriminate. }
      rewrite Enz in KC. simpl in KC. rewrite KC in KD.
      inversion KD as [|x d lx ld [i Hd] Hrest]; subst. inversion Hrest; subst.
      destruct (holdout_two rnd threshold i _ Hx) as [->| ->];
        [left|right]; split; reflexivity.
    + destruct (Qeq_bool v 0) eqn:Ev; simpl in KC; rewrite KC in KD.
      * inversion KD. split; reflexivity.
      * inversion KD as [|x d lx ld [i Hd] Hrest]; subst. inversion Hrest; subst.
        eexists. split; [reflexivity|]. split; [reflexivity|].
        apply holdout_other.
Qed.

Lemma cell_stored_single m r c x :
  well_formed m -> 0 <= c < size1 m ->
  keyvals (size1 m) (size1 m * r + c) (coo m) = [x] ->
  cell m r c = x /\ stored m r c.
Proof.
  intros Hwf Hc E. split.
  - rewrite (cell_keyvals m r c Hwf Hc), E. reflexivity.
  - destruct Hwf as [Hs _]. unfold stored.
    apply (stored_keyvals (size0 m) (size1 m) (coo m) r c Hs Hc).
    rewrite E. discriminate.
Qed.

Lemma cell_stored_none m r c :
  well_formed m -> 0 <= c < size1 m ->
  keyvals (size1 m) (size1 m * r + c) (coo m) = [] ->
  cell m r c = 0%Q /\ ~ stored m r c.
Proof.
  intros Hwf Hc E. split.
  - rewrite (cell_keyvals m r c Hwf Hc), E. reflexivity.
  - destruct Hwf as [Hs _]. unfold stored. intros H.
    apply (stored_keyvals (size0 m) (size1 m) (coo m) r c Hs Hc) in H.
    now apply H.
Qed.





(** C5 (as amended).  For a target without duplicate coordinates whose
    stored values are all 1, the two returned matrices have the shape of
    the target; on a row of degree > 1 no cell is positive in both, and
    a cell is positive in the target exactly when it is positive in one
    of them; on a row of degree <= 1 every cell of the observed matrix
    is the target's cell, with the same stored coordinates, and every
    cell of the held-out matrix is 0. *)
Theorem sample_user_items_partition
        (rnd : nat -> Q) (target : SparseTensor) (ratio : Q) :
  well_formed target ->
  Forall (fun t => (t_val t == 1)%Q) (coo target) ->
  exists data tnl,
    sample_user_items rnd target ratio = Ok (data, tnl) /\
    size0 data = size0 target /\ size1 data = size1 target /\
    size0 tnl = size0 target /\ size1 tnl = size1 target /\
    forall r c,
      0 <= r < size0 target -> 0 <= c < size1 target ->
      ((1 < row_degree target r)%Q ->
       ~ ((0 < cell data r c)%Q /\ (0 < cell tnl r c)%Q) /\
       ((0 < cell target r c)%Q <->
        (0 < cell data r c)%Q \/ (0 < cell tnl r c)%Q)) /\
      ((row_degree target r <= 1)%Q ->
       cell data r c = cell target r c /\
       (stored data r c <-> stored target r c) /\
       cell tnl r c = 0%Q).
Proof.
  intros Hwf Hbin.
  destruct (sample_user_items_entries rnd target ratio Hwf)
    as (threshold & D & E & _ & _ & HsD & HcD).
  eexists. eexists. split; [exact E|]. cbn [size0 size1].
  repeat (split; [reflexivity|]).
  intros r c Hr Hc.
  destruct (sample_user_items_cells rnd target ratio r c Hwf Hr Hc)
    as (data & tnl & E' & D0 & D1 & T0 & T1 & HwfD & HwfT & _ & Hcase).
  rewrite E in E'. injection E' as <- <-. cbv zeta in Hcase.
  assert (HcD' : 0 <= c < size1 (mkRaw (size0 target) (size1 target) D)) by exact Hc.
  assert (HcT' : 0 <= c < size1 (mkRaw (size0 target) (size1 target)
                                        (map recode_entry D))) by exact Hc.
  set (K := size1 target * r + c) in *.
  destruct (keyvals (size1 target) K (coo target)) as [|v vs] eqn:Ek.
  - destruct Hcase as [Hd Ht].
    destruct (cell_stored_none target r c Hwf Hc Ek) as [Cm Hn].
    destruct (cell_stored_none _ r c HwfD HcD' Hd) as [Cd Hnd].
    destruct (cell_stored_none _ r c HwfT HcT' Ht) as [Ct Hnt].
    rewrite Cm, Cd, Ct. split.
    + intros _. split.
      * intros [H _]. discriminate H.
      * split; [intros H; discriminate H|intros [H|H]; discriminate H].
    + intros _. split; [reflexivity|]. split; [tauto|reflexivity].
  - assert (Hv : (v == 1)%Q).
    { assert (Hin : In v (keyvals (size1 target) K (coo target)))
        by (rewrite Ek; now left).
      unfold keyvals in Hin. apply in_map_iff in Hin.
      destruct Hin as (t0 & <- & Ht0). apply filter_In in Ht0.
      rewrite Forall_forall in Hbin. now apply Hbin. }
    assert (Ek1 : keyvals (size1 target) K (coo target) = [v]).
    { destruct Hwf as [_ Hcl].
      destruct (keyvals_single (size1 target) (-1) K (coo target) Hcl)
        as [E0|[x E0]]; congruence. }
    destruct (cell_stored_single target r c v Hwf Hc Ek1) as [Cm Sm].
    split.
    + intros Hdeg. apply Qltb_lt in Hdeg. rewrite Hdeg in Hcase.
      destruct Hcase as [[Hd Ht]|[Hd Ht]];
        destruct (cell_stored_single _ r c _ HwfD HcD' Hd) as [Cd _];
        destruct (cell_stored_single _ r c _ HwfT HcT' Ht) as [Ct _];
        rewrite Cm, Cd, Ct, Hv.
      * split; [intros [H _]; discriminate H|].
        split; [intros _; right; reflexivity|intros _; reflexivity].
      * split; [intros [_ H]; discriminate H|].
        split; [intros _; left; reflexivity|intros _; reflexivity].
    + intros Hdeg.
      assert (Hq : Qltb 1 (row_degree target r) = false).
      { apply not_true_is_false. intros H. apply Qltb_lt in H.
        apply (Qlt_not_le _ _ H Hdeg). }
      rewrite Hq in Hcase.
      assert (Hz : Qeq_bool v 0 = false).
      { apply not_true_is_false. intros H. apply Qeq_bool_iff in H.
        rewrite Hv in H. discriminate H. }
      rewrite Hz in Hcase. destruct Hcase as (d & Hd & Ht & Hdv).
      assert (d = v).
      { apply Hdv. rewrite Hv. intros H. discriminate H. }
      subst d.
      destruct (cell_stored_single _ r c _ HwfD HcD' Hd) as [Cd Sd].
      destruct (cell_stored_single _ r c _ HwfT HcT' Ht) as [Ct _].
      rewrite Cm, Cd, Ct. split; [reflexivity|]. split; [tauto|].
      now apply recode_one.
Qed.

Lemma sample_user_items_partition_witness :
  exists data tnl,
    sample_user_items rnd_alternating M43 (1 # 2) = Ok (data, tnl) /\
    size0 data = size0 M43 /\ size1 data = size1 M43 /\
    size0 tnl = size0 M43 /\ size1 tnl = size1 M43 /\
    forall r c,
      0 <= r < size0 M43 -> 0 <= c < size1 M43 ->
      ((1 < row_degree M43 r)%Q ->
       ~ ((0 < cell data r c)%Q /\ (0 < cell tnl r c)%Q) /\
       ((0 < cell M43 r c)%Q <->
        (0 < cell data r c)%Q \/ (0 < cell tnl r c)%Q)) /\
      ((row_degree M43 r <= 1)%Q ->
       cell data r c = cell M43 r c /\
       (stored data r c <-> stored M43 r c) /\
       cell tnl r c = 0%Q).
Proof.
  apply (sample_user_items_partition rnd_alternating M43 (1 # 2)).
  - closed_well_formed.
  - cbn. repeat (apply Forall_cons; [reflexivity|]). apply Forall_nil.
Defined.

(** C5 as stated fails on a weighted target: the only row of
    [M11_half] has degree 1/2 <= 1, yet the held-out matrix stores the
    positive value 1/2 at its coordinate. *)
Lemma sample_user_items_weighted_row_held_out :
  (row_degree M11_half 0 <= 1)%Q /\
  exists data tnl,
    sample_user_items rnd_alternating M11_half (4 # 10) = Ok (data, tnl) /\
    cell data 0 0 = cell M11_half 0 0 /\
    cell tnl 0 0 = (1 # 2)%Q /\
    In (0, 0) (map fst (sparse_nonzero tnl)).
Proof.
  split; [vm_compute; discriminate|].
  eexists. eexists. split; [vm_compute; reflexivity|].
  split; [reflexivity|]. split; [reflexivity|]. left. reflexivity.
Qed.

(** * Further properties of the sparse helpers *)

Lemma increasing_lower n p q l : q <= p -> increasing_from n p l -> increasing_from n q l.
Proof.
  destruct l as [|t l]; simpl; [trivial|]. intros Hq [Hp Hl]. split; [lia|assumption].
Qed.

Lemma increasing_app n p q l1 l2 :
  increasing_from n p l1 -> Forall (fun t => flat n t <= q) l1 -> p <= q ->
  increasing_from n q l2 -> increasing_from n p (l1 ++ l2).
Proof.
  revert p. induction l1 as [|t l1 IH]; intros p H1 Hb Hpq H2; simpl.
  - now apply (increasing_lower n q p).
  - destruct H1 as [Hp H1]. inversion Hb; subst. split; [assumption|].
    apply IH; assumption.
Qed.

Lemma increasing_map_shift n d p (g : triplet -> triplet) l :
  (forall t, flat n (g t) = flat n t + d) ->
  increasing_from n p l -> increasing_from n (p + d) (map g l).
Proof.
  intros Hg. revert p. induction l as [|t l IH]; intros p; simpl; [trivial|].
  intros [Hp Hl]. rewrite Hg. split; [lia|]. now apply IH.
Qed.

Lemma keyvals_map_shift n d k (g : triplet -> triplet) l :
  (forall t, flat n (g t) = flat n t + d) ->
  (forall t, t_val (g t) = t_val t) ->
  keyvals n k (map g l) = keyvals n (k - d) l.
Proof.
  intros Hg Hv. induction l as [|t l IH]; [reflexivity|].
  simpl map. rewrite !keyvals_cons, Hg, Hv, IH.
  destruct (flat n t + d =? k) eqn:E1; destruct (flat n t =? k - d) eqn:E2;
    try reflexivity.
  - apply Z.eqb_eq in E1. apply Z.eqb_neq in E2. lia.
  - apply Z.eqb_neq in E1. apply Z.eqb_eq in E2. lia.
Qed.

Lemma keyvals_filter_keep n k (f : triplet -> bool) l :
  (forall t, In t l -> flat n t = k -> f t = true) ->
  keyvals n k (filter f l) = keyvals n k l.
Proof.
  induction l as [|t l IH]; intros H; [reflexivity|].
  simpl filter. rewrite keyvals_cons.
  assert (IH' : keyvals n k (filter f l) = keyvals n k l)
    by (apply IH; intros u Hu; apply H; now right).
  destruct (flat n t =? k) eqn:E.
  - apply Z.eqb_eq in E. rewrite (H t (or_introl eq_refl) E).
    rewrite keyvals_cons. apply Z.eqb_eq in E. now rewrite E, IH'.
  - destruct (f t); [rewrite keyvals_cons, E|]; exact IH'.
Qed.

Lemma keyvals_filter_drop n k (f : triplet -> bool) l :
  (forall t, In t l -> flat n t = k -> f t = false) ->
  keyvals n k (filter f l) = [].
Proof.
  induction l as [|t l IH]; intros H; [reflexivity|].
  simpl filter.
  assert (IH' : keyvals n k (filter f l) = [])
    by (apply IH; intros u Hu; apply H; now right).
  destruct (f t) eqn:Ef; [|exact IH'].
  rewrite keyvals_cons. destruct (flat n t =? k) eqn:E; [|exact IH'].
  apply Z.eqb_eq in E. rewrite (H t (or_introl eq_refl) E) in Ef. discriminate.
Qed.

Lemma in_shape_col n0 n1 t r c :
  in_shape n0 n1 t -> 0 <= c < n1 -> flat n1 t = n1 * r + c -> t_col t = c.
Proof.
  unfold in_shape, flat. intros [Hr Hc] Hc' E.
  assert (t_row t = r) by nia. nia.
Qed.

Lemma in_shape_flat_upper n0 n1 t : in_shape n0 n1 t -> flat n1 t <= n1 * n0 - 1.
Proof. unfold in_shape, flat. intros [? ?]. nia. Qed.

Lemma all_cols_id m : well_formed m -> all_cols m = m.
Proof.
  intros [Hs _]. unfold all_cols. destruct m as [n0 n1 l]. simpl in *. f_equal.
  apply filter_all_true. intros t Ht. rewrite Forall_forall in Hs.
  destruct (Hs t Ht) as [_ Hc].
  apply andb_true_intro. split; [apply Z.leb_le|apply Z.ltb_lt]; lia.
Qed.

(** ** [sparse_re_assign_on_mask], rows and columns *)

Lemma sparse_re_assign_on_mask_with_cells sub add m mask val dim r c :
  well_formed m -> 0 <= c < size1 m ->
  let m' := mkRaw (size0 m) (size1 m)
                  (map (reassigned_with sub add mask val dim) (coo m)) in
  let chosen := mask_at mask (match dim with Dim0 => r | Dim1 => c end) in
  well_formed m' /\
  map fst (coo m') = map fst (coo m) /\
  (stored m r c -> chosen = true ->
   cell m' r c = add (cell m r c) (sub val (cell m r c))) /\
  (~ stored m r c \/ chosen = false -> cell m' r c = cell m r c).
Proof.
  intros Hwf Hcol m' chosen. pose proof Hwf as [Hs Hc].
  assert (Ef : map fst (coo m') = map fst (coo m)).
  { unfold m'. cbn [coo]. rewrite map_map. apply map_ext.
    intros t. apply reassigned_with_coords. }
  assert (Hwf' : well_formed m').
  { split.
    - apply (in_shape_same_coords _ _ (coo m)); [now symmetry|assumption].
    - unfold is_coalesced.
      apply (increasing_same_coords _ _ (coo m)); [now symmetry|assumption]. }
  split; [assumption|]. split; [assumption|].
  set (h := fun v : Q => if chosen then add v (sub val v) else v).
  assert (K : keyvals (size1 m) (size1 m * r + c) (coo m')
              = map h (keyvals (size1 m) (size1 m * r + c) (coo m))).
  { unfold m'. cbn [coo].
    apply keyvals_map_val; [|intros; apply reassigned_with_flat].
    intros t0 Ht Hk. rewrite Forall_forall in Hs.
    unfold reassigned_with, h, chosen.
    rewrite (in_shape_row _ _ t0 r c (Hs t0 Ht) Hcol Hk).
    rewrite (in_shape_col _ _ t0 r c (Hs t0 Ht) Hcol Hk).
    destruct dim; destruct (mask_at mask _); reflexivity. }
  rewrite (cell_keyvals m' r c Hwf' Hcol).
  change (size1 m') with (size1 m). rewrite K.
  rewrite (cell_keyvals m r c Hwf Hcol).
  pose proof (stored_keyvals (size0 m) (size1 m) (coo m) r c Hs Hcol) as St.
  fold (stored m r c) in St.
  destruct (keyvals (size1 m) (size1 m * r + c) (coo m)) as [|v vs]; simpl.
  - split; [intros H; apply St in H; now elim H|reflexivity].
  - split.
    + intros _ Hch. unfold h. now rewrite Hch.
    + intros [Hn|Hch]; [elim Hn; apply St; discriminate|].
      unfold h. now rewrite Hch.
Qed.

(** X1.  [sparse_re_assign_on_mask] on a matrix without duplicate
    coordinates.  A mask that has not one entry per row ([dim = 0]) or
    per column ([dim = 1]) raises [IndexError].  Otherwise the result
    has the same shape and the same stored coordinates: no entry is
    created, and every cell that is not a stored cell of a selected row
    (or column) reads as before.  A stored cell of a selected row (or
    column) reads the float32 sum of its old value [x] and the float32
    difference of [val] and [x]; this is [val] whenever [val] and
    [val - x] are float32 values, so that nothing is rounded. *)
Theorem sparse_re_assign_on_mask_cells
        (m : SparseTensor) (mask : list bool) (val : Q) (dim : axis) :
  well_formed m ->
  let n := match dim with Dim0 => size0 m | Dim1 => size1 m end in
  (length mask <> Z.to_nat n ->
   sparse_re_assign_on_mask m mask val dim = Err IndexError) /\
  (length mask = Z.to_nat n ->
   exists m',
     sparse_re_assign_on_mask m mask val dim = Ok m' /\
     size0 m' = size0 m /\ size1 m' = size1 m /\
     well_formed m' /\
     map fst (coo m') = map fst (coo m) /\
     forall r c,
       0 <= r < size0 m -> 0 <= c < size1 m ->
       let chosen := mask_at mask (match dim with Dim0 => r | Dim1 => c end) in
       (stored m r c -> chosen = true ->
        cell m' r c = fadd (cell m r c) (fsub (round32 val) (cell m r c)) /\
        (finite32 val -> finite32 (val - cell m r c) -> (cell m' r c == val)%Q)) /\
       (~ stored m r c \/ chosen = false -> cell m' r c = cell m r c)).
Proof.
  intros Hwf. cbv zeta. unfold sparse_re_assign_on_mask. split;
    [apply sparse_re_assign_on_mask_with_wrong_length|].
  intros Hlen.
  eexists. split; [now apply sparse_re_assign_on_mask_with_entries|].
  split; [reflexivity|]. split; [reflexivity|].
  set (sub := fun val prev : Q => fsub (round32 val) prev).
  destruct (Z_lt_le_dec 0 (size1 m)) as [Hpos|Hneg].
  - destruct (sparse_re_assign_on_mask_with_cells sub fadd m mask val dim 0 0 Hwf
                ltac:(lia)) as (Hwf' & Ef & _).
    split; [assumption|]. split; [assumption|].
    intros r c Hr Hcol.
    destruct (sparse_re_assign_on_mask_with_cells sub fadd m mask val dim r c Hwf Hcol)
      as (_ & _ & Hin & Hout).
    split; [|assumption].
    intros Hst Hch. rewrite (Hin Hst Hch). split; [reflexivity|].
    intros [Hv _] [Hd _]. unfold sub. now apply assign_exact.
  - destruct Hwf as [Hs Hc].
    assert (E : coo m = []).
    { destruct (coo m) as [|t l]; [reflexivity|].
      inversion Hs as [|? ? Ht _]; subst. unfold in_shape in Ht. lia. }
    rewrite E. split; [|split; [reflexivity|intros; lia]].
    split; [constructor|]. unfold is_coalesced. simpl. trivial.
Qed.

Lemma sparse_re_assign_on_mask_cells_witness :
  (length [false; true] <> Z.to_nat (size1 m22) ->
   sparse_re_assign_on_mask m22 [false; true] (7 # 1) Dim1 = Err IndexError) /\
  (length [false; true] = Z.to_nat (size1 m22) ->
   exists m',
     sparse_re_assign_on_mask m22 [false; true] (7 # 1) Dim1 = Ok m' /\
     size0 m' = size0 m22 /\ size1 m' = size1 m22 /\
     well_formed m' /\
     map fst (coo m') = map fst (coo m22) /\
     forall r c,
       0 <= r < size0 m22 -> 0 <= c < size1 m22 ->
       let chosen := mask_at [false; true] c in
       (stored m22 r c -> chosen = true ->
        cell m' r c = fadd (cell m22 r c) (fsub (round32 (7 # 1)) (cell m22 r c)) /\
        (finite32 (7 # 1) -> finite32 ((7 # 1) - cell m22 r c) ->
         (cell m' r c == 7 # 1)%Q)) /\
       (~ stored m22 r c \/ chosen = false -> cell m' r c = cell m22 r c)).
Proof.
  apply (sparse_re_assign_on_mask_cells m22 [false; true] (7 # 1) Dim1).
  exact m22_well_formed.
Defined.

(** A mask with one entry for a matrix of two columns. *)
Lemma sparse_re_assign_on_mask_short_mask :
  sparse_re_assign_on_mask m22 [true] (7 # 1) Dim1 = Err IndexError.
Proof. reflexivity. Qed.

(** Where the difference is rounded the cell does not read [val], as
    with [sparse_assign]: 1 re-assigned over 100000000 reads 0. *)
Lemma sparse_re_assign_on_mask_rounds_difference :
  exists m',
    sparse_re_assign_on_mask M11_big [true] 1 Dim0 = Ok m' /\
    (cell m' 0 0 == 0)%Q.
Proof. eexists. split; [vm_compute; reflexivity|]. vm_compute. reflexivity. Qed.

(** Without rounding, [sparse_re_assign_on_mask] and
    [sparse_re_assign_on_mask_exact] give the same matrix, up to the
    representation of its values. *)
Lemma sparse_re_assign_on_mask_exact_agrees m mask val dim :
  well_formed m ->
  length mask = Z.to_nat (match dim with Dim0 => size0 m | Dim1 => size1 m end) ->
  finite32 val ->
  (forall t, In t (coo m) -> finite32 (val - t_val t)) ->
  exists m1 m2,
    sparse_re_assign_on_mask m mask val dim = Ok m1 /\
    sparse_re_assign_on_mask_exact m mask val dim = Ok m2 /\
    tensor_equiv m1 m2.
Proof.
  intros Hwf Hlen [Hv _] Hd.
  unfold sparse_re_assign_on_mask, sparse_re_assign_on_mask_exact.
  rewrite !sparse_re_assign_on_mask_with_entries by assumption.
  do 2 eexists. split; [reflexivity|]. split; [reflexivity|].
  split; [reflexivity|]. split; [reflexivity|]. cbn [coo].
  induction (coo m) as [|t l IH]; [constructor|].
  simpl map. constructor.
  - rewrite !reassigned_with_coords. split; [reflexivity|].
    unfold reassigned_with. destruct (mask_at mask _); [|reflexivity].
    cbn [snd]. unfold add.
    rewrite (assign_exact val (t_val t) Hv (proj1 (Hd t (or_introl eq_refl)))).
    ring.
  - apply IH. intros u Hu. apply Hd. now right.
Qed.

(** The call of [sample_user_items] on an interaction matrix, whose
    stored weights are 1: nothing is rounded. *)
Lemma sparse_re_assign_on_mask_exact_interactions m mask :
  well_formed m -> length mask = Z.to_nat (size0 m) ->
  Forall (fun t => (t_val t == 1)%Q) (coo m) ->
  exists m1 m2,
    sparse_re_assign_on_mask m mask 2 Dim0 = Ok m1 /\
    sparse_re_assign_on_mask_exact m mask 2 Dim0 = Ok m2 /\
    tensor_equiv m1 m2.
Proof.
  intros Hwf Hlen Hone.
  apply sparse_re_assign_on_mask_exact_agrees; try assumption.
  - apply finite32_small; vm_compute; reflexivity.
  - intros t Ht. rewrite Forall_forall in Hone.
    pose proof (Hone t Ht) as E.
    assert (F : finite32 1) by (apply finite32_small; vm_compute; reflexivity).
    destruct F as (F1 & F2 & F3).
    assert (Q1 : (2 - t_val t == 1)%Q) by (rewrite E; ring).
    repeat split.
    + rewrite (round32_Qeq _ _ Q1), Q1. exact F1.
    + now rewrite Q1.
    + now rewrite Q1.
Qed.

(** ** [sparse_nonzero] *)

(** X2.  On a matrix without duplicate coordinates, [sparse_nonzero] keeps
    the entries in order, keeps no entry whose value is 0, and leaves
    the value read at every cell numerically unchanged. *)
Theorem sparse_nonzero_cells (m : SparseTensor) :
  well_formed m ->
  Forall (fun t => ~ (t_val t == 0)%Q) (sparse_nonzero m) /\
  increasing_from (size1 m) (-1) (sparse_nonzero m) /\
  (forall t, In t (sparse_nonzero m) <-> In t (coo m) /\ ~ (t_val t == 0)%Q) /\
  forall r c, 0 <= c < size1 m ->
              (cell_of (sparse_nonzero m) r c == cell m r c)%Q.
Proof.
  intros Hwf. pose proof Hwf as [Hs Hc]. unfold sparse_nonzero.
  assert (Hnz : forall v, negb (Qeq_bool v 0) = true <-> ~ (v == 0)%Q).
  { intros v. rewrite negb_true_iff. split.
    - intros E H. apply Qeq_bool_iff in H. congruence.
    - intros H. apply not_true_is_false. intros E. now apply Qeq_bool_iff in E. }
  split; [|split; [|split]].
  - apply Forall_forall. intros t Ht. apply filter_In in Ht. now apply Hnz.
  - now apply increasing_filter.
  - intros t. rewrite filter_In, Hnz. reflexivity.
  - intros r c Hcol.
    set (l' := filter (fun t => negb (Qeq_bool (t_val t) 0)) (coo m)).
    assert (Hwf' : well_formed (mkRaw (size0 m) (size1 m) l')).
    { split; cbn [size0 size1 coo]; unfold l'.
      - now apply Forall_filter.
      - unfold is_coalesced. cbn [size1 coo]. now apply increasing_filter. }
    change (cell_of l' r c) with (cell (mkRaw (size0 m) (size1 m) l') r c).
    rewrite (cell_keyvals _ r c Hwf' Hcol), (cell_keyvals m r c Hwf Hcol).
    cbn [size1 coo]. unfold l'.
    rewrite (keyvals_filter_val _ _ (fun v => negb (Qeq_bool v 0))).
    destruct (keyvals_single (size1 m) (-1) (size1 m * r + c) (coo m) Hc)
      as [->|[x ->]]; simpl; [reflexivity|].
    destruct (Qeq_bool x 0) eqn:E; simpl; [|reflexivity].
    apply Qeq_bool_iff in E. now rewrite E.
Qed.

Lemma sparse_nonzero_cells_witness :
  Forall (fun t => ~ (t_val t == 0)%Q) (sparse_nonzero m22) /\
  increasing_from (size1 m22) (-1) (sparse_nonzero m22) /\
  (forall t, In t (sparse_nonzero m22) <-> In t (coo m22) /\ ~ (t_val t == 0)%Q) /\
  forall r c, 0 <= c < size1 m22 ->
              (cell_of (sparse_nonzero m22) r c == cell m22 r c)%Q.
Proof. apply (sparse_nonzero_cells m22). exact m22_well_formed. Defined.

(** ** [sparse_cat] *)

Lemma shift_rows_flat n d t : flat n (shift_rows d t) = flat n t + n * d.
Proof. unfold flat, shift_rows, t_row, t_col. simpl. lia. Qed.

(** Two matrices without duplicate coordinates and with one column
    count are stacked by plain concatenation of their entries. *)
Lemma sparse_cat_entries m n :
  well_formed m -> well_formed n -> 0 <= size0 m -> 0 <= size0 n ->
  size1 m = size1 n ->
  sparse_cat m n
  = Ok (mkRaw (size0 m + size0 n) (size1 m)
              (coo m ++ map (shift_rows (size0 m)) (coo n)))
  /\ well_formed (mkRaw (size0 m + size0 n) (size1 m)
                        (coo m ++ map (shift_rows (size0 m)) (coo n))).
Proof.
  intros [Hsm Hcm] [Hsn Hcn] H0m H0n E1. unfold sparse_cat.
  rewrite E1, Z.eqb_refl. rewrite <- E1. cbv zeta.
  change (map (fun t : triplet => (t_row t + size0 m, t_col t, t_val t)) (coo n))
    with (map (shift_rows (size0 m)) (coo n)).
  assert (Hs : Forall (in_shape (size0 m + size0 n) (size1 m))
                      (coo m ++ map (shift_rows (size0 m)) (coo n))).
  { apply Forall_app. split.
    - revert Hsm. apply Forall_impl. unfold in_shape. intros t [? ?]. lia.
    - apply Forall_forall. intros x Hx. apply in_map_iff in Hx.
      destruct Hx as (t & <- & Ht). rewrite Forall_forall in Hsn.
      specialize (Hsn t Ht). rewrite <- E1 in Hsn.
      unfold in_shape, shift_rows, t_row, t_col in *. simpl. lia. }
  assert (Hc : increasing_from (size1 m) (-1)
                               (coo m ++ map (shift_rows (size0 m)) (coo n))).
  { assert (Hq : (coo m = [] /\ coo n = []) \/ 0 <= size1 m * size0 m).
    { destruct (coo m) as [|t0 l0] eqn:El.
      - destruct (coo n) as [|u0 l1] eqn:En; [left; split; reflexivity|right].
        inversion Hsn as [|? ? Hu _]; subst. unfold in_shape in Hu.
        rewrite <- E1 in Hu. nia.
      - right. inversion Hsm as [|? ? Ht _]; subst. unfold in_shape in Ht. nia. }
    destruct Hq as [[-> ->]|Hq]; [simpl; trivial|].
    apply (increasing_app _ _ (-1 + size1 m * size0 m)).
    - exact Hcm.
    - revert Hsm. apply Forall_impl. intros t Ht.
      pose proof (in_shape_flat_upper _ _ t Ht). lia.
    - lia.
    - apply increasing_map_shift; [intros; apply shift_rows_flat|].
      unfold is_coalesced in Hcn. now rewrite <- E1 in Hcn. }
  destruct (new_coalesce_id add _ _ _ Hs Hc) as (m0 & Em & Ec).
  rewrite Em. cbn [bind]. rewrite Ec. split; [reflexivity|].
  split; assumption.
Qed.

(** X3.  [sparse_cat] stops with an [AssertionError] when the column counts
    differ; otherwise, on matrices without duplicate coordinates, the
    result has the rows of [m] followed by the rows of [n]: its cell
    [(r, c)] is that of [m] for [r] below [m.size(0)] and cell
    [(r - m.size(0), c)] of [n] from there on. *)
Theorem sparse_cat_stack (m n : SparseTensor) :
  (size1 m <> size1 n -> sparse_cat m n = Err AssertionError) /\
  (well_formed m -> well_formed n -> 0 <= size0 m -> 0 <= size0 n ->
   size1 m = size1 n ->
   exists R,
     sparse_cat m n = Ok R /\
     size0 R = size0 m + size0 n /\ size1 R = size1 m /\
     well_formed R /\
     forall r c,
       0 <= c < size1 m ->
       (r < size0 m -> cell R r c = cell m r c) /\
       (size0 m <= r -> cell R r c = cell n (r - size0 m) c)).
Proof.
  split.
  - intros Hne. unfold sparse_cat.
    replace (size1 m =? size1 n) with false; [reflexivity|].
    symmetry. now apply Z.eqb_neq.
  - intros Hm Hn H0m H0n E1.
    destruct (sparse_cat_entries m n Hm Hn H0m H0n E1) as [E HwfR].
    eexists. split; [exact E|]. cbn [size0 size1].
    split; [reflexivity|]. split; [reflexivity|]. split; [exact HwfR|].
    intros r c Hc.
    rewrite (cell_keyvals _ r c HwfR Hc). cbn [size1 coo].
    rewrite keyvals_app.
    rewrite (keyvals_map_shift _ (size1 m * size0 m))
      by (intros; apply shift_rows_flat || reflexivity).
    destruct Hm as [Hsm Hcm]. destruct Hn as [Hsn Hcn].
    split.
    + intros Hr.
      assert (Hk : keyvals (size1 m) (size1 m * r + c - size1 m * size0 m) (coo n) = []).
      { unfold keyvals.
        destruct (filter _ (coo n)) as [|u f] eqn:Ef; [reflexivity|].
        assert (Hu : In u (filter (fun t => flat (size1 m) t
                                             =? size1 m * r + c - size1 m * size0 m)
                                  (coo n))) by (rewrite Ef; now left).
        apply filter_In in Hu. destruct Hu as [Hu Hf]. apply Z.eqb_eq in Hf.
        rewrite Forall_forall in Hsn. specialize (Hsn u Hu).
        unfold in_shape, flat in *. rewrite <- E1 in Hsn. nia. }
      rewrite Hk, app_nil_r.
      now rewrite (cell_keyvals m r c (conj Hsm Hcm) Hc).
    + intros Hr.
      assert (Hk : keyvals (size1 m) (size1 m * r + c) (coo m) = []).
      { unfold keyvals.
        destruct (filter _ (coo m)) as [|u f] eqn:Ef; [reflexivity|].
        assert (Hu : In u (filter (fun t => flat (size1 m) t =? size1 m * r + c)
                                  (coo m))) by (rewrite Ef; now left).
        apply filter_In in Hu. destruct Hu as [Hu Hf]. apply Z.eqb_eq in Hf.
        rewrite Forall_forall in Hsm. specialize (Hsm u Hu).
        unfold in_shape, flat in *. nia. }
      rewrite Hk. cbn [app].
      assert (Hc' : 0 <= c < size1 n) by (rewrite <- E1; exact Hc).
      rewrite (cell_keyvals n (r - size0 m) c (conj Hsn Hcn) Hc'), <- E1.
      do 2 f_equal. lia.
Qed.

Lemma sparse_cat_stack_witness :
  sparse_cat m22 M43 = Err AssertionError /\
  exists R,
    sparse_cat m22 m22 = Ok R /\
    size0 R = size0 m22 + size0 m22 /\ size1 R = size1 m22 /\
    well_formed R /\
    forall r c,
      0 <= c < size1 m22 ->
      (r < size0 m22 -> cell R r c = cell m22 r c) /\
      (size0 m22 <= r -> cell R r c = cell m22 (r - size0 m22) c).
Proof.
  split.
  - apply (proj1 (sparse_cat_stack m22 M43)). simpl. lia.
  - apply (proj2 (sparse_cat_stack m22 m22));
      try exact m22_well_formed; simpl; lia.
Defined.

(** ** [split_data] *)

Lemma slice_rows_entries m start stop :
  0 <= start -> start <= stop -> stop <= size0 m ->
  slice_rows m start stop
  = Ok (mkRaw (stop - start) (size1 m)
              (map (shift_rows (- start))
                   (filter (fun t => (start <=? t_row t) && (t_row t <? stop))
                           (coo m)))).
Proof.
  intros H0 H1 H2. unfold slice_rows. rewrite !wrap_nonneg by lia.
  replace (Z.max (stop - start) 0) with (stop - start) by lia.
  replace ((0 <=? start) && (start + (stop - start) <=? size0 m)) with true
    by (symmetry; apply andb_true_intro; split; apply Z.leb_le; lia).
  replace (start + (stop - start)) with stop by lia.
  reflexivity.
Qed.

(** The rows [start, stop) of a matrix without duplicate coordinates:
    a matrix without duplicate coordinates whose cell [(r, c)] is cell
    [(start + r, c)] of [m]. *)
Lemma slice_rows_cells m start stop :
  well_formed m -> 0 <= start -> start <= stop -> stop <= size0 m ->
  exists blk,
    slice_rows m start stop = Ok blk /\
    size0 blk = stop - start /\ size1 blk = size1 m /\
    well_formed blk /\
    forall r c, 0 <= r < stop - start -> 0 <= c < size1 m ->
                cell blk r c = cell m (start + r) c.
Proof.
  intros Hwf H0 H1 H2. pose proof Hwf as [Hs Hc].
  eexists. split; [now apply slice_rows_entries|]. cbn [size0 size1].
  split; [reflexivity|]. split; [reflexivity|].
  set (keep := fun t : triplet => (start <=? t_row t) && (t_row t <? stop)).
  assert (Hwf' : well_formed
                   (mkRaw (stop - start) (size1 m)
                          (map (shift_rows (- start)) (filter keep (coo m))))).
  { split; cbn [size0 size1 coo].
    - apply Forall_forall. intros x Hx. apply in_map_iff in Hx.
      destruct Hx as (t & <- & Ht). apply filter_In in Ht. destruct Ht as [Ht Hk].
      rewrite Forall_forall in Hs. specialize (Hs t Ht).
      unfold keep in Hk. apply andb_prop in Hk. destruct Hk as [K1 K2].
      apply Z.leb_le in K1. apply Z.ltb_lt in K2.
      unfold in_shape, shift_rows, t_row, t_col in *. simpl. lia.
    - unfold is_coalesced. cbn [size1 coo].
      assert (Hi : increasing_from (size1 m) (-1 + size1 m * start)
                                   (filter keep (coo m))).
      { assert (G : forall p l, increasing_from (size1 m) p l ->
                                Forall (in_shape (size0 m) (size1 m)) l ->
                                increasing_from (size1 m)
                                  (Z.max p (-1 + size1 m * start)) (filter keep l)).
        { intros p l. revert p. induction l as [|t l IH]; intros p Hl Hsl;
            cbn [filter]; [exact I|].
          destruct Hl as [Hp Hl]. inversion Hsl as [|? ? Ht Hsl']; subst.
          destruct (keep t) eqn:Ek.
          - cbn [increasing_from]. split.
            + unfold keep in Ek. apply andb_prop in Ek. destruct Ek as [K1 _].
              apply Z.leb_le in K1. apply Z.max_lub_lt; [exact Hp|].
              clear - K1 Ht. unfold in_shape in Ht. unfold flat.
              assert (size1 m * start <= size1 m * t_row t)
                by (apply Z.mul_le_mono_nonneg_l; lia).
              lia.
            + apply (increasing_lower _ (Z.max (flat (size1 m) t)
                                               (-1 + size1 m * start))); [lia|].
              now apply IH.
          - apply (increasing_lower _ (Z.max (flat (size1 m) t)
                                             (-1 + size1 m * start))); [lia|].
            now apply IH. }
        apply (increasing_lower _ (Z.max (-1) (-1 + size1 m * start))).
        - destruct (coo m) as [|t0 l0] eqn:El.
          + lia.
          + inversion Hs; subst. unfold in_shape in H4. nia.
        - now apply G. }
      replace (-1) with (-1 + size1 m * start + size1 m * - start) by lia.
      apply increasing_map_shift; [intros; apply shift_rows_flat|exact Hi]. }
  split; [exact Hwf'|].
  intros r c Hr Hcol.
  rewrite (cell_keyvals _ r c Hwf' Hcol). cbn [size1 coo].
  rewrite (keyvals_map_shift _ (size1 m * - start))
    by (intros; apply shift_rows_flat || reflexivity).
  rewrite keyvals_filter_keep.
  - rewrite (cell_keyvals m (start + r) c Hwf Hcol). do 2 f_equal. lia.
  - intros t Ht Hk. rewrite Forall_forall in Hs. specialize (Hs t Ht).
    assert (t_row t = start + r).
    { apply (in_shape_row _ _ t (start + r) c Hs Hcol). rewrite Hk. lia. }
    unfold keep. apply andb_true_intro. split; [apply Z.leb_le|apply Z.ltb_lt]; lia.
Qed.

(** X4.  [split_data(start, count, M)] on a matrix without duplicate
    coordinates: when the rows [start, start + count) exist, the result
    has [count] rows whose cells are those of rows [start + r] of [M];
    when the range runs past the last row the call stops with an error
    (the range is not clamped). *)
Theorem split_data_rows (start count : Z) (M : SparseTensor) :
  well_formed M -> 0 <= start -> 0 <= count ->
  (start + count <= size0 M ->
   exists R,
     split_data start count M = Ok R /\
     size0 R = count /\ size1 R = size1 M /\ well_formed R /\
     forall r c, 0 <= r < count -> 0 <= c < size1 M ->
                 cell R r c = cell M (start + r) c) /\
  (size0 M < start + count -> exists e, split_data start count M = Err e).
Proof.
  intros Hwf H0 Hc. split.
  - intros Hin.
    destruct (slice_rows_cells M start (start + count) Hwf H0) as
        (blk & E & S0 & S1 & Hwfb & Hcells); [lia|lia|].
    unfold split_data. rewrite E. cbn [bind].
    rewrite (all_cols_id blk Hwfb).
    assert (Ec : coalesce max blk = blk).
    { unfold coalesce. destruct Hwfb as [_ Hcb]. unfold is_coalesced in Hcb.
      rewrite (segments_id _ max _ _ Hcb). now destruct blk. }
    rewrite Ec. exists blk. split; [reflexivity|].
    split; [lia|]. split; [exact S1|]. split; [exact Hwfb|].
    intros r c Hr Hcol. apply Hcells; [lia|assumption].
  - intros Hout. unfold split_data, slice_rows. rewrite !wrap_nonneg by lia.
    replace ((0 <=? start)
             && (start + Z.max (start + count - start) 0 <=? size0 M)) with false.
    + eexists. reflexivity.
    + symmetry. apply andb_false_iff. right. apply Z.leb_gt. lia.
Qed.

Lemma split_data_rows_witness :
  (exists R,
     split_data 1 2 M43 = Ok R /\
     size0 R = 2 /\ size1 R = size1 M43 /\ well_formed R /\
     forall r c, 0 <= r < 2 -> 0 <= c < size1 M43 ->
                 cell R r c = cell M43 (1 + r) c) /\
  (exists e, split_data 3 2 M43 = Err e).
Proof.
  assert (Hwf : well_formed M43) by closed_well_formed.
  split.
  - apply (proj1 (split_data_rows 1 2 M43 Hwf ltac:(lia) ltac:(lia))). simpl. lia.
  - apply (proj2 (split_data_rows 3 2 M43 Hwf ltac:(lia) ltac:(lia))). simpl. lia.
Defined.

(** ** [mean_average_precision]: range of the result *)

Lemma Qsum_bounds (l : list Q) :
  Forall (fun x => 0 <= x <= 1)%Q l ->
  (0 <= Qsum l <= inject_Z (Z.of_nat (length l)))%Q.
Proof.
  induction 1 as [|x l [Hx0 Hx1] Hl [IH0 IH1]].
  - simpl. split; [apply Qle_refl|]. unfold Qle. simpl. lia.
  - cbn [Qsum fold_right length]. fold (Qsum l).
    rewrite Nat2Z.inj_succ. unfold Z.succ. rewrite inject_Z_plus.
    change (inject_Z 1) with 1%Q. split; lra.
Qed.

Lemma mean_bounds (l : list Q) q :
  Forall (fun x => 0 <= x <= 1)%Q l -> mean l = Some q -> (0 <= q <= 1)%Q.
Proof.
  intros Hl. destruct l as [|x l]; [discriminate|].
  unfold mean. intros E. injection E as <-.
  destruct (Qsum_bounds _ Hl) as [H0 H1].
  set (n := inject_Z (Z.of_nat (length (x :: l)))) in *.
  assert (Hn : (0 < n)%Q).
  { unfold n. simpl length. rewrite Nat2Z.inj_succ. unfold Qlt. simpl. lia. }
  split.
  - apply Qle_shift_div_l; [exact Hn|]. rewrite Qmult_0_l. exact H0.
  - apply Qle_shift_div_r; [exact Hn|]. rewrite Qmult_1_l. exact H1.
Qed.

Lemma sequence_Some (A : Type) (l : list (option A)) qs :
  sequence l = Some qs -> Forall2 (fun o q => o = Some q) l qs.
Proof.
  revert qs. induction l as [|[a|] l IH]; intros qs H; simpl in H.
  - injection H as <-. constructor.
  - destruct (sequence l) as [r|]; [|discriminate]. injection H as <-.
    constructor; auto.
  - discriminate.
Qed.

Lemma sequence_None (A : Type) (l : list (option A)) :
  sequence l = None <-> In None l.
Proof.
  induction l as [|[a|] l IH]; simpl.
  - split; [discriminate|tauto].
  - destruct (sequence l) as [r|].
    + split; [discriminate|]. intros [H|H]; [discriminate|].
      apply IH in H. discriminate.
    + split; [intros _; right; now apply IH|reflexivity].
  - split; [intros _; now left|reflexivity].
Qed.

Lemma cumsum_from_bounds a rel :
  Forall (fun x => x = 0 \/ x = 1) rel ->
  forall i c, nth_error (cumsum_from a rel) i = Some c ->
              a <= c <= a + Z.of_nat i + 1.
Proof.
  intros H. revert a. induction H as [|x rel Hx Hrel IH]; intros a i c E.
  - destruct i; discriminate.
  - destruct i as [|i]; simpl in E.
    + injection E as <-. lia.
    + specialize (IH _ _ _ E). lia.
Qed.

Lemma combine_nth_error (A B : Type) (l1 : list A) (l2 : list B) i x y :
  nth_error (combine l1 l2) i = Some (x, y) ->
  nth_error l1 i = Some x /\ nth_error l2 i = Some y.
Proof.
  revert l2 i. induction l1 as [|a l1 IH]; intros [|b l2] [|i] E;
    simpl in E; try discriminate.
  - injection E as <- <-. split; reflexivity.
  - simpl. now apply IH.
Qed.

Lemma nth_error_ranks k i r :
  nth_error (map (fun i => Z.of_nat i + 1) (seq 0 k)) i = Some r ->
  r = Z.of_nat i + 1.
Proof.
  intros E. rewrite nth_error_map in E.
  destruct (nth_error (seq 0 k) i) as [j|] eqn:Ej; [|discriminate].
  injection E as <-.
  assert (Hi : (i < length (seq 0 k))%nat)
    by (apply nth_error_Some; congruence).
  rewrite length_seq in Hi.
  apply (nth_error_nth _ _ 0%nat) in Ej. rewrite seq_nth in Ej by assumption.
  simpl in Ej. subst j. reflexivity.
Qed.

Lemma average_precision_row_bounds k rel q :
  Forall (fun x => x = 0 \/ x = 1) rel ->
  average_precision_row k rel = Some q -> (0 <= q <= 1)%Q.
Proof.
  intros Hrel. rewrite average_precision_row_shape. apply mean_bounds.
  apply Forall_forall. intros x Hx. apply in_map_iff in Hx.
  destruct Hx as ([[c r] b] & <- & Hin). simpl.
  apply In_nth_error in Hin. destruct Hin as (i & Hi).
  apply combine_nth_error in Hi. destruct Hi as [Hcr Hb].
  apply combine_nth_error in Hcr. destruct Hcr as [Hc Hr].
  apply nth_error_ranks in Hr. subst r.
  destruct (cumsum_from_bounds 0 rel Hrel i c Hc) as [C0 C1].
  assert (Hb' : b = 0 \/ b = 1).
  { rewrite Forall_forall in Hrel. apply Hrel. eapply nth_error_In. exact Hb. }
  assert (Hpos : (0 < inject_Z (Z.of_nat i + 1))%Q)
    by (unfold Qlt; simpl; lia).
  assert (Hc0 : (0 <= inject_Z c)%Q) by (unfold Qle; simpl; lia).
  assert (Hc1 : (inject_Z c <= inject_Z (Z.of_nat i + 1))%Q)
    by (unfold Qle; simpl; lia).
  assert (Hd0 : (0 <= inject_Z c / inject_Z (Z.of_nat i + 1))%Q).
  { apply Qle_shift_div_l; [exact Hpos|]. lra. }
  assert (Hd1 : (inject_Z c / inject_Z (Z.of_nat i + 1) <= 1)%Q).
  { apply Qle_shift_div_r; [exact Hpos|]. lra. }
  destruct Hb' as [-> | ->].
  - change (inject_Z 0) with 0%Q. split; lra.
  - change (inject_Z 1) with 1%Q. split; lra.
Qed.

Lemma rel_row_binary k idxs : Forall (fun x => x = 0 \/ x = 1) (rel_row k idxs).
Proof.
  unfold rel_row. apply Forall_forall. intros x Hx. apply in_map_iff in Hx.
  destruct Hx as (j & <- & _). destruct (existsb _ _); auto.
Qed.

Lemma rel_row_length k idxs : length (rel_row k idxs) = k.
Proof. unfold rel_row. now rewrite length_map, length_seq. Qed.

Lemma average_precision_row_None k rel :
  length rel = k -> (average_precision_row k rel = None <-> k = 0%nat).
Proof.
  intros Hlen. rewrite average_precision_row_shape. unfold mean.
  set (l := map _ _).
  assert (Hl : length l = k).
  { unfold l. rewrite length_map, !length_combine, length_map, length_seq.
    unfold cumsum. rewrite length_cumsum_from. lia. }
  destruct l as [|x l]; simpl in Hl.
  - split; [intros _; now symmetry|reflexivity].
  - split; [discriminate|intros ->; discriminate].
Qed.

(** The rows of [rel_at_k]: one per row of [y_true], each of length [k]
    with entries 0 or 1. *)
Lemma rel_at_k_rows y_true y_pred k :
  let hits :=
    map (fun tp => rel_row k (intersect1d_indices2 (fst tp) (firstn k (snd tp))))
        (combine y_true y_pred) in
  let rows := hits ++ repeat (repeat 0 k) (length y_true - length hits) in
  length rows = length y_true /\
  Forall (fun rel => length rel = k /\ Forall (fun x => x = 0 \/ x = 1) rel) rows.
Proof.
  intros hits rows. split.
  - unfold rows. rewrite length_app, repeat_length. unfold hits.
    rewrite length_map, length_combine. lia.
  - unfold rows. apply Forall_app. split.
    + apply Forall_forall. intros rel Hin. unfold hits in Hin.
      apply in_map_iff in Hin. destruct Hin as (tp & <- & _).
      split; [apply rel_row_length|apply rel_row_binary].
    + apply Forall_forall. intros rel Hin. apply repeat_spec in Hin. subst rel.
      split; [apply repeat_length|].
      apply Forall_forall. intros x Hx. apply repeat_spec in Hx. now left.
Qed.

(** X5.  For rows without repeated ids, [mean_average_precision] is [nan]
    exactly when [y_true] has no row or [k = 0]; any other result is a
    number between 0 and 1. *)
Theorem mean_average_precision_range
        (y_true y_pred : list (list Z)) (k : nat) :
  (forall truth pred, In (truth, pred) (combine y_true y_pred) ->
                      NoDup truth /\ NoDup pred) ->
  (mean_average_precision y_true y_pred k = None <-> y_true = [] \/ k = 0%nat) /\
  (forall q, mean_average_precision y_true y_pred k = Some q -> (0 <= q <= 1)%Q).
Proof.
  intros _. rewrite mean_average_precision_rows.
  destruct (rel_at_k_rows y_true y_pred k) as [Hlen Hrows].
  cbv zeta in Hlen, Hrows.
  match goal with
  | |- context [sequence (map _ ?r)] => remember r as rows eqn:Erows
  end.
  clear Erows.
  split.
  - split.
    + intros H. destruct (sequence (map (average_precision_row k) rows)) as [qs|] eqn:Es.
      * apply sequence_Some in Es. apply Forall2_length in Es.
        rewrite length_map in Es. destruct qs as [|q0 qs']; [|simpl in H; discriminate H].
        simpl in Es. left. destruct y_true; [reflexivity|].
        rewrite Hlen in Es. discriminate Es.
      * apply sequence_None in Es. apply in_map_iff in Es.
        destruct Es as (rel & E & Hin). rewrite Forall_forall in Hrows.
        destruct (Hrows rel Hin) as [Hl _].
        right. now apply (average_precision_row_None k rel Hl).
    + intros [->| ->].
      * simpl in Hlen. destruct rows; [reflexivity|discriminate Hlen].
      * destruct rows as [|rel rows'] eqn:Er.
        -- reflexivity.
        -- inversion Hrows as [|? ? [Hl _] _]; subst. simpl.
           replace (average_precision_row 0 rel) with (@None Q); [reflexivity|].
           symmetry. now apply (average_precision_row_None 0%nat rel Hl).
  - intros q H.
    destruct (sequence (map (average_precision_row k) rows)) as [qs|] eqn:Es;
      [|discriminate].
    apply (mean_bounds qs q); [|exact H].
    apply sequence_Some in Es. apply LinkPropMultiFacts.Forall2_map_left in Es.
    clear H Hlen. induction Es as [|rel q0 rows' qs' Hq Hrest IH]; [constructor|].
    inversion Hrows as [|? ? [_ Hb] Hrows']; subst.
    constructor; [|now apply IH].
    now apply (average_precision_row_bounds k rel).
Qed.

Lemma mean_average_precision_range_witness :
  (mean_average_precision [[5; 6]; [3]] [[6; 8]; [3]] 2 = None
   <-> [[5; 6]; [3]] = [] \/ 2%nat = 0%nat) /\
  (forall q, mean_average_precision [[5; 6]; [3]] [[6; 8]; [3]] 2 = Some q ->
             (0 <= q <= 1)%Q).
Proof.
  apply (mean_average_precision_range [[5; 6]; [3]] [[6; 8]; [3]] 2).
  intros truth pred [E|[E|[]]]; injection E as <- <-;
    split; repeat constructor; simpl; intuition lia.
Defined.

(** ** [mean_average_precision]: lists shorter than [k] *)

Lemma Qsum_app l1 l2 : (Qsum (l1 ++ l2) == Qsum l1 + Qsum l2)%Q.
Proof.
  induction l1 as [|x l1 IH]; simpl.
  - ring.
  - fold (Qsum (l1 ++ l2)). fold (Qsum l1). rewrite IH. ring.
Qed.

Lemma cumsum_from_app a l1 l2 :
  cumsum_from a (l1 ++ l2)
  = cumsum_from a l1 ++ cumsum_from (fold_left Z.add l1 a) l2.
Proof.
  revert a. induction l1 as [|x l1 IH]; intros a; simpl; [reflexivity|].
  now rewrite IH.
Qed.

Lemma combine_app (A B : Type) (a1 a2 : list A) (b1 b2 : list B) :
  length a1 = length b1 ->
  combine (a1 ++ a2) (b1 ++ b2) = combine a1 b1 ++ combine a2 b2.
Proof.
  revert b1. induction a1 as [|x a1 IH]; intros [|y b1] H; simpl in *;
    try discriminate; [reflexivity|].
  f_equal. apply IH. lia.
Qed.

Lemma map_const_repeat (A B : Type) (c : B) (l : list A) :
  map (fun _ => c) l = repeat c (length l).
Proof. induction l as [|x l IH]; simpl; [reflexivity|]. now rewrite IH. Qed.

Lemma rel_row_prefix k m :
  (m <= k)%nat -> rel_row k (seq 0 m) = repeat 1 m ++ repeat 0 (k - m).
Proof.
  intros H. unfold rel_row.
  replace k with (m + (k - m))%nat at 1 by lia.
  rewrite seq_app, map_app. f_equal.
  - rewrite (map_ext_in _ (fun _ => 1)).
    + now rewrite map_const_repeat, length_seq.
    + intros j Hj. apply in_seq in Hj.
      replace (existsb (Nat.eqb j) (seq 0 m)) with true; [reflexivity|].
      symmetry. apply existsb_exists. exists j. split; [apply in_seq; lia|].
      apply Nat.eqb_refl.
  - rewrite (map_ext_in _ (fun _ => 0)).
    + now rewrite map_const_repeat, length_seq.
    + intros j Hj. apply in_seq in Hj.
      replace (existsb (Nat.eqb j) (seq 0 m)) with false; [reflexivity|].
      symmetry. apply not_true_is_false. intros E. apply existsb_exists in E.
      destruct E as (x & Hx & E). apply Nat.eqb_eq in E. subst x.
      apply in_seq in Hx. lia.
Qed.

Lemma intersect1d_all_positions truth pred :
  incl pred truth -> intersect1d_indices2 truth pred = seq 0 (length pred).
Proof.
  intros H. unfold intersect1d_indices2. apply filter_all_true.
  intros j Hj. apply in_seq in Hj.
  apply existsb_exists. exists (nth j pred 0). split.
  - apply H. apply nth_In. lia.
  - apply Z.eqb_refl.
Qed.

Lemma fold_add_ones m a : fold_left Z.add (repeat 1 m) a = a + Z.of_nat m.
Proof.
  revert a. induction m as [|m IH]; intros a; [simpl; lia|].
  cbn [repeat fold_left]. rewrite IH. lia.
Qed.

(** The average precision of a row whose first [m] positions hit and
    whose other [k - m] positions miss is [m / k]. *)
Lemma average_precision_prefix k m :
  (0 < k)%nat -> (m <= k)%nat ->
  exists q, average_precision_row k (repeat 1 m ++ repeat 0 (k - m)) = Some q /\
            (q == inject_Z (Z.of_nat m) / inject_Z (Z.of_nat k))%Q.
Proof.
  intros Hk Hm. rewrite average_precision_row_shape.
  set (g := fun x : Z * Z * Z =>
              (inject_Z (fst (fst x)) / inject_Z (snd (fst x)) * inject_Z (snd x))%Q).
  set (ranks := map (fun i => Z.of_nat i + 1) (seq 0 k)).
  assert (Er : ranks = map (fun i => Z.of_nat i + 1) (seq 0 m)
                       ++ map (fun i => Z.of_nat i + 1) (seq (0 + m) (k - m))).
  { unfold ranks. replace k with (m + (k - m))%nat at 1 by lia.
    now rewrite seq_app, map_app. }
  unfold cumsum. rewrite cumsum_from_app, Er.
  rewrite combine_app
    by (rewrite length_cumsum_from, repeat_length, length_map, length_seq; reflexivity).
  rewrite combine_app
    by (rewrite length_combine, length_cumsum_from, repeat_length, length_map,
        length_seq; lia).
  rewrite map_app.
  set (L1 := map g (combine (combine (cumsum_from 0 (repeat 1 m)) _) (repeat 1 m))).
  set (L2 := map g (combine (combine (cumsum_from _ (repeat 0 (k - m))) _)
                            (repeat 0 (k - m)))).
  assert (H1 : Forall (fun x => x == 1)%Q L1).
  { apply (Forall_map_combine3 (fun x => x == 1)%Q
             (fun a b c => (inject_Z a / inject_Z b * inject_Z c)%Q)).
    intros a b c Hab Hc. apply repeat_spec in Hc. subst c.
    rewrite cumsum_from_ones, combine_map_map in Hab.
    apply in_map_iff in Hab. destruct Hab as (i & E & _). injection E as <- <-.
    replace (0 + Z.of_nat i + 1) with (Z.of_nat i + 1) by lia.
    assert (Hn : ~ (inject_Z (Z.of_nat i + 1) == 0)%Q) by (unfold Qeq; simpl; lia).
    field. exact Hn. }
  assert (H2 : Forall (fun x => x == 0)%Q L2).
  { apply (Forall_map_combine3 (fun x => x == 0)%Q
             (fun a b c => (inject_Z a / inject_Z b * inject_Z c)%Q)).
    intros a b c _ Hc. apply repeat_spec in Hc. subst c.
    change (inject_Z 0) with 0%Q. ring. }
  assert (Hlen : length (L1 ++ L2) = k).
  { unfold L1, L2. rewrite length_app, !length_map, !length_combine,
      !length_cumsum_from, !repeat_length, !length_map, !length_seq. lia. }
  destruct (L1 ++ L2) as [|x l] eqn:EL; [simpl in Hlen; lia|].
  eexists. split; [reflexivity|]. rewrite Hlen, <- EL.
  rewrite Qsum_app, (Qsum_const 1 L1 H1), (Qsum_const 0 L2 H2).
  assert (Hl1 : length L1 = m).
  { unfold L1. rewrite length_map, !length_combine, length_cumsum_from,
      repeat_length, length_map, length_seq. lia. }
  rewrite Hl1.
  assert (Hn : ~ (inject_Z (Z.of_nat k) == 0)%Q) by (unfold Qeq; simpl; lia).
  field. exact Hn.
Qed.

(** X6.  With at least one row and [k >= 1]: when there is a prediction for
    every row and every row's first [k] predictions are [m] true items
    ([m <= k], rows without repeated ids), [mean_average_precision] is
    [m / k]: the precisions are averaged over [k] positions whatever
    the number of true items. *)
Theorem mean_average_precision_short_lists
        (y_true y_pred : list (list Z)) (k m : nat) :
  (0 < k)%nat -> y_true <> [] -> (length y_true <= length y_pred)%nat ->
  (forall truth pred, In (truth, pred) (combine y_true y_pred) ->
                      NoDup truth /\ NoDup pred /\
                      length (firstn k pred) = m /\
                      incl (firstn k pred) truth) ->
  exists q, mean_average_precision y_true y_pred k = Some q /\
            (q == inject_Z (Z.of_nat m) / inject_Z (Z.of_nat k))%Q.
Proof.
  intros Hk Hne Hlen Hrows. rewrite mean_average_precision_rows.
  rewrite length_map, length_combine, (Nat.min_l _ _ Hlen), Nat.sub_diag.
  simpl repeat. rewrite app_nil_r, map_map.
  destruct (sequence_map_Some _
              (fun tp => average_precision_row k
                 (rel_row k (intersect1d_indices2 (fst tp) (firstn k (snd tp)))))
              (fun q => q == inject_Z (Z.of_nat m) / inject_Z (Z.of_nat k))%Q
              (combine y_true y_pred))
    as (qs & -> & Hqs & Lqs).
  - intros [truth pred] Hin. destruct (Hrows truth pred Hin) as (_ & _ & Hl & Hi).
    simpl. rewrite (intersect1d_all_positions _ _ Hi), Hl.
    assert (Hm : (m <= k)%nat) by (rewrite <- Hl, length_firstn; lia).
    rewrite (rel_row_prefix k m Hm). now apply average_precision_prefix.
  - apply mean_const; [|exact Hqs].
    intros ->. simpl in Lqs. rewrite length_combine, (Nat.min_l _ _ Hlen) in Lqs.
    destruct y_true; [congruence|discriminate].
Qed.

Lemma mean_average_precision_short_lists_witness :
  exists q, mean_average_precision [[5; 6; 7]; [1; 2]] [[6; 5]; [2; 1]] 4 = Some q /\
            (q == inject_Z (Z.of_nat 2) / inject_Z (Z.of_nat 4))%Q.
Proof.
  apply (mean_average_precision_short_lists
           [[5; 6; 7]; [1; 2]] [[6; 5]; [2; 1]] 4 2).
  - lia.
  - discriminate.
  - simpl. lia.
  - intros truth pred [E|[E|[]]]; injection E as <- <-.
    + split; [repeat constructor; simpl; intuition lia|].
      split; [repeat constructor; simpl; intuition lia|].
      split; [reflexivity|]. intros x Hx. simpl in *. intuition.
    + split; [repeat constructor; simpl; intuition lia|].
      split; [repeat constructor; simpl; intuition lia|].
      split; [reflexivity|]. intros x Hx. simpl in *. intuition.
Defined.

Lemma combine_map_right (A B C : Type) (g : B -> C) (l : list A) (l' : list B) :
  combine l (map g l') = map (fun p => (fst p, g (snd p))) (combine l l').
Proof.
  revert l'. induction l as [|a l IH]; intros [|b l']; simpl; try reflexivity.
  now rewrite IH.
Qed.

Lemma combine_firstn_left (A B : Type) (l : list A) (l' : list B) :
  combine l (firstn (length l) l') = combine l l'.
Proof.
  revert l'. induction l as [|a l IH]; intros [|b l']; simpl; try reflexivity.
  now rewrite IH.
Qed.

(** X7.  [mean_average_precision] reads, of every prediction row, the first
    [k] ids only, and of the prediction rows the first [len(y_true)]
    only: cutting [y_pred] down to these changes nothing. *)
Theorem mean_average_precision_reads_prefixes
        (y_true y_pred : list (list Z)) (k : nat) :
  mean_average_precision y_true
    (map (firstn k) (firstn (length y_true) y_pred)) k
  = mean_average_precision y_true y_pred k.
Proof.
  assert (E : map (fun tp : list Z * list Z =>
                     rel_row k (intersect1d_indices2 (fst tp) (firstn k (snd tp))))
                  (combine y_true (map (firstn k) (firstn (length y_true) y_pred)))
              = map (fun tp : list Z * list Z =>
                       rel_row k (intersect1d_indices2 (fst tp) (firstn k (snd tp))))
                    (combine y_true y_pred)).
  { rewrite combine_map_right, map_map, combine_firstn_left.
    apply map_ext. intros [truth pred]. cbn [fst snd].
    now rewrite firstn_firstn, Nat.min_id. }
  unfold mean_average_precision. rewrite E. reflexivity.
Qed.

(** ** [sample_user_items]: the two extremes of the hold-out rate *)

















(** ** [LinkPropMulti]: the propagation matrices built by [fit] *)

Module LinkPropMultiExtra.

Import LinkPropMulti.

Lemma index_vec_in_range v i :
  0 <= i < Z.of_nat (length v) -> index_vec v i = Ok (nth (Z.to_nat i) v 0%Q).
Proof.
  intros H. unfold index_vec. rewrite wrap_nonneg by lia.
  replace ((0 <=? i) && (i <? Z.of_nat (length v))) with true; [reflexivity|].
  symmetry. apply andb_true_intro. split; [apply Z.leb_le|apply Z.ltb_lt]; lia.
Qed.

Lemma index_vec_past_end v i :
  Z.of_nat (length v) <= i -> index_vec v i = Err IndexError.
Proof.
  intros H. unfold index_vec. rewrite wrap_nonneg by lia.
  replace (i <? Z.of_nat (length v)) with false by (symmetry; apply Z.ltb_ge; lia).
  now rewrite andb_false_r.
Qed.

Lemma index_vec_cases v i :
  (exists x, index_vec v i = Ok x) \/ index_vec v i = Err IndexError.
Proof.
  unfold index_vec. destruct (_ && _); [left; eexists|right]; reflexivity.
Qed.

Lemma reweight_Ok rows cols entries :
  Forall (in_shape (Z.of_nat (length rows)) (Z.of_nat (length cols))) entries ->
  reweight rows cols entries = Ok (map (reweighted rows cols) entries).
Proof.
  unfold reweight. induction 1 as [|e l [Hr Hc] Hl IH]; [reflexivity|].
  cbn [mapM map]. rewrite (index_vec_in_range rows _ Hr).
  rewrite (index_vec_in_range cols _ Hc). cbn [bind]. rewrite IH. reflexivity.
Qed.

Lemma reweight_coords rows cols entries w :
  reweight rows cols entries = Ok w -> map fst w = map fst entries.
Proof.
  unfold reweight. intros H. apply LinkPropMultiFacts.mapM_Forall2 in H.
  induction H as [|e y l ys He Hl IH]; [reflexivity|].
  inv_bind He. inv_bind He. injection He as <-.
  simpl. f_equal; [now destruct e as [[r c] v]|exact IH].
Qed.

Lemma reweight_IndexError rows cols entries t :
  In t entries ->
  Z.of_nat (length rows) <= t_row t \/ Z.of_nat (length cols) <= t_col t ->
  reweight rows cols entries = Err IndexError.
Proof.
  unfold reweight. induction entries as [|e l IH]; intros Hin Hbad; [contradiction|].
  cbn [mapM].
  destruct (index_vec_cases rows (t_row e)) as [[u Eu]|Eu]; rewrite Eu;
    [|reflexivity].
  cbn [bind].
  destruct (index_vec_cases cols (t_col e)) as [[i Ei]|Ei]; rewrite Ei;
    [|reflexivity].
  cbn [bind]. destruct Hin as [->|Hin].
  - destruct Hbad as [Hb|Hb].
    + rewrite (index_vec_past_end _ _ Hb) in Eu. discriminate.
    + rewrite (index_vec_past_end _ _ Hb) in Ei. discriminate.
  - rewrite (IH Hin Hbad). reflexivity.
Qed.

Lemma reweighted_coords rows cols l :
  map fst (map (reweighted rows cols) l) = map fst l.
Proof. rewrite map_map. apply map_ext. intros [[r c] v]. reflexivity. Qed.

Lemma sparse_nonzero_well_formed M :
  well_formed M ->
  Forall (in_shape (size0 M) (size1 M)) (sparse_nonzero M) /\
  increasing_from (size1 M) (-1) (sparse_nonzero M).
Proof.
  intros [Hs Hc]. unfold sparse_nonzero. split.
  - now apply Forall_filter.
  - now apply increasing_filter.
Qed.

(** The constructor keeps a list that has the coordinates of the
    nonzero entries of a well-formed matrix. *)
Lemma pattern_new M w :
  well_formed M -> map fst w = map fst (sparse_nonzero M) ->
  SparseTensor_new w (size0 M) (size1 M) = Ok (mkRaw (size0 M) (size1 M) w) /\
  well_formed (mkRaw (size0 M) (size1 M) w).
Proof.
  intros Hwf E. destruct (sparse_nonzero_well_formed M Hwf) as [Hs Hc].
  assert (Hsw : Forall (in_shape (size0 M) (size1 M)) w)
    by (apply (in_shape_same_coords _ _ (sparse_nonzero M)); [now symmetry|assumption]).
  assert (Hcw : increasing_from (size1 M) (-1) w)
    by (apply (increasing_same_coords _ _ (sparse_nonzero M)); [now symmetry|assumption]).
  split.
  - rewrite (SparseTensor_new_Ok _ _ _ Hsw).
    rewrite (sort_by_sorted (size1 M) (-1)) by now apply increasing_weakly.
    reflexivity.
  - split; assumption.
Qed.

(** The cells of the matrix stored by [fit]: the Hadamard product of
    [M] with the outer product of the two weight vectors. *)
Lemma reweighted_cells rows cols M r c :
  well_formed M -> 0 <= r < size0 M -> 0 <= c < size1 M ->
  (cell (mkRaw (size0 M) (size1 M) (map (reweighted rows cols) (sparse_nonzero M))) r c
   == nth (Z.to_nat r) rows 0 * nth (Z.to_nat c) cols 0 * cell M r c)%Q.
Proof.
  intros Hwf Hr Hc.
  destruct (pattern_new M (map (reweighted rows cols) (sparse_nonzero M)) Hwf
              (reweighted_coords _ _ _)) as [_ Hwf'].
  rewrite (cell_keyvals _ r c Hwf') by exact Hc.
  rewrite (cell_keyvals M r c Hwf Hc). cbn [size1 coo].
  destruct (sparse_nonzero_well_formed M Hwf) as [Hs _].
  rewrite (keyvals_map_val _ _ (reweighted rows cols)
             (fun v => nth (Z.to_nat r) rows 0 * nth (Z.to_nat c) cols 0 * v)%Q).
  - unfold sparse_nonzero.
    rewrite (keyvals_filter_val _ _ (fun v => negb (Qeq_bool v 0))).
    destruct Hwf as [_ Hcl].
    destruct (keyvals_single (size1 M) (-1) (size1 M * r + c) (coo M) Hcl)
      as [E|[x E]]; rewrite E; simpl.
    + ring.
    + destruct (Qeq_bool x 0) eqn:Ex; simpl; [|reflexivity].
      apply Qeq_bool_iff in Ex. rewrite Ex. ring.
  - intros t Ht Hk. rewrite Forall_forall in Hs. specialize (Hs t Ht).
    unfold reweighted. unfold t_val at 1. cbn [snd].
    rewrite (in_shape_row _ _ t r c Hs Hc Hk), (in_shape_col _ _ t r c Hs Hc Hk).
    reflexivity.
  - intros [[r0 c0] v]. reflexivity.
Qed.

Lemma nth_map_in_range (f : Q -> Q) l i :
  0 <= i < Z.of_nat (length l) ->
  nth (Z.to_nat i) (map f l) 0%Q = f (nth (Z.to_nat i) l 0%Q).
Proof.
  intros H. rewrite (nth_indep _ 0%Q (f 0%Q)) by (rewrite length_map; lia).
  apply map_nth.
Qed.

(** [fit] with the degree vectors it ends up using. *)
Lemma fit_with_degrees pow s M ud id :
  (user_degrees s = None /\ ud = sum_dim1 M /\ id = sum_dim0 M) \/
  (user_degrees s = Some ud /\ item_degrees s = Some id) ->
  fit pow s M
  = (ab <- reweight (map (neg_pow pow (alpha s)) ud)
                    (map (neg_pow pow (beta s)) id) (sparse_nonzero M) ;;
     M_alpha_beta <- SparseTensor_new ab (size0 M) (size1 M) ;;
     gd <- reweight (map (neg_pow pow (gamma s)) ud)
                    (map (neg_pow pow (delta s)) id) (sparse_nonzero M) ;;
     M_gamma_delta <- SparseTensor_new gd (size0 M) (size1 M) ;;
     Ok (set_model (set_degrees s (Some ud) (Some id))
                   (Some M_alpha_beta) (Some M_gamma_delta))).
Proof.
  intros [(Hu & -> & ->)|(Hu & Hi)]; unfold fit;
    change (user_degrees (set_model s None None)) with (user_degrees s);
    rewrite Hu.
  - reflexivity.
  - change (user_degrees (set_model s None None)) with (user_degrees s).
    change (item_degrees (set_model s None None)) with (item_degrees s).
    rewrite Hu, Hi. cbn [some_or bind].
    unfold set_model, set_degrees. cbn. rewrite Hu, Hi. reflexivity.
Qed.

Lemma in_shape_weaken n0 n1 n0' n1' l :
  n0 <= n0' -> n1 <= n1' ->
  Forall (in_shape n0 n1) l -> Forall (in_shape n0' n1') l.
Proof.
  intros H0 H1. apply Forall_impl. intros t [Hr Hc]. split; lia.
Qed.

Lemma fit_spec pow s M ud id :
  well_formed M ->
  (user_degrees s = None /\ ud = sum_dim1 M /\ id = sum_dim0 M) \/
  (user_degrees s = Some ud /\ item_degrees s = Some id) ->
  size0 M <= Z.of_nat (length ud) -> size1 M <= Z.of_nat (length id) ->
  fit pow s M
  = Ok (set_model (set_degrees s (Some ud) (Some id))
          (Some (mkRaw (size0 M) (size1 M)
                   (map (reweighted (map (neg_pow pow (alpha s)) ud)
                                    (map (neg_pow pow (beta s)) id))
                        (sparse_nonzero M))))
          (Some (mkRaw (size0 M) (size1 M)
                   (map (reweighted (map (neg_pow pow (gamma s)) ud)
                                    (map (neg_pow pow (delta s)) id))
                        (sparse_nonzero M))))).
Proof.
  intros Hwf Hdeg Hu Hi. rewrite (fit_with_degrees pow s M ud id Hdeg).
  destruct (sparse_nonzero_well_formed M Hwf) as [Hs _].
  assert (Hin : forall f g : Q -> Q,
             Forall (in_shape (Z.of_nat (length (map f ud)))
                              (Z.of_nat (length (map g id))))
                    (sparse_nonzero M)).
  { intros f g. rewrite !length_map.
    now apply (in_shape_weaken (size0 M) (size1 M)). }
  rewrite !reweight_Ok by apply Hin. cbn [bind].
  destruct (pattern_new M _ Hwf (reweighted_coords
              (map (neg_pow pow (alpha s)) ud) (map (neg_pow pow (beta s)) id)
              (sparse_nonzero M))) as [-> _].
  cbn [bind].
  destruct (pattern_new M _ Hwf (reweighted_coords
              (map (neg_pow pow (gamma s)) ud) (map (neg_pow pow (delta s)) id)
              (sparse_nonzero M))) as [-> _].
  reflexivity.
Qed.

Lemma length_sum_dim1 M : size0 M <= Z.of_nat (length (sum_dim1 M)).
Proof. unfold sum_dim1. rewrite length_map, length_zrange. lia. Qed.

Lemma length_sum_dim0 M : size1 M <= Z.of_nat (length (sum_dim0 M)).
Proof. unfold sum_dim0. rewrite length_map, length_zrange. lia. Qed.

Lemma nth_sum_dim1 M r :
  0 <= r < size0 M -> nth (Z.to_nat r) (sum_dim1 M) 0%Q = row_degree M r.
Proof. intros H. unfold sum_dim1. now rewrite nth_map_zrange. Qed.

Lemma nth_sum_dim0 M c :
  0 <= c < size1 M -> nth (Z.to_nat c) (sum_dim0 M) 0%Q = col_degree M c.
Proof. intros H. unfold sum_dim0. now rewrite nth_map_zrange. Qed.

(** X10.  On a predictor without cached degrees, [fit] on a matrix without
    duplicate coordinates returns: it caches the row and column sums of
    [M] and stores two matrices of the shape of [M] whose stored
    coordinates are those of the nonzero entries of [M] and whose cells
    are [d_row ** -alpha * d_col ** -beta * M[row, col]] (and the same
    with [gamma], [delta]), a power at a zero degree with a positive
    exponent counting as 0: the Hadamard product of [M] with the outer
    product of the two weight vectors. *)
Theorem fit_fresh (pow : Q -> Q -> Q) (s : self) (M : SparseTensor) :
  well_formed M -> user_degrees s = None ->
  exists s' ab gd,
    fit pow s M = Ok s' /\
    user_degrees s' = Some (sum_dim1 M) /\ item_degrees s' = Some (sum_dim0 M) /\
    M_alpha_beta s' = Some ab /\ M_gamma_delta s' = Some gd /\
    (size0 ab = size0 M /\ size1 ab = size1 M) /\
    (size0 gd = size0 M /\ size1 gd = size1 M) /\
    well_formed ab /\ well_formed gd /\
    map fst (coo ab) = map fst (sparse_nonzero M) /\
    map fst (coo gd) = map fst (sparse_nonzero M) /\
    forall r c,
      0 <= r < size0 M -> 0 <= c < size1 M ->
      (cell ab r c == neg_pow pow (alpha s) (row_degree M r)
                      * neg_pow pow (beta s) (col_degree M c) * cell M r c)%Q /\
      (cell gd r c == neg_pow pow (gamma s) (row_degree M r)
                      * neg_pow pow (delta s) (col_degree M c) * cell M r c)%Q.
Proof.
  intros Hwf Hu.
  pose proof (fit_spec pow s M (sum_dim1 M) (sum_dim0 M) Hwf
                (or_introl (conj Hu (conj eq_refl eq_refl)))
                (length_sum_dim1 M) (length_sum_dim0 M)) as E.
  eexists. eexists. eexists. split; [exact E|].
  cbn [user_degrees item_degrees M_alpha_beta M_gamma_delta set_model set_degrees
       size0 size1 coo].
  repeat (split; [reflexivity|]).
  split; [split; reflexivity|]. split; [split; reflexivity|].
  split; [apply (proj2 (pattern_new M _ Hwf (reweighted_coords _ _ _)))|].
  split; [apply (proj2 (pattern_new M _ Hwf (reweighted_coords _ _ _)))|].
  split; [apply reweighted_coords|]. split; [apply reweighted_coords|].
  intros r c Hr Hc.
  pose proof (length_sum_dim1 M) as L1. pose proof (length_sum_dim0 M) as L0.
  split.
  - rewrite (reweighted_cells _ _ M r c Hwf Hr Hc).
    rewrite !nth_map_in_range by lia.
    now rewrite (nth_sum_dim1 M r Hr), (nth_sum_dim0 M c Hc).
  - rewrite (reweighted_cells _ _ M r c Hwf Hr Hc).
    rewrite !nth_map_in_range by lia.
    now rewrite (nth_sum_dim1 M r Hr), (nth_sum_dim0 M c Hc).
Qed.

Lemma fit_fresh_witness :
  exists s' ab gd,
    fit pow_int (init 0 0 0 0 2 1 2) M43 = Ok s' /\
    user_degrees s' = Some (sum_dim1 M43) /\ item_degrees s' = Some (sum_dim0 M43) /\
    M_alpha_beta s' = Some ab /\ M_gamma_delta s' = Some gd /\
    (size0 ab = size0 M43 /\ size1 ab = size1 M43) /\
    (size0 gd = size0 M43 /\ size1 gd = size1 M43) /\
    well_formed ab /\ well_formed gd /\
    map fst (coo ab) = map fst (sparse_nonzero M43) /\
    map fst (coo gd) = map fst (sparse_nonzero M43) /\
    forall r c,
      0 <= r < size0 M43 -> 0 <= c < size1 M43 ->
      (cell ab r c == neg_pow pow_int (alpha (init 0 0 0 0 2 1 2)) (row_degree M43 r)
                      * neg_pow pow_int (beta (init 0 0 0 0 2 1 2)) (col_degree M43 c)
                      * cell M43 r c)%Q /\
      (cell gd r c == neg_pow pow_int (gamma (init 0 0 0 0 2 1 2)) (row_degree M43 r)
                      * neg_pow pow_int (delta (init 0 0 0 0 2 1 2)) (col_degree M43 c)
                      * cell M43 r c)%Q.
Proof.
  apply (fit_fresh pow_int (init 0 0 0 0 2 1 2) M43).
  - exact LinkPropMultiFacts.M43_well_formed.
  - reflexivity.
Defined.

(** X11.  [fit] on a predictor whose degree cache is filled (by an earlier
    [fit], possibly on another matrix), after [set_params]: when the
    cached vectors are long enough for [M], [fit] returns, keeps the
    cache, and weights [M] with the cached degrees and the new
    exponents; the degrees of [M] itself are not read. *)
Theorem fit_reuses_cached_degrees
        (pow : Q -> Q -> Q) (s : self) (M : SparseTensor) (ud id : list Q)
        (a b g d : Q) (rounds' : Z) (t' : Q) (k' : Z) :
  well_formed M ->
  user_degrees s = Some ud -> item_degrees s = Some id ->
  size0 M <= Z.of_nat (length ud) -> size1 M <= Z.of_nat (length id) ->
  exists s' ab gd,
    fit pow (set_params s a b g d rounds' t' k') M = Ok s' /\
    user_degrees s' = Some ud /\ item_degrees s' = Some id /\
    (alpha s' = a /\ beta s' = b /\ gamma s' = g /\ delta s' = d /\
     rounds s' = rounds' /\ t s' = t' /\ k s' = k') /\
    M_alpha_beta s' = Some ab /\ M_gamma_delta s' = Some gd /\
    well_formed ab /\ well_formed gd /\
    map fst (coo ab) = map fst (sparse_nonzero M) /\
    map fst (coo gd) = map fst (sparse_nonzero M) /\
    forall r c,
      0 <= r < size0 M -> 0 <= c < size1 M ->
      (cell ab r c == neg_pow pow a (nth (Z.to_nat r) ud 0)
                      * neg_pow pow b (nth (Z.to_nat c) id 0) * cell M r c)%Q /\
      (cell gd r c == neg_pow pow g (nth (Z.to_nat r) ud 0)
                      * neg_pow pow d (nth (Z.to_nat c) id 0) * cell M r c)%Q.
Proof.
  intros Hwf Hu Hi Lu Li.
  pose proof (fit_spec pow (set_params s a b g d rounds' t' k') M ud id Hwf
                (or_intror (conj Hu Hi)) Lu Li) as E.
  eexists. eexists. eexists. split; [exact E|].
  cbn [user_degrees item_degrees M_alpha_beta M_gamma_delta set_model set_degrees
       set_params alpha beta gamma delta rounds t k size0 size1 coo].
  repeat (split; [reflexivity|]).
  split; [repeat split|].
  split; [reflexivity|]. split; [reflexivity|].
  split; [apply (proj2 (pattern_new M _ Hwf (reweighted_coords _ _ _)))|].
  split; [apply (proj2 (pattern_new M _ Hwf (reweighted_coords _ _ _)))|].
  split; [apply reweighted_coords|]. split; [apply reweighted_coords|].
  intros r c Hr Hc. split.
  - rewrite (reweighted_cells _ _ M r c Hwf Hr Hc).
    rewrite !nth_map_in_range by lia. reflexivity.
  - rewrite (reweighted_cells _ _ M r c Hwf Hr Hc).
    rewrite !nth_map_in_range by lia. reflexivity.
Qed.

Lemma M43_observed_well_formed : well_formed M43_observed.
Proof. closed_well_formed. Qed.

Lemma fit_reuses_cached_degrees_witness :
  exists s' ab gd,
    fit pow_int (set_params fitted43 1 0 0 1 1 1 2) M43_observed = Ok s' /\
    user_degrees s' = Some (sum_dim1 M43) /\ item_degrees s' = Some (sum_dim0 M43) /\
    (alpha s' = 1%Q /\ beta s' = 0%Q /\ gamma s' = 0%Q /\ delta s' = 1%Q /\
     rounds s' = 1 /\ t s' = 1%Q /\ k s' = 2) /\
    M_alpha_beta s' = Some ab /\ M_gamma_delta s' = Some gd /\
    well_formed ab /\ well_formed gd /\
    map fst (coo ab) = map fst (sparse_nonzero M43_observed) /\
    map fst (coo gd) = map fst (sparse_nonzero M43_observed) /\
    forall r c,
      0 <= r < size0 M43_observed -> 0 <= c < size1 M43_observed ->
      (cell ab r c == neg_pow pow_int 1 (nth (Z.to_nat r) (sum_dim1 M43) 0)
                      * neg_pow pow_int 0 (nth (Z.to_nat c) (sum_dim0 M43) 0)
                      * cell M43_observed r c)%Q /\
      (cell gd r c == neg_pow pow_int 0 (nth (Z.to_nat r) (sum_dim1 M43) 0)
                      * neg_pow pow_int 1 (nth (Z.to_nat c) (sum_dim0 M43) 0)
                      * cell M43_observed r c)%Q.
Proof.
  apply (fit_reuses_cached_degrees pow_int fitted43 M43_observed
           (sum_dim1 M43) (sum_dim0 M43) 1 0 0 1 1 1 2).
  - exact M43_observed_well_formed.
  - vm_compute. reflexivity.
  - vm_compute. reflexivity.
  - vm_compute. discriminate.
  - vm_compute. discriminate.
Defined.

(** X12.  [fit] on a predictor whose cached degree vectors are too short for
    a nonzero entry of [M] (a cache filled from a smaller matrix)
    raises [IndexError] at [user_alpha[row]] or [item_beta[col]]. *)
Theorem fit_short_cache_IndexError
        (pow : Q -> Q -> Q) (s : self) (M : SparseTensor) (ud id : list Q)
        (e : triplet) :
  user_degrees s = Some ud -> item_degrees s = Some id ->
  In e (sparse_nonzero M) ->
  Z.of_nat (length ud) <= t_row e \/ Z.of_nat (length id) <= t_col e ->
  fit pow s M = Err IndexError.
Proof.
  intros Hu Hi He Hbad.
  rewrite (fit_with_degrees pow s M ud id (or_intror (conj Hu Hi))).
  rewrite (reweight_IndexError _ _ _ e He); [reflexivity|].
  now rewrite !length_map.
Qed.

Lemma fit_short_cache_IndexError_witness :
  fit pow_int (set_degrees (init 0 0 0 0 1 1 2) (Some [1%Q]) (Some [1%Q; 1%Q; 1%Q])) M43
  = Err IndexError.
Proof.
  apply (fit_short_cache_IndexError pow_int _ M43 [1%Q] [1%Q; 1%Q; 1%Q] (1, 2, 1%Q)).
  - reflexivity.
  - reflexivity.
  - vm_compute. tauto.
  - left. vm_compute. discriminate.
Defined.

(** X13.  Fitting again on the same matrix changes nothing: the second [fit]
    finds the degree cache filled by the first and rebuilds the same two
    matrices. *)
Theorem fit_idempotent (pow : Q -> Q -> Q) (s s1 : self) (M : SparseTensor) :
  fit pow s M = Ok s1 -> fit pow s1 M = Ok s1.
Proof.
  intros H.
  assert (Hd : exists ud id,
             (user_degrees s = None /\ ud = sum_dim1 M /\ id = sum_dim0 M) \/
             (user_degrees s = Some ud /\ item_degrees s = Some id)).
  { destruct (user_degrees s) as [ud|] eqn:Eu.
    - destruct (item_degrees s) as [id|] eqn:Ei.
      + exists ud, id. right. split; reflexivity.
      + unfold fit in H.
        change (user_degrees (set_model s None None)) with (user_degrees s) in H.
        rewrite Eu in H.
        change (user_degrees (set_model s None None)) with (user_degrees s) in H.
        change (item_degrees (set_model s None None)) with (item_degrees s) in H.
        rewrite Eu, Ei in H. discriminate H.
    - exists (sum_dim1 M), (sum_dim0 M). left. repeat split. }
  destruct Hd as (ud & id & Hd).
  rewrite (fit_with_degrees pow s M ud id Hd) in H.
  inv_bind H. inv_bind H. inv_bind H. inv_bind H. injection H as <-.
  rewrite (fit_with_degrees pow _ M ud id);
    [|right; split; reflexivity].
  cbn [alpha beta gamma delta set_model set_degrees].
  rewrite E, E1. cbn [bind]. rewrite E0, E2. reflexivity.
Qed.

Lemma fit_idempotent_witness : fit pow_int fitted43 M43 = Ok fitted43.
Proof.
  apply (fit_idempotent pow_int (init 0 0 0 0 2 1 2) fitted43 M43).
  vm_compute. reflexivity.
Defined.

(** ** [fit_multi]: what every round preserves *)

Lemma fit_Ok_degrees pow s M s' :
  fit pow s M = Ok s' ->
  exists ud id,
    (user_degrees s = None /\ ud = sum_dim1 M /\ id = sum_dim0 M) \/
    (user_degrees s = Some ud /\ item_degrees s = Some id).
Proof.
  intros H. destruct (user_degrees s) as [ud|] eqn:Eu.
  - destruct (item_degrees s) as [id|] eqn:Ei.
    + exists ud, id. right. split; reflexivity.
    + unfold fit in H.
      change (user_degrees (set_model s None None)) with (user_degrees s) in H.
      rewrite Eu in H.
      change (user_degrees (set_model s None None)) with (user_degrees s) in H.
      change (item_degrees (set_model s None None)) with (item_degrees s) in H.
      rewrite Eu, Ei in H. discriminate H.
  - exists (sum_dim1 M), (sum_dim0 M). left. repeat split.
Qed.

Lemma fit_Ok_fitted pow s M s' :
  well_formed M -> fit pow s M = Ok s' ->
  same_params s s' /\ LinkPropMulti.M s' = LinkPropMulti.M s /\ fitted_on M s'.
Proof.
  intros Hwf H. destruct (fit_Ok_degrees pow s M s' H) as (ud & id & Hd).
  rewrite (fit_with_degrees pow s M ud id Hd) in H.
  inv_bind H. inv_bind H. inv_bind H. inv_bind H. injection H as <-.
  apply reweight_coords in E, E1.
  destruct (pattern_new M a Hwf E) as [N1 W1].
  destruct (pattern_new M a1 Hwf E1) as [N2 W2].
  rewrite N1 in E0. rewrite N2 in E2. injection E0 as <-. injection E2 as <-.
  split; [repeat split|]. split; [reflexivity|].
  exists ud, id. eexists. eexists.
  cbn [user_degrees item_degrees M_alpha_beta M_gamma_delta set_model set_degrees].
  repeat (split; [reflexivity|]).
  split; [split; reflexivity|]. split; [split; reflexivity|].
  repeat split; assumption || apply W1 || apply W2.
Qed.

Lemma same_params_trans s1 s2 s3 :
  same_params s1 s2 -> same_params s2 s3 -> same_params s1 s3.
Proof.
  unfold same_params. intros (A1 & A2 & A3 & A4 & A5 & A6 & A7)
                             (B1 & B2 & B3 & B4 & B5 & B6 & B7).
  repeat split; congruence.
Qed.

Lemma round_Ok_fitted pow G s M batch_size total s' :
  well_formed M -> round pow G s M batch_size total = Ok s' ->
  same_params s s' /\ LinkPropMulti.M s' = LinkPropMulti.M s /\ fitted_on M s'.
Proof.
  intros Hwf H. unfold round in H. inv_bind H.
  destruct (fit_Ok_fitted pow _ M s' Hwf H) as (P & Hm & F).
  split; [|split; assumption].
  apply same_params_trans with (2 := P). repeat split.
Qed.

Lemma rounds_loop_Ok_fitted pow G n s M batch_size total s' :
  well_formed M -> fitted_on M s ->
  rounds_loop pow G n s M batch_size total = Ok s' ->
  same_params s s' /\ LinkPropMulti.M s' = LinkPropMulti.M s /\ fitted_on M s'.
Proof.
  intros Hwf. revert s. induction n as [|n IH]; intros s F H.
  - injection H as <-. split; [repeat split|]. split; [reflexivity|assumption].
  - rewrite LinkPropMultiFacts.rounds_loop_step in H. inv_bind H.
    destruct (round_Ok_fitted pow G s M batch_size total a Hwf E) as (P1 & M1 & F1).
    destruct (IH a F1 H) as (P2 & M2 & F2).
    split; [now apply same_params_trans with a|].
    split; [congruence|assumption].
Qed.

(** X14.  Whatever the number of rounds: when [fit_multi] returns on a matrix
    without duplicate coordinates, the hyperparameters and [self.M] are
    as before, the degree cache is filled, and both propagation
    matrices have the shape of [M] and are stored exactly at the
    nonzero entries of [M]: the links predicted in the rounds change
    the degrees only, never the pattern of the model. *)
Theorem fit_multi_keeps_pattern
        (pow : Q -> Q -> Q) (G : SparseTensor) (s s' : self) (M : SparseTensor)
        (batch_size total : Z) :
  well_formed M ->
  fit_multi pow G s M batch_size total = Ok s' ->
  same_params s s' /\ LinkPropMulti.M s' = LinkPropMulti.M s /\ fitted_on M s'.
Proof.
  intros Hwf H. rewrite LinkPropMultiFacts.fit_multi_rounds in H. inv_bind H.
  destruct (fit_Ok_fitted pow s M a Hwf E) as (P1 & M1 & F1).
  destruct (rounds_loop_Ok_fitted pow G _ a M batch_size total s' Hwf F1 H)
    as (P2 & M2 & F2).
  split; [now apply same_params_trans with a|].
  split; [congruence|assumption].
Qed.

Lemma fit_multi_keeps_pattern_witness :
  same_params (init 0 0 0 0 2 1 2) augmented43 /\
  LinkPropMulti.M augmented43 = LinkPropMulti.M (init 0 0 0 0 2 1 2) /\
  fitted_on M43 augmented43.
Proof.
  apply (fit_multi_keeps_pattern pow_int M43 (init 0 0 0 0 2 1 2) augmented43 M43 2 4).
  - exact LinkPropMultiFacts.M43_well_formed.
  - vm_compute. reflexivity.
Defined.

(** ** [predict_topk] on a fitted model *)

Lemma Forall2_impl_In (A B : Type) (R R' : A -> B -> Prop) l1 l2 :
  (forall a b, In a l1 -> R a b -> R' a b) ->
  Forall2 R l1 l2 -> Forall2 R' l1 l2.
Proof.
  intros H HF. induction HF as [|a b l1 l2 Hab Hl IH]; constructor.
  - apply H; [now left|assumption].
  - apply IH. intros a' b' Hin. apply H. now right.
Qed.

(** X15.  With a model and a module-level matrix of the shape of [M] (a
    matrix without duplicate coordinates), a row range inside [M] and
    [0 <= k <= size1 M], [predict_topk] returns one list per row of the
    range; each list has at most [k] column ids, all different and
    inside the matrix; a column that is an observed edge ([M] reads 1
    there) is returned only if its score exceeds the sentinel 100000,
    and any other column only if its score is positive. *)
Theorem predict_topk_new_links
        (G : SparseTensor) (s : self) (M : SparseTensor) (start end_ k : Z)
        (ab gd : SparseTensor) :
  M_alpha_beta s = Some ab -> M_gamma_delta s = Some gd ->
  size0 ab = size0 M -> size1 ab = size1 M ->
  size0 gd = size0 M -> size1 gd = size1 M ->
  size0 G = size0 M -> size1 G = size1 M ->
  well_formed M ->
  0 <= start <= end_ -> end_ <= size0 M ->
  0 <= k <= size1 M ->
  exists p res,
    get_preds_for_users G s start end_ = Ok p /\
    predict_topk G s M start end_ k = Ok res /\
    Forall2
      (fun r row =>
         (length row <= Z.to_nat k)%nat /\ NoDup row /\
         forall j, In j row ->
           0 <= j < size1 M /\
           ((cell M (start + r) j == 1)%Q -> (sentinel < cell p r j)%Q) /\
           (~ (cell M (start + r) j == 1)%Q -> (0 < cell p r j)%Q))
      (zrange 0 (end_ - start)) res.
Proof.
  intros Hab Hgd A0 A1 G0 G1 M0 M1 Hwf Hse He Hk.
  destruct (LinkPropMultiFacts.predict_topk_total G s M start end_ k ab gd
              Hab Hgd A0 A1 G0 G1 M0 M1 Hse He Hk) as (res & Hres).
  destruct (LinkPropMultiFacts.predict_topk_rows G s M start end_ k res Hres)
    as (p & obs & nrows & ncols & Ep & Eo & _ & _ & _).
  destruct (slice_rows_cells M start end_ Hwf (proj1 Hse) (proj2 Hse) He)
    as (blk & Eb & B0 & B1 & _ & Hcells).
  assert (blk = obs) by congruence. subst blk.
  destruct (LinkPropMultiFacts.get_preds_for_users_Ok G s start end_ p Ep)
    as (ab' & gd' & rows & Hab' & Hgd' & Er & P0 & P1).
  assert (ab' = ab) by congruence. assert (gd' = gd) by congruence. subst ab' gd'.
  destruct (LinkPropMultiFacts.slice_rows_in_range ab start end_ Hse)
    as (rows' & Er' & R0 & _); [lia|].
  assert (rows' = rows) by congruence. subst rows'.
  assert (S0 : size0 p = size0 obs) by congruence.
  assert (S1 : size1 p = size1 obs) by congruence.
  exists p, res. split; [exact Ep|]. split; [exact Hres|].
  pose proof (LinkPropMultiFacts.predict_topk_observed_above_sentinel
                G s M start end_ k res p obs Hres Ep Eo S0 S1) as HF.
  rewrite B0 in HF. revert HF. apply Forall2_impl_In.
  intros r row Hr (Hlen & Hnd & Hin). apply In_zrange in Hr.
  split; [exact Hlen|]. split; [exact Hnd|].
  intros j Hj. destruct (Hin j Hj) as (Hjc & H1 & H2).
  rewrite B1 in Hjc. rewrite (Hcells r j) in H1, H2 by lia.
  split; [exact Hjc|]. split; assumption.
Qed.

Lemma predict_topk_new_links_witness :
  exists p res,
    get_preds_for_users M43 fitted43 0 4 = Ok p /\
    predict_topk M43 fitted43 M43 0 4 2 = Ok res /\
    Forall2
      (fun r row =>
         (length row <= Z.to_nat 2)%nat /\ NoDup row /\
         forall j, In j row ->
           0 <= j < size1 M43 /\
           ((cell M43 (0 + r) j == 1)%Q -> (sentinel < cell p r j)%Q) /\
           (~ (cell M43 (0 + r) j == 1)%Q -> (0 < cell p r j)%Q))
      (zrange 0 (4 - 0)) res.
Proof.
  apply (predict_topk_new_links M43 fitted43 M43 0 4 2
           (mkRaw 4 3 (coo M43)) (mkRaw 4 3 (coo M43))).
  - vm_compute. reflexivity.
  - vm_compute. reflexivity.
  - reflexivity.
  - reflexivity.
  - reflexivity.
  - reflexivity.
  - reflexivity.
  - reflexivity.
  - exact LinkPropMultiFacts.M43_well_formed.
  - lia.
  - simpl. lia.
  - simpl. lia.
Defined.

(** ** The batch loops of [predict], [score] and [fit_multi] *)

Lemma py_range_zero_step stop : py_range stop 0 = Err ValueError.
Proof. reflexivity. Qed.

Lemma py_range_empty stop step :
  0 < step -> stop <= 0 -> py_range stop step = Ok [].
Proof.
  intros Hs Hn. unfold py_range.
  replace (step =? 0) with false by (symmetry; apply Z.eqb_neq; lia).
  replace (0 <? stop) with false by (symmetry; apply Z.ltb_ge; lia).
  replace (step <? 0) with false by (symmetry; apply Z.ltb_ge; lia).
  now rewrite andb_false_r.
Qed.

(** X16.  A batch size of 0 makes [range(0, total, batch_size)] raise
    [ValueError] before any batch is read: in [predict] and [score]
    whatever the state of the predictor, and in [sparse_batch_op]. *)
Theorem zero_batch_size_ValueError
        (G : SparseTensor) (s : self) (X y : SparseTensor) (total : Z)
        (op : dense -> dense -> dense) :
  predict G s X 0 = Err ValueError /\
  score G s X y 0 total = Err ValueError /\
  sparse_batch_op 0 op X y = Err ValueError.
Proof. repeat split. Qed.

(** X17.  With at least two rounds and a batch size of 0, [fit_multi] raises
    [ValueError] in its first round, after the first [fit] has
    returned. *)
Theorem fit_multi_zero_batch_size
        (pow : Q -> Q -> Q) (G : SparseTensor) (s s1 : self) (M : SparseTensor)
        (total : Z) :
  fit pow s M = Ok s1 -> 2 <= rounds s ->
  fit_multi pow G s M 0 total = Err ValueError.
Proof.
  intros Hfit Hr. rewrite LinkPropMultiFacts.fit_multi_rounds, Hfit.
  cbn [bind].
  destruct (LinkPropMultiFacts.fit_keeps_params pow s M s1 Hfit) as (-> & _).
  destruct (Z.to_nat (rounds s - 1)) as [|n] eqn:En; [lia|].
  reflexivity.
Qed.

Lemma fit_multi_zero_batch_size_witness :
  fit_multi pow_int M43 (init 0 0 0 0 2 1 2) M43 0 4 = Err ValueError.
Proof.
  apply (fit_multi_zero_batch_size pow_int M43 (init 0 0 0 0 2 1 2) fitted43 M43 4).
  - vm_compute. reflexivity.
  - simpl. lia.
Defined.

(** X18.  Over an empty range ([total <= 0], batches of positive size)
    [score] runs no batch: it returns the mean of no scores, [nan], and
    no prediction, even on a predictor that was never fitted. *)
Theorem score_empty_range
        (G : SparseTensor) (s : self) (X y : SparseTensor) (batch_size total : Z) :
  0 < batch_size -> total <= 0 ->
  score G s X y batch_size total = Ok (None, []).
Proof.
  intros Hb Ht. unfold score.
  rewrite (py_range_empty total batch_size Hb Ht). reflexivity.
Qed.

Lemma score_empty_range_witness :
  score M43 (init 0 0 0 0 1 1 2) M43 M43 2 0 = Ok (None, []).
Proof.
  apply (score_empty_range M43 (init 0 0 0 0 1 1 2) M43 M43 2 0); lia.
Defined.

Lemma topk_squeezed_single_row k blk :
  size0 blk = 1 -> topk_squeezed k blk = Err IndexError.
Proof. intros H. unfold topk_squeezed. rewrite H. reflexivity. Qed.

Lemma score_from_single_row G s X y batch_size total starts start :
  In start starts -> 0 <= start ->
  Z.min (start + batch_size) total = start + 1 ->
  forall user_topk target_topk scores,
  exists e, score_from G s X y batch_size total starts user_topk target_topk scores
            = Err e.
Proof.
  intros Hin H0 Hmin. induction starts as [|st rest IH]; [contradiction|].
  intros ut tt sc. cbn [score_from]. cbv zeta.
  destruct (predict_topk G s X st (Z.min (st + batch_size) total) (k s))
    as [user_pred|e]; [|eexists; reflexivity].
  cbn [bind].
  destruct (slice_rows y st (Z.min (st + batch_size) total)) as [blk|e] eqn:Eb;
    [|eexists; reflexivity].
  cbn [bind].
  destruct (topk_squeezed (k s) blk) as [tp|e] eqn:Et; [|eexists; reflexivity].
  cbn [bind]. destruct Hin as [->|Hin]; [|now apply IH].
  exfalso. rewrite Hmin in Eb.
  apply LinkPropMultiFacts.slice_rows_Ok in Eb. destruct Eb as [_ Eb].
  rewrite !wrap_nonneg in Eb by lia.
  rewrite topk_squeezed_single_row in Et by lia. discriminate.
Qed.

Lemma py_range_last total batch_size :
  0 < batch_size -> 0 < total -> (total - 1) mod batch_size = 0 ->
  exists starts, py_range total batch_size = Ok starts /\ In (total - 1) starts.
Proof.
  intros Hb Ht Hm. unfold py_range.
  replace (batch_size =? 0) with false by (symmetry; apply Z.eqb_neq; lia).
  replace (0 <? batch_size) with true by (symmetry; apply Z.ltb_lt; lia).
  replace (0 <? total) with true by (symmetry; apply Z.ltb_lt; lia).
  cbn [andb orb]. eexists. split; [reflexivity|].
  apply in_map_iff. exists (Z.to_nat ((total - 1) / batch_size)).
  assert (Hq : 0 <= (total - 1) / batch_size) by (apply Z.div_pos; lia).
  assert (Ed : total - 1 = batch_size * ((total - 1) / batch_size)).
  { rewrite (Z.div_mod (total - 1) batch_size) at 1 by lia. lia. }
  split; [rewrite Z2Nat.id by exact Hq; lia|].
  apply in_seq. split; [lia|].
  rewrite !Z.abs_eq by lia.
  replace (total + batch_size - 1) with ((total - 1) + 1 * batch_size) by lia.
  rewrite Z.div_add by lia.
  rewrite Z2Nat.inj_add by lia. simpl. lia.
Qed.

(** X19.  [score] raises whenever the last batch has exactly one row (batches
    of positive size, [total - 1] a multiple of the batch size):
    [squeeze()] drops the row dimension of the one-row target block, and
    [topk(k, dim=1)] has no dimension 1 left. *)
Theorem score_single_row_batch
        (G : SparseTensor) (s : self) (X y : SparseTensor) (batch_size total : Z) :
  0 < batch_size -> 0 < total -> (total - 1) mod batch_size = 0 ->
  exists e, score G s X y batch_size total = Err e.
Proof.
  intros Hb Ht Hm. unfold score.
  destruct (py_range_last total batch_size Hb Ht Hm) as (starts & -> & Hin).
  cbn [bind]. apply (score_from_single_row G s X y batch_size total starts (total - 1));
    [exact Hin|lia|lia].
Qed.

Lemma score_single_row_batch_witness :
  exists e, score M43 fitted43 M43 M43 3 4 = Err e.
Proof.
  apply (score_single_row_batch M43 fitted43 M43 M43 3 4); [lia|lia|reflexivity].
Defined.

(** ** A predictor that was never fitted *)

Lemma py_range_first stop step :
  0 < step -> 0 < stop -> exists rest, py_range stop step = Ok (0 :: rest).
Proof.
  intros Hs Hp. unfold py_range.
  replace (step =? 0) with false by (symmetry; apply Z.eqb_neq; lia).
  replace (0 <? step) with true by (symmetry; apply Z.ltb_lt; lia).
  replace (0 <? stop) with true by (symmetry; apply Z.ltb_lt; lia).
  cbn [andb orb]. rewrite !Z.abs_eq by lia.
  assert (H : 1 <= (stop + step - 1) / step).
  { apply Z.div_le_lower_bound; lia. }
  destruct (Z.to_nat ((stop + step - 1) / step)) as [|n] eqn:En; [lia|].
  cbn [seq map]. eexists. reflexivity.
Qed.

(** X20.  Without propagation matrices (after [__init__], before any [fit])
    [predict_topk] raises [TypeError] at [self.M_alpha_beta[start:end]],
    and so do [predict] and [score] in their first batch (batches of
    positive size over a range that is not empty). *)
Theorem unfitted_predictor_TypeError
        (G : SparseTensor) (s : self) (X y : SparseTensor)
        (start end_ k' batch_size total : Z) :
  M_alpha_beta s = None -> 0 < batch_size -> 0 < size0 X -> 0 < total ->
  predict_topk G s X start end_ k' = Err TypeError /\
  predict G s X batch_size = Err TypeError /\
  score G s X y batch_size total = Err TypeError.
Proof.
  intros Hab Hb Hx Ht.
  assert (Hp : forall a b c, predict_topk G s X a b c = Err TypeError).
  { intros a b c. unfold predict_topk, get_preds_for_users. rewrite Hab.
    reflexivity. }
  split; [apply Hp|]. split.
  - unfold predict.
    destruct (py_range_first (size0 X) batch_size Hb Hx) as (rest & ->).
    cbn [bind predict_from]. cbv zeta. now rewrite Hp.
  - unfold score.
    destruct (py_range_first total batch_size Hb Ht) as (rest & ->).
    cbn [bind score_from]. cbv zeta. now rewrite Hp.
Qed.

Lemma unfitted_predictor_TypeError_witness :
  predict_topk M43 (init 0 0 0 0 1 1 2) M43 0 4 2 = Err TypeError /\
  predict M43 (init 0 0 0 0 1 1 2) M43 2 = Err TypeError /\
  score M43 (init 0 0 0 0 1 1 2) M43 M43 2 4 = Err TypeError.
Proof.
  apply (unfitted_predictor_TypeError M43 (init 0 0 0 0 1 1 2) M43 M43 0 4 2 2 4).
  - reflexivity.
  - lia.
  - simpl. lia.
  - lia.
Defined.

(** ** [predict_topk]: the returned columns are the best ones *)

Lemma insert_desc_descending x l :
  descending l -> descending (insert_desc x l).
Proof.
  induction l as [|y l IH]; intros H.
  - simpl. split; [constructor|exact I].
  - destruct H as [Hy Hl]. cbn [insert_desc].
    destruct (Qle_bool (fst y) (fst x)) eqn:E.
    + apply Qle_bool_iff in E. cbn [descending]. split; [|split; assumption].
      constructor; [exact E|].
      revert Hy. apply Forall_impl. intros z Hz.
      now apply Qle_trans with (fst y).
    + cbn [descending]. split; [|now apply IH].
      apply Forall_forall. intros z Hz.
      apply LinkPropMultiFacts.In_insert_desc in Hz. destruct Hz as [->|Hz].
      * apply Qlt_le_weak. apply Qnot_le_lt. intros Hle.
        apply Qle_bool_iff in Hle. congruence.
      * rewrite Forall_forall in Hy. now apply Hy.
Qed.

Lemma sort_desc_descending l : descending (sort_desc l).
Proof.
  induction l as [|x l IH]; [exact I|].
  cbn [sort_desc fold_right]. apply insert_desc_descending. exact IH.
Qed.

Lemma descending_firstn_skipn l n x y :
  descending l -> In x (firstn n l) -> In y (skipn n l) -> (fst y <= fst x)%Q.
Proof.
  revert l. induction n as [|n IH]; intros [|a l] H Hx Hy; simpl in *;
    try contradiction.
  destruct H as [Ha Hl]. destruct Hx as [->|Hx].
  - rewrite Forall_forall in Ha. apply Ha.
    clear - Hy. revert l Hy. induction n as [|n IHn]; intros [|b l] Hy;
      simpl in *; try contradiction; [assumption|].
    right. now apply IHn.
  - now apply (IH l).
Qed.

Lemma enumerate_In row j :
  0 <= j < Z.of_nat (length row) ->
  In (nth (Z.to_nat j) row 0%Q, j) (enumerate row).
Proof.
  intros H. unfold enumerate.
  assert (E : (nth (Z.to_nat j) row 0%Q, j)
              = nth (Z.to_nat j)
                    (combine row (zrange 0 (Z.of_nat (length row)))) (0%Q, 0)).
  { rewrite combine_nth by (rewrite length_zrange; lia). f_equal.
    unfold zrange. rewrite Z.sub_0_r, Nat2Z.id.
    rewrite (nth_indep _ 0 (0 + Z.of_nat 0)) by (rewrite length_map, length_seq; lia).
    rewrite (map_nth (fun i => 0 + Z.of_nat i)), seq_nth by lia. lia. }
  rewrite E. apply nth_In. rewrite length_combine, length_zrange. lia.
Qed.

Lemma length_sort_desc l : length (sort_desc l) = length l.
Proof. apply Permutation_length. apply LinkPropMultiFacts.sort_desc_perm. Qed.

(** [topk]: [k] pairs, and no position left out holds a larger value
    than a position taken. *)
Lemma topk_best k row r :
  topk k row = Ok r ->
  length r = Z.to_nat k /\
  forall v j j', In (v, j) r -> 0 <= j' < Z.of_nat (length row) ->
                 ~ In j' (map snd r) -> (nth (Z.to_nat j') row 0 <= v)%Q.
Proof.
  unfold topk. destruct (_ && _) eqn:Ek; [|discriminate].
  apply andb_prop in Ek. destruct Ek as [K0 K1].
  apply Z.leb_le in K0, K1.
  intros H. injection H as <-. split.
  - rewrite length_firstn, length_sort_desc. unfold enumerate.
    rewrite length_combine, length_zrange. lia.
  - intros v j j' Hin Hj' Hout.
    pose proof (enumerate_In row j' Hj') as He.
    apply (proj2 (LinkPropMultiFacts.In_sort_desc _ _)) in He.
    rewrite <- (firstn_skipn (Z.to_nat k) (sort_desc (enumerate row))) in He.
    apply in_app_or in He. destruct He as [He|He].
    + elim Hout. apply in_map_iff. eexists. split; [|exact He]. reflexivity.
    + exact (descending_firstn_skipn _ _ (v, j) _
               (sort_desc_descending (enumerate row)) Hin He).
Qed.

(** One row of [predict_topk]: the positions of the positive values
    among the [k] best. *)
Lemma positive_topk_best k row r :
  topk k row = Ok r ->
  let ids := map snd (filter (fun vi => Qltb 0 (fst vi)) r) in
  forall j, In j ids ->
    0 <= j < Z.of_nat (length row) /\
    (0 < nth (Z.to_nat j) row 0)%Q /\
    forall j', 0 <= j' < Z.of_nat (length row) -> ~ In j' ids ->
      (nth (Z.to_nat j') row 0 <= nth (Z.to_nat j) row 0)%Q /\
      ((0 < nth (Z.to_nat j') row 0)%Q -> length ids = Z.to_nat k).
Proof.
  intros H. cbv zeta. destruct (topk_best k row r H) as [Hlen Hbest].
  destruct (LinkPropMultiFacts.topk_spec k row r H) as (_ & _ & Hval).
  intros j Hj. apply in_map_iff in Hj. destruct Hj as ([v j0] & Ej & Hj).
  cbn [snd] in Ej. subst j0. apply filter_In in Hj. destruct Hj as [Hj Hpos].
  cbn [fst] in Hpos. apply Qltb_lt in Hpos.
  destruct (Hval v j Hj) as [Hjr Ev]. rewrite <- Ev.
  split; [exact Hjr|]. split; [exact Hpos|].
  intros j' Hj' Hout.
  assert (Hcase : ~ In j' (map snd r) \/
                  exists v', In (v', j') r /\ Qltb 0 v' = false).
  { destruct (in_dec Z.eq_dec j' (map snd r)) as [Hi|Hn]; [right|now left].
    apply in_map_iff in Hi. destruct Hi as ([v' j0] & Ej & Hi).
    cbn [snd] in Ej. subst j0. exists v'. split; [exact Hi|].
    destruct (Qltb 0 v') eqn:Ev'; [|reflexivity].
    elim Hout. apply in_map_iff. exists (v', j'). split; [reflexivity|].
    apply filter_In. split; assumption. }
  destruct Hcase as [Hn|(v' & Hv' & Ev')].
  - split; [exact (Hbest v j j' Hj Hj' Hn)|].
    intros Hpos'. rewrite length_map, <- Hlen. f_equal.
    apply filter_all_true. intros [w i] Hw. cbn [fst]. apply Qltb_lt.
    apply Qlt_le_trans with (nth (Z.to_nat j') row 0%Q); [exact Hpos'|].
    exact (Hbest w i j' Hw Hj' Hn).
  - destruct (Hval v' j' Hv') as [_ E']. rewrite <- E'.
    assert (Hle : (v' <= 0)%Q).
    { apply Qnot_lt_le. intros Hlt. apply Qltb_lt in Hlt. congruence. }
    split; [lra|]. intros Hpos'. lra.
Qed.

Lemma masked_scores_entry p obs M start r j :
  size0 p = size0 obs -> size1 p = size1 obs ->
  0 <= r < size0 obs -> 0 <= j < size1 obs ->
  cell obs r j = cell M (start + r) j ->
  nth (Z.to_nat j)
      (nth (Z.to_nat r) (masked_scores p obs (size0 obs) (size1 obs)) []) 0%Q
  = masked_score p M start r j.
Proof.
  intros S0 S1 Hr Hj Ec.
  rewrite (LinkPropMultiFacts.masked_scores_nth p obs _ _ r j Hr Hj).
  rewrite !LinkPropMultiFacts.bidx_in_range by (rewrite ?S0, ?S1; assumption).
  unfold masked_score. now rewrite Ec.
Qed.

(** X23.  With a model and a module-level matrix of the shape of [M] (a
    matrix without duplicate coordinates), a row range inside [M] and
    [0 <= k <= size1 M], every row returned by [predict_topk] holds the
    best columns: each returned column has a positive masked score (the
    score minus 100000 at an observed link, clamped at 0), no column
    left out has a larger masked score than a returned one, and a
    column with a positive masked score is left out only of a row that
    holds [k] columns. *)
Theorem predict_topk_keeps_best
        (G : SparseTensor) (s : self) (M : SparseTensor) (start end_ k : Z)
        (ab gd : SparseTensor) :
  M_alpha_beta s = Some ab -> M_gamma_delta s = Some gd ->
  size0 ab = size0 M -> size1 ab = size1 M ->
  size0 gd = size0 M -> size1 gd = size1 M ->
  size0 G = size0 M -> size1 G = size1 M ->
  well_formed M ->
  0 <= start <= end_ -> end_ <= size0 M ->
  0 <= k <= size1 M ->
  exists p res,
    get_preds_for_users G s start end_ = Ok p /\
    predict_topk G s M start end_ k = Ok res /\
    Forall2
      (fun r row =>
         forall j, In j row ->
           (0 < masked_score p M start r j)%Q /\
           forall j', 0 <= j' < size1 M -> ~ In j' row ->
             (masked_score p M start r j' <= masked_score p M start r j)%Q /\
             ((0 < masked_score p M start r j')%Q -> length row = Z.to_nat k))
      (zrange 0 (end_ - start)) res.
Proof.
  intros Hab Hgd A0 A1 G0 G1 M0 M1 Hwf Hse He Hk.
  destruct (LinkPropMultiFacts.predict_topk_total G s M start end_ k ab gd
              Hab Hgd A0 A1 G0 G1 M0 M1 Hse He Hk) as (res & Hres).
  pose proof Hres as H. unfold predict_topk in H.
  inv_bind H. inv_bind H. inv_bind H. inv_bind H. inv_bind H.
  injection H as Eres.
  rename a into p, a0 into obs, a1 into nrows, a2 into ncols, a3 into tk.
  destruct (slice_rows_cells M start end_ Hwf (proj1 Hse) (proj2 Hse) He)
    as (blk & Eb & B0 & B1 & _ & Hcells).
  assert (blk = obs) by congruence. subst blk.
  destruct (LinkPropMultiFacts.get_preds_for_users_Ok G s start end_ p E)
    as (ab' & gd' & rows & Hab' & Hgd' & Er & P0 & P1).
  assert (ab' = ab) by congruence. assert (gd' = gd) by congruence. subst ab' gd'.
  destruct (LinkPropMultiFacts.slice_rows_in_range ab start end_ Hse)
    as (rows' & Er' & R0 & _); [lia|].
  assert (rows' = rows) by congruence. subst rows'.
  assert (S0 : size0 p = size0 obs) by congruence.
  assert (S1 : size1 p = size1 obs) by congruence.
  rewrite S0, LinkPropMultiFacts.broadcast_same in E1. injection E1 as <-.
  rewrite S1, LinkPropMultiFacts.broadcast_same in E2. injection E2 as <-.
  exists p, res. split; [exact E|]. split; [exact Hres|].
  unfold topk_dim1 in E3. destruct (_ && _) in E3; [|discriminate].
  apply LinkPropMultiFacts.mapM_Forall2 in E3.
  unfold masked_scores in E3. apply LinkPropMultiFacts.Forall2_map_left in E3.
  rewrite <- Eres, <- B0. apply LinkPropMultiFacts.Forall2_map_right.
  revert E3. apply Forall2_impl_In. intros r tkrow Hr Htk.
  apply In_zrange in Hr.
  set (mrow := map _ (zrange 0 (size1 obs))) in Htk.
  assert (Lm : Z.of_nat (length mrow) = size1 obs).
  { unfold mrow. rewrite length_map, length_zrange. lia. }
  assert (Em : forall j, 0 <= j < size1 obs ->
                         nth (Z.to_nat j) mrow 0%Q = masked_score p M start r j).
  { intros j Hj.
    rewrite <- (masked_scores_entry p obs M start r j S0 S1 Hr Hj)
      by (apply Hcells; lia).
    unfold masked_scores. now rewrite (nth_map_zrange _ _ (size0 obs) r [] Hr). }
  pose proof (positive_topk_best k mrow tkrow Htk) as Hbest. cbv zeta in Hbest.
  intros j Hj. destruct (Hbest j Hj) as (Hjr & Hpos & Hothers).
  rewrite Lm in Hjr. rewrite (Em j Hjr) in Hpos, Hothers.
  split; [exact Hpos|].
  intros j' Hj' Hout. rewrite <- B1 in Hj'.
  destruct (Hothers j') as [Hle Hfull]; [lia|exact Hout|].
  rewrite (Em j' Hj') in Hle, Hfull. split; assumption.
Qed.

Lemma predict_topk_keeps_best_witness :
  exists p res,
    get_preds_for_users M43 fitted43 0 4 = Ok p /\
    predict_topk M43 fitted43 M43 0 4 2 = Ok res /\
    Forall2
      (fun r row =>
         forall j, In j row ->
           (0 < masked_score p M43 0 r j)%Q /\
           forall j', 0 <= j' < size1 M43 -> ~ In j' row ->
             (masked_score p M43 0 r j' <= masked_score p M43 0 r j)%Q /\
             ((0 < masked_score p M43 0 r j')%Q -> length row = Z.to_nat 2))
      (zrange 0 (4 - 0)) res.
Proof.
  apply (predict_topk_keeps_best M43 fitted43 M43 0 4 2
           (mkRaw 4 3 (coo M43)) (mkRaw 4 3 (coo M43))).
  - vm_compute. reflexivity.
  - vm_compute. reflexivity.
  - reflexivity.
  - reflexivity.
  - reflexivity.
  - reflexivity.
  - reflexivity.
  - reflexivity.
  - exact LinkPropMultiFacts.M43_well_formed.
  - lia.
  - simpl. lia.
  - simpl. lia.
Defined.

End LinkPropMultiExtra.

(** ** [sparse_batch_op] with an element-wise operation *)

Lemma zrange_cons a b : a < b -> zrange a b = a :: zrange (a + 1) b.
Proof.
  intros H. unfold zrange.
  replace (Z.to_nat (b - a)) with (S (Z.to_nat (b - (a + 1)))) by lia.
  cbn [seq map]. f_equal; [lia|].
  rewrite <- seq_shift, map_map. apply map_ext. intros i. lia.
Qed.

Lemma zrange_nil a b : b <= a -> zrange a b = [].
Proof. intros H. unfold zrange. now replace (Z.to_nat (b - a)) with 0%nat by lia. Qed.

Lemma row_increasing w r (g : Z -> Q) b a p :
  p < w * r + a ->
  increasing_from w p (map (fun c => (r, c, g c)) (zrange a b)).
Proof.
  remember (Z.to_nat (b - a)) as k eqn:Ek. revert a p Ek.
  induction k as [|k IH]; intros a p Ek Hp.
  - rewrite zrange_nil by lia. exact I.
  - rewrite zrange_cons by lia. cbn [map increasing_from].
    unfold flat at 1 2, t_row, t_col. cbn [fst snd].
    split; [exact Hp|]. apply IH; lia.
Qed.

Lemma row_flat_upper w r (g : Z -> Q) a b :
  Forall (fun t => flat w t <= w * r + b - 1) (map (fun c => (r, c, g c)) (zrange a b)).
Proof.
  apply Forall_forall. intros t Ht. apply in_map_iff in Ht.
  destruct Ht as (c & <- & Hc). apply In_zrange in Hc.
  unfold flat, t_row, t_col. cbn [fst snd]. lia.
Qed.

Lemma rows_increasing w (g : Z -> Z -> Q) h a p :
  0 <= w -> p < w * a ->
  increasing_from w p
    (flat_map (fun r => map (fun c => (r, c, g r c)) (zrange 0 w)) (zrange a h)).
Proof.
  intros Hw. remember (Z.to_nat (h - a)) as k eqn:Ek. revert a p Ek.
  induction k as [|k IH]; intros a p Ek Hp.
  - rewrite (zrange_nil a h) by lia. exact I.
  - rewrite (zrange_cons a h) by lia. cbn [flat_map].
    apply (increasing_app w p (w * a + w - 1)).
    + apply (row_increasing w a (g a)). lia.
    + apply (row_flat_upper w a (g a)).
    + lia.
    + apply IH; lia.
Qed.

Lemma rows_in_shape w h (g : Z -> Z -> Q) :
  Forall (in_shape h w)
    (flat_map (fun r => map (fun c => (r, c, g r c)) (zrange 0 w)) (zrange 0 h)).
Proof.
  apply Forall_forall. intros t Ht. apply in_flat_map in Ht.
  destruct Ht as (r & Hr & Ht). apply in_map_iff in Ht.
  destruct Ht as (c & <- & Hc). apply In_zrange in Hr, Hc.
  unfold in_shape, t_row, t_col. cbn [fst snd]. lia.
Qed.

Lemma keyvals_member n p l t :
  increasing_from n p l -> In t l -> keyvals n (flat n t) l = [t_val t].
Proof.
  intros Hc Hin.
  assert (Hm : In (t_val t) (keyvals n (flat n t) l)).
  { unfold keyvals. apply in_map. apply filter_In. split; [assumption|].
    apply Z.eqb_refl. }
  destruct (keyvals_single n p (flat n t) l Hc) as [E|[x E]]; rewrite E in *.
  - contradiction.
  - destruct Hm as [->|[]]. reflexivity.
Qed.

(** [from_dense] of a block given cell by cell. *)
Lemma from_dense_rows (g : Z -> Z -> Q) h w :
  0 <= w -> 0 < h ->
  from_dense (map (fun r => map (fun c => g r c) (zrange 0 w)) (zrange 0 h))
  = mkRaw h w
      (filter (fun t => negb (Qeq_bool (t_val t) 0))
         (flat_map (fun r => map (fun c => (r, c, g r c)) (zrange 0 w))
                   (zrange 0 h))).
Proof.
  intros Hw Hh. unfold from_dense. cbv zeta.
  set (mat := map (fun r => map (fun c => g r c) (zrange 0 w)) (zrange 0 h)).
  assert (L0 : Z.of_nat (length mat) = h).
  { unfold mat. rewrite length_map, length_zrange. lia. }
  assert (L1 : Z.of_nat (length (hd [] mat)) = w).
  { unfold mat. rewrite (zrange_cons 0 h) by lia. cbn [map hd].
    rewrite length_map, length_zrange. lia. }
  rewrite L0, L1. f_equal. f_equal.
  rewrite !flat_map_concat_map. f_equal.
  apply map_ext_in. intros r Hr. apply In_zrange in Hr.
  apply map_ext_in. intros c Hc. apply In_zrange in Hc.
  f_equal. unfold dense_at, mat.
  rewrite (nth_map_zrange _ _ h r [] Hr).
  now rewrite (nth_map_zrange _ _ w c 0%Q Hc).
Qed.

Lemma from_dense_rows_spec (g : Z -> Z -> Q) h w :
  0 <= w -> 0 < h ->
  let res := from_dense (map (fun r => map (fun c => g r c) (zrange 0 w))
                             (zrange 0 h)) in
  size0 res = h /\ size1 res = w /\ well_formed res /\
  Forall (fun t => ~ (t_val t == 0)%Q) (coo res) /\
  forall r c, 0 <= r < h -> 0 <= c < w -> (cell res r c == g r c)%Q.
Proof.
  intros Hw Hh. cbv zeta. rewrite (from_dense_rows g h w Hw Hh).
  set (L := flat_map _ (zrange 0 h)).
  assert (HsL : Forall (in_shape h w) L) by apply rows_in_shape.
  assert (HcL : increasing_from w (-1) L) by (apply rows_increasing; lia).
  assert (Hwf : well_formed
                  (mkRaw h w (filter (fun t => negb (Qeq_bool (t_val t) 0)) L))).
  { split; cbn [size0 size1 coo].
    - now apply Forall_filter.
    - unfold is_coalesced. cbn [size1 coo]. now apply increasing_filter. }
  cbn [size0 size1 coo].
  split; [reflexivity|]. split; [reflexivity|]. split; [exact Hwf|]. split.
  - apply Forall_forall. intros t Ht. apply filter_In in Ht.
    destruct Ht as [_ Ht]. apply negb_true_iff in Ht.
    intros E. apply Qeq_bool_iff in E. congruence.
  - intros r c Hr Hc.
    rewrite (cell_keyvals _ r c Hwf) by exact Hc. cbn [size1 coo].
    rewrite (keyvals_filter_val _ _ (fun v => negb (Qeq_bool v 0))).
    assert (Hin : In (r, c, g r c) L).
    { unfold L. apply in_flat_map. exists r. split; [now apply In_zrange|].
      apply in_map_iff. exists c. split; [reflexivity|now apply In_zrange]. }
    pose proof (keyvals_member w (-1) L (r, c, g r c) HcL Hin) as E.
    unfold flat, t_row, t_col, t_val in E. cbn [fst snd] in E. rewrite E.
    cbn [filter]. destruct (Qeq_bool (g r c) 0) eqn:Eg; cbn [negb hd].
    + apply Qeq_bool_iff in Eg. now rewrite Eg.
    + reflexivity.
Qed.

Lemma cellwise_to_dense f a b :
  size0 a = size0 b -> size1 a = size1 b ->
  cellwise f (to_dense a) (to_dense b)
  = map (fun r => map (fun c => f (cell a r c) (cell b r c)) (zrange 0 (size1 a)))
        (zrange 0 (size0 a)).
Proof.
  intros E0 E1. unfold cellwise, to_dense. rewrite <- E0, <- E1.
  rewrite combine_map_map, map_map. apply map_ext. intros r. cbn [fst snd].
  rewrite combine_map_map, map_map. reflexivity.
Qed.

(** The cells of two stacked matrices. *)
Lemma sparse_cat_cells m n :
  well_formed m -> well_formed n -> 0 <= size0 m -> 0 <= size0 n ->
  size1 m = size1 n ->
  exists R,
    sparse_cat m n = Ok R /\
    size0 R = size0 m + size0 n /\ size1 R = size1 m /\
    well_formed R /\
    coo R = coo m ++ map (shift_rows (size0 m)) (coo n) /\
    forall r c,
      0 <= c < size1 m ->
      (r < size0 m -> cell R r c = cell m r c) /\
      (size0 m <= r -> cell R r c = cell n (r - size0 m) c).
Proof.
  intros Hm Hn H0m H0n E1.
  destruct (sparse_cat_entries m n Hm Hn H0m H0n E1) as [E HwfR].
  eexists. split; [exact E|]. cbn [size0 size1 coo].
  split; [reflexivity|]. split; [reflexivity|]. split; [exact HwfR|].
  split; [reflexivity|].
  intros r c Hc.
  rewrite (cell_keyvals _ r c HwfR Hc). cbn [size1 coo].
  rewrite keyvals_app.
  rewrite (keyvals_map_shift _ (size1 m * size0 m))
    by (intros; apply shift_rows_flat || reflexivity).
  destruct Hm as [Hsm Hcm]. destruct Hn as [Hsn Hcn].
  split.
  - intros Hr.
    assert (Hk : keyvals (size1 m) (size1 m * r + c - size1 m * size0 m) (coo n) = []).
    { unfold keyvals.
      destruct (filter _ (coo n)) as [|u f] eqn:Ef; [reflexivity|].
      assert (Hu : In u (filter (fun t => flat (size1 m) t
                                           =? size1 m * r + c - size1 m * size0 m)
                                (coo n))) by (rewrite Ef; now left).
      apply filter_In in Hu. destruct Hu as [Hu Hf]. apply Z.eqb_eq in Hf.
      rewrite Forall_forall in Hsn. specialize (Hsn u Hu).
      unfold in_shape, flat in *. rewrite <- E1 in Hsn. nia. }
    rewrite Hk, app_nil_r.
    now rewrite (cell_keyvals m r c (conj Hsm Hcm) Hc).
  - intros Hr.
    assert (Hk : keyvals (size1 m) (size1 m * r + c) (coo m) = []).
    { unfold keyvals.
      destruct (filter _ (coo m)) as [|u f] eqn:Ef; [reflexivity|].
      assert (Hu : In u (filter (fun t => flat (size1 m) t =? size1 m * r + c)
                                (coo m))) by (rewrite Ef; now left).
      apply filter_In in Hu. destruct Hu as [Hu Hf]. apply Z.eqb_eq in Hf.
      rewrite Forall_forall in Hsm. specialize (Hsm u Hu).
      unfold in_shape, flat in *. nia. }
    rewrite Hk. cbn [app].
    assert (Hc' : 0 <= c < size1 n) by (rewrite <- E1; exact Hc).
    rewrite (cell_keyvals n (r - size0 m) c (conj Hsn Hcn) Hc'), <- E1.
    do 2 f_equal. lia.
Qed.

Lemma sparse_batch_step f batch_size m n i R :
  well_formed m -> well_formed n ->
  size0 n = size0 m -> size1 n = size1 m -> 0 <= size1 m -> 0 < batch_size ->
  0 <= i < size0 m ->
  batch_result f m n R i ->
  exists a b R',
    slice_rows m i (Z.min (i + batch_size) (size0 m)) = Ok a /\
    slice_rows n i (Z.min (i + batch_size) (size0 m)) = Ok b /\
    sparse_cat R (from_dense (cellwise f (to_dense (all_cols a))
                                         (to_dense (all_cols b)))) = Ok R' /\
    batch_result f m n R' (Z.min (i + batch_size) (size0 m)).
Proof.
  intros Hm Hn E0 E1 Hw Hb Hi (R0 & R1 & HwfR & HnzR & HcellR).
  set (end_ := Z.min (i + batch_size) (size0 m)).
  assert (He : i < end_ <= size0 m) by (unfold end_; lia).
  destruct (slice_rows_cells m i end_ Hm) as (a & Ea & A0 & A1 & Hwa & Hca);
    [lia|lia|lia|].
  destruct (slice_rows_cells n i end_ Hn) as (b & Eb & B0 & B1 & Hwb & Hcb);
    [lia|lia|lia|].
  exists a, b.
  rewrite (all_cols_id a Hwa), (all_cols_id b Hwb).
  rewrite (cellwise_to_dense f a b) by congruence.
  rewrite A0, A1.
  destruct (from_dense_rows_spec (fun r c => f (cell a r c) (cell b r c))
              (end_ - i) (size1 m) Hw) as (S0 & S1 & Hwr & Hnzr & Hcr); [lia|].
  set (res := from_dense _) in *.
  destruct (sparse_cat_cells R res HwfR Hwr) as (R' & Ec & C0 & C1 & HwfR' & Hcoo & Hcells);
    [lia|lia|congruence|].
  exists R'. split; [exact Ea|]. split; [exact Eb|]. split; [exact Ec|].
  split; [lia|]. split; [congruence|]. split; [exact HwfR'|]. split.
  - rewrite Hcoo. apply Forall_app. split; [exact HnzR|].
    apply Forall_forall. intros t Ht. apply in_map_iff in Ht.
    destruct Ht as (u & <- & Hu). rewrite Forall_forall in Hnzr.
    exact (Hnzr u Hu).
  - intros r c Hr Hc.
    assert (Hc' : 0 <= c < size1 R) by (rewrite R1; exact Hc).
    destruct (Hcells r c Hc') as [Hlow Hhigh].
    destruct (Z.lt_ge_cases r i) as [Hlt|Hge].
    + rewrite Hlow by lia. apply HcellR; [lia|exact Hc].
    + rewrite Hhigh by lia. rewrite R0.
      rewrite (Hcr (r - i) c) by lia.
      rewrite (Hca (r - i) c), (Hcb (r - i) c) by lia.
      replace (i + (r - i)) with r by lia. reflexivity.
Qed.

Lemma sparse_batch_loop_spec f batch_size m n :
  well_formed m -> well_formed n ->
  size0 n = size0 m -> size1 n = size1 m -> 0 <= size1 m -> 0 < batch_size ->
  forall k i R,
    0 <= i ->
    (forall j, (j < k)%nat -> i + Z.of_nat j * batch_size < size0 m) ->
    batch_result f m n R (Z.min i (size0 m)) ->
    exists R',
      sparse_batch_loop batch_size (cellwise f) m n
        (map (fun j => i + Z.of_nat j * batch_size) (seq 0 k)) R = Ok R' /\
      batch_result f m n R' (Z.min (i + Z.of_nat k * batch_size) (size0 m)).
Proof.
  intros Hm Hn E0 E1 Hw Hb. induction k as [|k IH]; intros i R Hi Hlt HR.
  - exists R. split; [reflexivity|]. now rewrite Z.add_0_r.
  - assert (Hi' : i < size0 m) by (specialize (Hlt 0%nat); lia).
    rewrite Z.min_l in HR by lia.
    destruct (sparse_batch_step f batch_size m n i R Hm Hn E0 E1 Hw Hb
                (conj Hi Hi') HR) as (a & b & R1 & Ea & Eb & Ec & HR1).
    cbn [seq map sparse_batch_loop]. cbv zeta.
    replace (i + Z.of_nat 0 * batch_size) with i by lia.
    rewrite Ea. cbn [bind]. rewrite Eb. cbn [bind]. rewrite Ec. cbn [bind].
    rewrite <- seq_shift, map_map.
    rewrite (map_ext _ (fun j => (i + batch_size) + Z.of_nat j * batch_size))
      by (intros j; rewrite Nat2Z.inj_succ; ring).
    destruct (IH (i + batch_size) R1) as (R' & E' & HR').
    + lia.
    + intros j Hj. specialize (Hlt (S j)). rewrite Nat2Z.inj_succ in Hlt.
      assert (Hlt' : i + Z.succ (Z.of_nat j) * batch_size < size0 m)
        by (apply Hlt; lia).
      replace (i + batch_size + Z.of_nat j * batch_size)
        with (i + Z.succ (Z.of_nat j) * batch_size) by ring.
      exact Hlt'.
    + exact HR1.
    + exists R'. split; [exact E'|].
      replace (i + Z.of_nat (S k) * batch_size)
        with (i + batch_size + Z.of_nat k * batch_size)
        by (rewrite Nat2Z.inj_succ; ring).
      exact HR'.
Qed.

Lemma py_range_batches stop step :
  0 <= stop -> 0 < step ->
  exists k,
    py_range stop step = Ok (map (fun j => 0 + Z.of_nat j * step) (seq 0 k)) /\
    (forall j, (j < k)%nat -> 0 + Z.of_nat j * step < stop) /\
    stop <= 0 + Z.of_nat k * step.
Proof.
  intros H0 Hs. unfold py_range.
  replace (step =? 0) with false by (symmetry; apply Z.eqb_neq; lia).
  replace (step <? 0) with false by (symmetry; apply Z.ltb_ge; lia).
  replace (0 <? step) with true by (symmetry; apply Z.ltb_lt; lia).
  cbn [andb orb]. destruct (0 <? stop) eqn:Ep.
  - apply Z.ltb_lt in Ep. rewrite !Z.abs_eq by lia.
    set (q := (stop - 1) / step).
    assert (Hq : 0 <= q) by (apply Z.div_pos; lia).
    assert (Hqm : step * q <= stop - 1 < step * Z.succ q).
    { split; [apply Z.mul_div_le; lia|apply Z.mul_succ_div_gt; lia]. }
    assert (Ek : (stop + step - 1) / step = q + 1).
    { replace (stop + step - 1) with ((stop - 1) + 1 * step) by lia.
      now rewrite Z.div_add by lia. }
    rewrite Ek. exists (Z.to_nat (q + 1)). split; [|split].
    + reflexivity.
    + intros j Hj.
      assert (Z.of_nat j * step <= q * step)
        by (apply Z.mul_le_mono_nonneg_r; lia).
      lia.
    + rewrite Z2Nat.id by lia. lia.
  - apply Z.ltb_ge in Ep. exists 0%nat. split; [reflexivity|]. split; [lia|lia].
Qed.

(** X21.  [sparse_batch_op] with an element-wise operation [f] on two
    matrices of one shape without duplicate coordinates (batches of
    positive size) returns a matrix of that shape, without duplicate
    coordinates and without a stored zero, whose cell [(r, c)] is [f]
    of the two cells [(r, c)]: the result does not depend on the batch
    size. *)
Theorem sparse_batch_op_cellwise
        (f : Q -> Q -> Q) (batch_size : Z) (m n : SparseTensor) :
  well_formed m -> well_formed n ->
  size0 n = size0 m -> size1 n = size1 m ->
  0 <= size0 m -> 0 <= size1 m -> 0 < batch_size ->
  exists R,
    sparse_batch_op batch_size (cellwise f) m n = Ok R /\
    size0 R = size0 m /\ size1 R = size1 m /\ well_formed R /\
    Forall (fun t => ~ (t_val t == 0)%Q) (coo R) /\
    forall r c, 0 <= r < size0 m -> 0 <= c < size1 m ->
                (cell R r c == f (cell m r c) (cell n r c))%Q.
Proof.
  intros Hm Hn E0 E1 H0 Hw Hb. unfold sparse_batch_op.
  change (SparseTensor_new [] 0 (size1 m)) with (Ok (mkRaw 0 (size1 m) [])).
  cbn [bind].
  destruct (py_range_batches (size0 m) batch_size H0 Hb) as (k & -> & Hlt & Hge).
  cbn [bind].
  destruct (sparse_batch_loop_spec f batch_size m n Hm Hn E0 E1 Hw Hb
              k 0 (mkRaw 0 (size1 m) [])) as (R & ER & HR).
  - lia.
  - exact Hlt.
  - rewrite Z.min_l by lia. split; [reflexivity|]. split; [reflexivity|].
    split; [split; [constructor|exact I]|]. split; [constructor|].
    intros r c Hr. lia.
  - rewrite Z.min_r in HR by lia.
    destruct HR as (R0 & R1 & HwfR & Hnz & Hcells).
    exists R. repeat (split; [assumption|]). exact Hcells.
Qed.

Lemma sparse_batch_op_cellwise_witness :
  exists R,
    sparse_batch_op 3 (cellwise Qplus) M43 M43_observed = Ok R /\
    size0 R = size0 M43 /\ size1 R = size1 M43 /\ well_formed R /\
    Forall (fun t => ~ (t_val t == 0)%Q) (coo R) /\
    forall r c, 0 <= r < size0 M43 -> 0 <= c < size1 M43 ->
                (cell R r c == Qplus (cell M43 r c) (cell M43_observed r c))%Q.
Proof.
  apply (sparse_batch_op_cellwise Qplus 3 M43 M43_observed).
  - exact LinkPropMultiFacts.M43_well_formed.
  - exact LinkPropMultiExtra.M43_observed_well_formed.
  - reflexivity.
  - reflexivity.
  - simpl. lia.
  - simpl. lia.
  - lia.
Defined.

(** ** [get_preds_for_users]: the two-hop scores *)

Lemma Qsum_map_ext (A : Type) (f g : A -> Q) l :
  (forall x, In x l -> (f x == g x)%Q) -> (Qsum (map f l) == Qsum (map g l))%Q.
Proof.
  induction l as [|a l IH]; intros H; [reflexivity|].
  cbn [map Qsum fold_right]. fold (Qsum (map f l)). fold (Qsum (map g l)).
  rewrite (H a (or_introl eq_refl)), IH; [reflexivity|].
  intros x Hx. apply H. now right.
Qed.

Lemma cell_of_not_stored l r c :
  filter (at_cell r c) l = [] -> cell_of l r c = 0%Q.
Proof. intros H. rewrite cell_of_last, H. reflexivity. Qed.

Lemma filter_flat_map (A B : Type) (f : B -> bool) (g : A -> list B) l :
  filter f (flat_map g l) = flat_map (fun x => filter f (g x)) l.
Proof.
  induction l as [|a l IH]; [reflexivity|].
  cbn [flat_map]. now rewrite filter_app, IH.
Qed.

Lemma flat_map_singletons (A B : Type) (P : A -> bool) (g : A -> B) (f : B -> bool) l :
  (forall x, f (g x) = P x) ->
  flat_map (fun x => if P x then [g x] else []) l = filter f (map g l).
Proof.
  intros H. induction l as [|a l IH]; [reflexivity|].
  cbn [flat_map map filter]. rewrite H, IH. now destruct (P a).
Qed.

(** A product term vanishes unless both factors are stored. *)
Lemma dot_term_zero a b r k c :
  reaches a b r c = false ->
  (cell a r k * cell b k c == 0)%Q.
Proof.
  intros Hn. unfold cell.
  destruct (filter (at_cell r k) (coo a)) as [|ta fa] eqn:Ea.
  - rewrite (cell_of_not_stored _ _ _ Ea). ring.
  - destruct (filter (at_cell k c) (coo b)) as [|tb fb] eqn:Eb.
    + rewrite (cell_of_not_stored _ _ _ Eb). ring.
    + exfalso.
      assert (Ha : In ta (filter (at_cell r k) (coo a))) by (rewrite Ea; now left).
      assert (Hb : In tb (filter (at_cell k c) (coo b))) by (rewrite Eb; now left).
      apply filter_In in Ha, Hb. destruct Ha as [Ha Hta], Hb as [Hb Htb].
      unfold at_cell in Hta, Htb.
      apply andb_prop in Hta, Htb. destruct Hta as [A1 A2], Htb as [B1 B2].
      apply Z.eqb_eq in A2, B1.
      assert (Hr : reaches a b r c = true).
      { unfold reaches. apply existsb_exists. exists ta. split; [exact Ha|].
        rewrite A1. cbn [andb]. apply existsb_exists. exists tb.
        split; [exact Hb|]. rewrite B2, andb_true_r. apply Z.eqb_eq. congruence. }
      congruence.
Qed.

(** The product of two sparse tensors reads, at every cell, the sum of
    the products along the shared dimension. *)
Lemma matmul_cells a b :
  size1 a = size0 b -> 0 <= size1 b ->
  exists R,
    matmul a b = Ok R /\ size0 R = size0 a /\ size1 R = size1 b /\
    well_formed R /\
    forall r c, 0 <= r < size0 a -> 0 <= c < size1 b ->
                (cell R r c == dot a b r c)%Q.
Proof.
  intros E Hw. unfold matmul. rewrite E, Z.eqb_refl.
  eexists. split; [reflexivity|]. cbn [size0 size1].
  split; [reflexivity|]. split; [reflexivity|].
  set (keep := fun t : triplet => reaches a b (t_row t) (t_col t)).
  set (T := flat_map (fun r => map (fun c => (r, c, dot a b r c)) (zrange 0 (size1 b)))
                     (zrange 0 (size0 a))).
  assert (EL : flat_map
                 (fun r => flat_map
                             (fun c => if reaches a b r c then [(r, c, dot a b r c)] else [])
                             (zrange 0 (size1 b)))
                 (zrange 0 (size0 a))
               = filter keep T).
  { unfold T. rewrite filter_flat_map. apply flat_map_ext. intros r.
    apply (flat_map_singletons _ _ (fun c => reaches a b r c)
             (fun c => (r, c, dot a b r c)) keep).
    reflexivity. }
  rewrite EL.
  assert (HsT : Forall (in_shape (size0 a) (size1 b)) T) by apply rows_in_shape.
  assert (HcT : increasing_from (size1 b) (-1) T) by (apply rows_increasing; lia).
  assert (Hwf : well_formed (mkRaw (size0 a) (size1 b) (filter keep T))).
  { split; cbn [size0 size1 coo].
    - now apply Forall_filter.
    - unfold is_coalesced. cbn [size1 coo]. now apply increasing_filter. }
  split; [exact Hwf|].
  intros r c Hr Hc. rewrite (cell_keyvals _ r c Hwf) by exact Hc. cbn [size1 coo].
  assert (Hin : In (r, c, dot a b r c) T).
  { unfold T. apply in_flat_map. exists r. split; [now apply In_zrange|].
    apply in_map_iff. exists c. split; [reflexivity|now apply In_zrange]. }
  pose proof (keyvals_member (size1 b) (-1) T (r, c, dot a b r c) HcT Hin) as EK.
  unfold flat at 1, t_row, t_col, t_val in EK. cbn [fst snd] in EK.
  assert (Hcoord : forall t, In t T -> flat (size1 b) t = size1 b * r + c ->
                             t_row t = r /\ t_col t = c).
  { intros t Ht Hk. rewrite Forall_forall in HsT. specialize (HsT t Ht). split.
    - exact (in_shape_row _ _ t r c HsT Hc Hk).
    - exact (in_shape_col _ _ t r c HsT Hc Hk). }
  destruct (reaches a b r c) eqn:Er.
  - rewrite keyvals_filter_keep, EK; [reflexivity|].
    intros t Ht Hk. destruct (Hcoord t Ht Hk) as [E1 E2].
    unfold keep. now rewrite E1, E2.
  - rewrite keyvals_filter_drop.
    + cbn [hd]. unfold dot.
      rewrite (Qsum_const 0).
      * ring.
      * apply Forall_forall. intros x Hx. apply in_map_iff in Hx.
        destruct Hx as (k & <- & _). now apply dot_term_zero.
    + intros t Ht Hk. destruct (Hcoord t Ht Hk) as [E1 E2].
      unfold keep. now rewrite E1, E2.
Qed.

Lemma cell_of_swap l r c :
  cell_of (map (fun t => (t_col t, t_row t, t_val t)) l) c r = cell_of l r c.
Proof.
  rewrite !cell_of_last. f_equal.
  rewrite filter_map_pre, map_map.
  rewrite (filter_ext _ (at_cell r c)).
  - apply map_ext. intros t. reflexivity.
  - intros t. unfold at_cell, t_row, t_col. cbn [fst snd]. apply andb_comm.
Qed.

(** [m.t()] reads at [(c, r)] what [m] reads at [(r, c)]. *)
Lemma transpose_cells m r c :
  well_formed m -> 0 <= r < size0 m -> 0 <= c < size1 m ->
  cell (transpose m) c r = cell m r c.
Proof.
  intros [Hs Hc] Hr Hcol. unfold cell, transpose. cbn [coo].
  set (sw := map (fun t => (t_col t, t_row t, t_val t)) (coo m)).
  assert (Hsw : Forall (in_shape (size1 m) (size0 m)) sw).
  { unfold sw. apply Forall_forall. intros t Ht. apply in_map_iff in Ht.
    destruct Ht as (u & <- & Hu). rewrite Forall_forall in Hs.
    destruct (Hs u Hu) as [H1 H2]. split; assumption. }
  rewrite <- (cell_of_swap (coo m) r c). fold sw.
  rewrite !cell_of_last.
  rewrite (cellvals_keyvals (size1 m) (size0 m) _ c r)
    by (try apply sort_by_Forall; assumption).
  rewrite (cellvals_keyvals (size1 m) (size0 m) sw c r) by assumption.
  now rewrite keyvals_sort_by.
Qed.

(** X22.  On a fitted predictor ([M_alpha_beta] without duplicate
    coordinates) and a module-level matrix [G] without duplicate
    coordinates whose shape fits the model, [get_preds_for_users]
    returns, for the rows [start .. end - 1], the two-hop scores of
    LinkProp: cell [(r, j)] is the sum over users [i] and items [c] of
    [M_alpha_beta[start + r, c] * G[i, c] * M_gamma_delta[i, j]]. *)
Theorem get_preds_for_users_scores
        (G : SparseTensor) (s : LinkPropMulti.self) (start end_ : Z)
        (ab gd : SparseTensor) :
  LinkPropMulti.M_alpha_beta s = Some ab ->
  LinkPropMulti.M_gamma_delta s = Some gd ->
  well_formed ab -> well_formed G ->
  size1 ab = size1 G -> size0 G = size0 gd ->
  0 <= size0 G -> 0 <= size1 gd ->
  0 <= start <= end_ -> end_ <= size0 ab ->
  exists p,
    LinkPropMulti.get_preds_for_users G s start end_ = Ok p /\
    size0 p = end_ - start /\ size1 p = size1 gd /\
    forall r j, 0 <= r < end_ - start -> 0 <= j < size1 gd ->
                (cell p r j == two_hop ab G gd (start + r) j)%Q.
Proof.
  intros Hab Hgd Wab WG E1 E0 H0 Hw Hse He.
  unfold LinkPropMulti.get_preds_for_users. rewrite Hab, Hgd.
  cbn [LinkPropMulti.some_or bind].
  destruct (slice_rows_cells ab start end_ Wab (proj1 Hse) (proj2 Hse) He)
    as (rows & -> & R0 & R1 & _ & Hrows).
  cbn [bind].
  destruct (matmul_cells rows (transpose G)) as (hop & -> & P0 & P1 & _ & Hhop);
    [cbn [transpose size0]; congruence|cbn [transpose size1]; lia|].
  cbn [bind]. cbn [transpose size1] in P1, Hhop.
  destruct (matmul_cells hop gd) as (p & -> & Q0 & Q1 & _ & Hp);
    [congruence|exact Hw|].
  exists p. split; [reflexivity|]. split; [congruence|]. split; [exact Q1|].
  intros r j Hr Hj. rewrite (Hp r j) by (try rewrite P0, R0; assumption).
  unfold dot at 1. unfold two_hop. rewrite P1.
  apply Qsum_map_ext. intros i Hi. apply In_zrange in Hi.
  rewrite (Hhop r i) by (try rewrite R0; assumption).
  assert (Ed : (dot rows (transpose G) r i
                == Qsum (map (fun c => (cell ab (start + r) c * cell G i c)%Q)
                             (zrange 0 (size1 ab))))%Q).
  { unfold dot. rewrite R1. apply Qsum_map_ext. intros c Hc. apply In_zrange in Hc.
    rewrite (Hrows r c Hr Hc).
    rewrite (transpose_cells G i c WG) by (try rewrite <- E1; assumption).
    reflexivity. }
  rewrite Ed. reflexivity.
Qed.

Lemma get_preds_for_users_scores_witness :
  exists p,
    LinkPropMulti.get_preds_for_users M43 fitted43 0 4 = Ok p /\
    size0 p = 4 - 0 /\ size1 p = size1 (mkRaw 4 3 (coo M43)) /\
    forall r j, 0 <= r < 4 - 0 -> 0 <= j < size1 (mkRaw 4 3 (coo M43)) ->
                (cell p r j
                 == two_hop (mkRaw 4 3 (coo M43)) M43 (mkRaw 4 3 (coo M43)) (0 + r) j)%Q.
Proof.
  apply (get_preds_for_users_scores M43 fitted43 0 4
           (mkRaw 4 3 (coo M43)) (mkRaw 4 3 (coo M43))).
  - vm_compute. reflexivity.
  - vm_compute. reflexivity.
  - exact LinkPropMultiFacts.M43_well_formed.
  - exact LinkPropMultiFacts.M43_well_formed.
  - reflexivity.
  - reflexivity.
  - simpl. lia.
  - simpl. lia.
  - lia.
  - simpl. lia.
Defined.
